(** * UnidbgTraceViewer: the trace parser and its taint engines

    A shallow embedding of [trace_viewer/trace_parser.py]: the call
    annotator, the register reconstructor with its LRU cache, the
    effective-address resolver, the memory-effects precomputation with the
    store-address index, the instruction classifier, and the forward and
    backward taint engines.

    Conventions.
    - A Python [str] is a [string]; the trace text is ASCII, so [str.lower],
      [str.strip], [\w], [\s] and [\d] are modelled on ASCII characters (a
      byte above 127 is neither a word character nor white space).
    - A Python [int] is a [Z]; event indices are [nat].
    - A [dict] that is iterated (an event's [reads] and [writes]) is an
      association list in insertion order; a [dict] that is only looked up
      (a register map, the store-address index) is a [gmap]; a [set] is a
      [gset]; an [OrderedDict] used as an LRU is an association list, oldest
      entry first.
    - The optional [decoders] module is not part of the tree: the import at
      the top of the file fails and [get_decoder] is [None], so every
      decoder-first function takes its textual fallback. *)

From Stdlib Require Import ZArith Ascii String List Lia Bool.
From stdpp Require Import base option gmap strings list sorting pretty.

Open Scope Z_scope.

(** ** Python strings *)

Module Py.

Definition code (c : ascii) : N := N_of_ascii c.

Definition in_range (lo hi : N) (c : ascii) : bool :=
  ((lo <=? code c) && (code c <=? hi))%N.

(** [str.isspace] on ASCII: TAB, LF, VT, FF, CR, FS, GS, RS, US, SPACE. *)
Definition is_space (c : ascii) : bool :=
  in_range 9 13 c || in_range 28 32 c.

Definition is_digit (c : ascii) : bool := in_range 48 57 c.
Definition is_upper (c : ascii) : bool := in_range 65 90 c.
Definition is_lower (c : ascii) : bool := in_range 97 122 c.

(** The regex class [\w]. *)
Definition is_word (c : ascii) : bool :=
  is_digit c || is_upper c || is_lower c || Ascii.eqb c "_".

Definition lower_char (c : ascii) : ascii :=
  if is_upper c then ascii_of_N (code c + 32) else c.

Fixpoint lower (s : string) : string :=
  match s with
  | EmptyString => EmptyString
  | String c s' => String (lower_char c) (lower s')
  end.

Fixpoint rev_app (s acc : string) : string :=
  match s with
  | EmptyString => acc
  | String c s' => rev_app s' (String c acc)
  end.
Definition rev (s : string) : string := rev_app s EmptyString.

Fixpoint drop_while (p : ascii -> bool) (s : string) : string :=
  match s with
  | EmptyString => EmptyString
  | String c s' => if p c then drop_while p s' else s
  end.

Fixpoint take_while (p : ascii -> bool) (s : string) : string :=
  match s with
  | EmptyString => EmptyString
  | String c s' => if p c then String c (take_while p s') else EmptyString
  end.

(** [span p s] splits [s] into its longest prefix of [p] characters and
    the rest: a greedy [p*] that cannot give anything back. *)
Definition span (p : ascii -> bool) (s : string) : string * string :=
  (take_while p s, drop_while p s).

(** The text without its trailing run of [p] characters. *)
Fixpoint drop_trailing (p : ascii -> bool) (s : string) : string :=
  match s with
  | EmptyString => EmptyString
  | String c s' =>
      match drop_trailing p s' with
      | EmptyString => if p c then EmptyString else String c EmptyString
      | r => String c r
      end
  end.

Definition lstrip (s : string) : string := drop_while is_space s.
Definition rstrip (s : string) : string := drop_trailing is_space s.
Definition strip (s : string) : string := rstrip (lstrip s).

(** [s.lstrip(c)] and [s.rstrip(c)] for a one-character argument. *)
Definition lstrip_char (c : ascii) (s : string) : string :=
  drop_while (Ascii.eqb c) s.
Definition rstrip_char (c : ascii) (s : string) : string :=
  drop_trailing (Ascii.eqb c) s.

Definition startswith (s p : string) : bool := String.prefix p s.
Definition endswith (s p : string) : bool := String.prefix (rev p) (rev s).

Definition is_empty (s : string) : bool :=
  match s with EmptyString => true | _ => false end.

(** [sub in s]. *)
Fixpoint contains (s sub : string) : bool :=
  String.prefix sub s ||
  match s with
  | EmptyString => false
  | String _ s' => contains s' sub
  end.

Fixpoint has_char (c : ascii) (s : string) : bool :=
  match s with
  | EmptyString => false
  | String d s' => Ascii.eqb c d || has_char c s'
  end.

(** [s.replace(c, '')] for a single character. *)
Fixpoint remove_char (c : ascii) (s : string) : string :=
  match s with
  | EmptyString => EmptyString
  | String d s' =>
      if Ascii.eqb c d then remove_char c s' else String d (remove_char c s')
  end.

(** [s.find(c)] for a single character: the offset of its first
    occurrence. *)
Fixpoint find (c : ascii) (s : string) : option nat :=
  match s with
  | EmptyString => None
  | String d s' => if Ascii.eqb c d then Some 0%nat else S <$> find c s'
  end.

Fixpoint drop (n : nat) (s : string) : string :=
  match n, s with
  | O, _ => s
  | S n', String _ s' => drop n' s'
  | S _, EmptyString => EmptyString
  end.

Fixpoint take (n : nat) (s : string) : string :=
  match n, s with
  | S n', String c s' => String c (take n' s')
  | _, _ => EmptyString
  end.

(** [s.split(sep)] for a one-character separator; never the empty list. *)
Fixpoint split_go (sep : ascii) (cur : string) (s : string) : list string :=
  match s with
  | EmptyString => [rev cur]
  | String c s' =>
      if Ascii.eqb c sep then rev cur :: split_go sep EmptyString s'
      else split_go sep (String c cur) s'
  end.
Definition split (sep : ascii) (s : string) : list string :=
  split_go sep EmptyString s.

(** [s.split()]: the white-space separated words. *)
Fixpoint words_go (fuel : nat) (s : string) : list string :=
  match fuel with
  | O => []
  | S fuel' =>
      let s1 := lstrip s in
      if is_empty s1 then []
      else take_while (fun c => negb (is_space c)) s1
           :: words_go fuel' (drop_while (fun c => negb (is_space c)) s1)
  end.
Definition words (s : string) : list string :=
  words_go (S (String.length s)) s.

(** [s.split(None, 1)]: the first word and the unsplit remainder. *)
Definition split_once (s : string) : list string :=
  let s1 := lstrip s in
  if is_empty s1 then []
  else
    let w := take_while (fun c => negb (is_space c)) s1 in
    let r := lstrip (drop_while (fun c => negb (is_space c)) s1) in
    if is_empty r then [w] else [w; r].

(** [s[1:].isdigit()]-style test: non-empty and digits only. *)
Definition isdigit (s : string) : bool :=
  negb (is_empty s) && is_empty (drop_while is_digit s).

Fixpoint last_char (s : string) : option ascii :=
  match s with
  | EmptyString => None
  | String c EmptyString => Some c
  | String _ s' => last_char s'
  end.

End Py.

(** ** Python integers from text *)

Module PyInt.

Definition digit_val (c : ascii) : option Z :=
  if Py.is_digit c then Some (Z.of_N (Py.code c) - 48)
  else if Py.in_range 97 102 c then Some (Z.of_N (Py.code c) - 87)
  else if Py.in_range 65 70 c then Some (Z.of_N (Py.code c) - 55)
  else None.

Definition digit_in (base : Z) (c : ascii) : option Z :=
  match digit_val c with
  | Some d => if d <? base then Some d else None
  | None => None
  end.

(** Digits with single underscores between them; [after_digit] tells
    whether the previous character was a digit, so that an underscore is
    allowed here. *)
Fixpoint digits (base : Z) (after_digit : bool) (acc : Z) (s : string)
  : option Z :=
  match s with
  | EmptyString => if after_digit then Some acc else None
  | String c s' =>
      if Ascii.eqb c "_" then
        if after_digit then
          match s' with
          | EmptyString => None
          | _ => digits base false acc s'
          end
        else None
      else
        match digit_in base c with
        | Some d => digits base true (acc * base + d) s'
        | None => None
        end
  end.

(** A leading underscore is accepted right after a base prefix. *)
Definition digits_after_prefix (base : Z) (s : string) : option Z :=
  match s with
  | String "_" s' => digits base false 0 s'
  | _ => digits base false 0 s
  end.

Definition prefix_of (s : string) : option (Z * string) :=
  match s with
  | String "0" (String c s') =>
      if Ascii.eqb c "x" || Ascii.eqb c "X" then Some (16, s')
      else if Ascii.eqb c "o" || Ascii.eqb c "O" then Some (8, s')
      else if Ascii.eqb c "b" || Ascii.eqb c "B" then Some (2, s')
      else None
  | _ => None
  end.

Definition unsigned (base : Z) (s : string) : option Z :=
  match prefix_of s with
  | Some (b, rest) =>
      if (base =? 0) || (base =? b) then digits_after_prefix b rest
      else digits base false 0 s
  | None =>
      if base =? 0 then
        match digits 10 false 0 s with
        | Some v =>
            (* base 0 refuses a non-zero literal with a leading zero *)
            if Py.startswith s "0" && negb (v =? 0) then None else Some v
        | None => None
        end
      else digits base false 0 s
  end.

(** [int(s, base)] for [base] 0, 10 or 16; [None] stands for
    [ValueError]. *)
Definition int (base : Z) (s : string) : option Z :=
  let t := Py.strip s in
  match t with
  | String "-" t' => Z.opp <$> unsigned base t'
  | String "+" t' => unsigned base t'
  | _ => unsigned base t
  end.

End PyInt.

(** ** Events and register maps *)

(** An iterated [Dict[str, int]]: keys in insertion order. *)
Abbreviation dict := (list (string * Z)).

Definition keys (d : dict) : list string := d.*1.

(** [k in d]. *)
Definition has_key (d : dict) (k : string) : bool := bool_decide (k ∈ keys d).

(** [d.get(k)]. *)
Fixpoint dict_get (d : dict) (k : string) : option Z :=
  match d with
  | [] => None
  | (k', v) :: d' => if bool_decide (k' = k) then Some v else dict_get d' k
  end.

(** The keys of a [dict] are distinct. *)
Definition dict_wf (d : dict) : Prop := NoDup (keys d).

(** A reconstructed register file, [Dict[str, int]] used by lookup only. *)
Abbreviation regs := (gmap string Z).

Record TraceEvent := mkTraceEvent {
  line_no : nat;
  timestamp : string;
  module : string;
  module_offset : string;
  encoding : string;
  pc : Z;
  asm : string;
  raw : string;
  writes : dict;
  reads : dict;
  effaddr : option Z;
  mem_width : Z;
  mem_op : string;
  call_id : nat;
  call_depth : nat
}.

(** [TraceEvent(line_no, ..., asm, ..., writes, reads)] with the
    constructor's defaults for the remaining fields. *)
Definition new_event (ln : nat) (a : string) (rd wr : dict) : TraceEvent :=
  {| line_no := ln; timestamp := ""; module := ""; module_offset := "";
     encoding := ""; pc := 0; asm := a; raw := ""; writes := wr; reads := rd;
     effaddr := None; mem_width := 0; mem_op := ""; call_id := 0;
     call_depth := 0 |}.

Definition set_call (ev : TraceEvent) (cid depth : nat) : TraceEvent :=
  {| line_no := line_no ev; timestamp := timestamp ev; module := module ev;
     module_offset := module_offset ev; encoding := encoding ev; pc := pc ev;
     asm := asm ev; raw := raw ev; writes := writes ev; reads := reads ev;
     effaddr := effaddr ev; mem_width := mem_width ev; mem_op := mem_op ev;
     call_id := cid; call_depth := depth |}.

Definition set_mem (ev : TraceEvent) (a : option Z) (op : string) (w : Z)
  : TraceEvent :=
  {| line_no := line_no ev; timestamp := timestamp ev; module := module ev;
     module_offset := module_offset ev; encoding := encoding ev; pc := pc ev;
     asm := asm ev; raw := raw ev; writes := writes ev; reads := reads ev;
     effaddr := a; mem_width := w; mem_op := op;
     call_id := call_id ev; call_depth := call_depth ev |}.

(** ** Register aliases: [_alias_names]

    The [_alias_cache] in front of the computation only memoises it (the
    cached list is the one the computation returns for that name), so the
    function is modelled without it. *)
Definition _alias_names (name : string) : list string :=
  let n := Py.lower (Py.strip name) in
  match n with
  | String c rest =>
      if Ascii.eqb c "x" && Py.isdigit rest then [n; String "w" rest]
      else if Ascii.eqb c "w" && Py.isdigit rest then [n; String "x" rest]
      else [n]
  | EmptyString => [n]
  end.

(** ** Call annotator: [_annotate_call] *)

(** [_is_call_insn]. *)
Definition _is_call_insn (a : string) : bool :=
  Py.startswith a "bl " || Py.startswith a "blx ".

(** [_is_return_insn]. [asm.split()[1]] raises [IndexError] when an [ldr]
    has no operand at all; the exception is [None] here. *)
Definition _is_return_insn (a : string) : option bool :=
  if Py.contains a "bx lr" then Some true
  else if Py.startswith a "mov " && Py.contains a "pc" && Py.contains a "lr"
  then Some true
  else if Py.startswith a "pop " && Py.contains a "pc" then Some true
  else
    if Py.startswith a "ldr " then
      match Py.words a with
      | _ :: w1 :: _ =>
          if bool_decide (Py.rstrip_char "," w1 = "pc") then Some true
          else Some (Py.startswith a "ldm" && Py.contains a "pc")
      | _ => None
      end
    else Some (Py.startswith a "ldm" && Py.contains a "pc").

(** [_is_call_event] and [_is_return_event] with the decoder unavailable. *)
Definition _is_call_event (ev : TraceEvent) : bool :=
  _is_call_insn (Py.lower (asm ev)).
Definition _is_return_event (ev : TraceEvent) : option bool :=
  _is_return_insn (Py.lower (asm ev)).

(** The annotator's own state: [_call_stack] (top of stack first) and
    [_next_call_id]. *)
Record CallState := mkCallState {
  _call_stack : list nat;
  _next_call_id : nat
}.

Definition call_init : CallState :=
  {| _call_stack := []; _next_call_id := 1 |}.

(** One call of [_annotate_call]: the event is labelled with the context
    in force, then the stack is adjusted. *)
Definition _annotate_call (cs : CallState) (ev : TraceEvent)
  : option (TraceEvent * CallState) :=
  let ev' := set_call ev (hd 0%nat (_call_stack cs))
                         (length (_call_stack cs)) in
  if _is_call_event ev then
    Some (ev', {| _call_stack := _next_call_id cs :: _call_stack cs;
                  _next_call_id := S (_next_call_id cs) |})
  else
    match _is_return_event ev with
    | None => None
    | Some true =>
        Some (ev', {| _call_stack := tl (_call_stack cs);
                      _next_call_id := _next_call_id cs |})
    | Some false => Some (ev', cs)
    end.

(** The annotator run over the events of a file, in input order. *)
Fixpoint annotate_all (cs : CallState) (evs : list TraceEvent)
  : option (list TraceEvent) :=
  match evs with
  | [] => Some []
  | ev :: rest =>
      match _annotate_call cs ev with
      | None => None
      | Some (ev', cs') => cons ev' <$> annotate_all cs' rest
      end
  end.

(** ** Replay of one event: [_apply_writes]

    First the reads fill in registers that have no value yet
    ([setdefault]), then the writes overwrite ([update]). *)
Definition setdefault_all (m : regs) (d : dict) : regs :=
  foldl (fun m kv => match m !! kv.1 with
                     | Some _ => m
                     | None => <[kv.1 := kv.2]> m
                     end) m d.

Definition update_all (m : regs) (d : dict) : regs :=
  foldl (fun m kv => <[kv.1 := kv.2]> m) m d.

Definition _apply_writes (cur : regs) (ev : TraceEvent) : regs :=
  update_all (setdefault_all cur (reads ev)) (writes ev).

(** The register file after event [i], replayed from the empty map: the
    value [_current_regs] has during parsing once event [i] is applied. *)
Definition regs_after (evs : list TraceEvent) (i : nat) : regs :=
  foldl _apply_writes ∅ (take (S i) evs).

(** ** The parsed trace *)

Record TraceParser := mkTraceParser {
  events : list TraceEvent;
  _reg_checkpoints : gmap nat regs;
  _checkpoint_interval : nat;
  _regs_cache_cap : nat;
  _effaddr_cache_cap : nat;
  store_addr_index : gmap Z (list nat)
}.

(** The main loop of [parse_file], from the point where a line has been
    lexed into an event: annotate, append, apply to [_current_regs], and
    snapshot the registers when the line number is a multiple of the
    checkpoint interval ([i % 0] raises, which aborts the parse). *)
Record ParseState := mkParseState {
  ps_events : list TraceEvent;
  ps_call : CallState;
  ps_current_regs : regs;
  ps_checkpoints : gmap nat regs
}.

Definition parse_init : ParseState :=
  {| ps_events := []; ps_call := call_init; ps_current_regs := ∅;
     ps_checkpoints := ∅ |}.

Definition parse_step (interval : nat) (ps : ParseState) (ev : TraceEvent)
  : option ParseState :=
  match _annotate_call (ps_call ps) ev with
  | None => None
  | Some (ev', cs') =>
      if (interval =? 0)%nat then None else
      let cur := _apply_writes (ps_current_regs ps) ev' in
      Some {| ps_events := ps_events ps ++ [ev'];
              ps_call := cs';
              ps_current_regs := cur;
              ps_checkpoints :=
                if (line_no ev' mod interval =? 0)%nat
                then <[line_no ev' := cur]> (ps_checkpoints ps)
                else ps_checkpoints ps |}
  end.

Fixpoint parse_loop (interval : nat) (ps : ParseState)
  (lexed : list TraceEvent) : option ParseState :=
  match lexed with
  | [] => Some ps
  | ev :: rest =>
      match parse_step interval ps ev with
      | None => None
      | Some ps' => parse_loop interval ps' rest
      end
  end.

(** ** LRU caches: [OrderedDict] *)

Section OrderedDict.
Context {V : Type}.

Fixpoint od_get (c : list (nat * V)) (k : nat) : option V :=
  match c with
  | [] => None
  | (k', v) :: c' => if (k' =? k)%nat then Some v else od_get c' k
  end.

Definition od_remove (c : list (nat * V)) (k : nat) : list (nat * V) :=
  filter (fun kv => kv.1 ≠ k) c.

(** [c.move_to_end(k)] for a key that is present. *)
Definition od_move_to_end (c : list (nat * V)) (k : nat) : list (nat * V) :=
  match od_get c k with
  | Some v => od_remove c k ++ [(k, v)]
  | None => c
  end.

(** [c[k] = v]: an existing key keeps its position. *)
Fixpoint od_set (c : list (nat * V)) (k : nat) (v : V) : list (nat * V) :=
  match c with
  | [] => [(k, v)]
  | (k', v') :: c' =>
      if (k' =? k)%nat then (k, v) :: c' else (k', v') :: od_set c' k v
  end.

(** [c.popitem(last=False)]. *)
Definition od_popfirst (c : list (nat * V)) : list (nat * V) := tl c.

(** [c[k] = v] followed by the capacity trim. *)
Definition od_set_trim (cap : nat) (c : list (nat * V)) (k : nat) (v : V)
  : list (nat * V) :=
  let c' := od_set c k v in
  if (cap <? length c')%nat then od_popfirst c' else c'.
End OrderedDict.

Record Caches := mkCaches {
  _regs_cache : list (nat * regs);
  _recent_access_idx : Z;
  _effaddr_cache : list (nat * option Z)
}.

Definition caches_init : Caches :=
  {| _regs_cache := []; _recent_access_idx := -1; _effaddr_cache := [] |}.

(** ** Register reconstructor: [reconstruct_regs_at] *)

(** The largest cached key at or before [ei]; [-1] when there is none. *)
Definition best_key (c : list (nat * regs)) (ei : nat) : Z :=
  foldl (fun best kv =>
           if (Z.of_nat kv.1 <=? Z.of_nat ei) && (best <? Z.of_nat kv.1)
           then Z.of_nat kv.1 else best) (-1) c.

(** The latest checkpoint line at or before [target_line]; [0] when there
    is none. The keys are visited in ascending order and the scan stops at
    the first one beyond the target. *)
Fixpoint latest_checkpoint (sorted_lines : list nat) (target_line : nat)
  (acc : nat) : nat :=
  match sorted_lines with
  | [] => acc
  | ln :: rest =>
      if (ln <=? target_line)%nat then latest_checkpoint rest target_line ln
      else acc
  end.

(** The binary search for the first event whose line number is not below
    the checkpoint line. The interval [lo..hi] shrinks at every turn, so
    [fuel] above its size is never exhausted. *)
Fixpoint first_at_line (evs : list TraceEvent) (checkpoint_line : nat)
  (fuel : nat) (lo hi : Z) : Z :=
  match fuel with
  | O => lo
  | S fuel' =>
      if lo <=? hi then
        let mid := (lo + hi) `div` 2 in
        match evs !! Z.to_nat mid with
        | Some ev =>
            if (line_no ev <? checkpoint_line)%nat
            then first_at_line evs checkpoint_line fuel' (mid + 1) hi
            else first_at_line evs checkpoint_line fuel' lo (mid - 1)
        | None => lo
        end
      else lo
  end.

(** The replay loop with its one-off midpoint snapshot. *)
Fixpoint replay_loop (evs : list TraceEvent) (idxs : list nat)
  (midpoint : Z) (should_cache_midpoint : bool)
  (rg : regs) (cache : list (nat * regs)) (midpoint_cached : bool)
  : regs * list (nat * regs) :=
  match idxs with
  | [] => (rg, cache)
  | idx :: rest =>
      match evs !! idx with
      | None => (rg, cache)
      | Some ev =>
          let rg' := update_all (setdefault_all rg (reads ev)) (writes ev) in
          if should_cache_midpoint && negb midpoint_cached
             && (midpoint <=? Z.of_nat idx)
          then replay_loop evs rest midpoint should_cache_midpoint rg'
                 (od_set cache idx rg') true
          else replay_loop evs rest midpoint should_cache_midpoint rg'
                 cache midpoint_cached
      end
  end.

(** Where the replay starts. Sequential access: the state cached for the
    last query, when that query is less than 100 events away and not
    after the target. *)
Definition start_from_recent (c : Caches) (ei : nat) : option (Z * regs) :=
  let recent := _recent_access_idx c in
  let is_sequential :=
    (0 <=? recent) && (0 <? Z.abs (Z.of_nat ei - recent))
    && (Z.abs (Z.of_nat ei - recent) <? 100) in
  if is_sequential then
    match od_get (_regs_cache c) (Z.to_nat recent) with
    | Some r => if recent <=? Z.of_nat ei then Some (recent, r) else None
    | None => None
    end
  else None.

(** Otherwise the nearest cached state at or before the target. *)
Definition start_from_cache (c : Caches) (ei : nat) : option (Z * regs) :=
  match start_from_recent c ei with
  | Some s => Some s
  | None =>
      let bk := best_key (_regs_cache c) ei in
      if 0 <=? bk then
        match od_get (_regs_cache c) (Z.to_nat bk) with
        | Some r => Some (bk, r)
        | None => None
        end
      else None
  end.

(** Otherwise the latest checkpoint at or before the target's line, with
    the index of the first event on or after that line; the empty map and
    index 0 when there is no such checkpoint. *)
Definition start_from_checkpoint (P : TraceParser) (ei : nat) : regs * Z :=
  let evs := events P in
  let target_line := from_option line_no 0%nat (evs !! ei) in
  let checkpoint_line :=
    latest_checkpoint
      (merge_sort (≤)%nat (elements (dom (_reg_checkpoints P))))
      target_line 0%nat in
  (default ∅ (_reg_checkpoints P !! checkpoint_line),
   if (checkpoint_line =? 0)%nat then 0
   else first_at_line evs checkpoint_line (S (length evs)) 0
          (Z.of_nat (length evs) - 1)).

Definition replay_start (P : TraceParser) (c : Caches) (ei : nat)
  : regs * Z :=
  match start_from_cache c ei with
  | Some (k, r) => (r, k + 1)
  | None => start_from_checkpoint P ei
  end.

Definition reconstruct_regs_at (P : TraceParser) (c : Caches)
  (event_index : Z) : regs * Caches :=
  let evs := events P in
  let n := Z.of_nat (length evs) in
  if bool_decide (evs = []) then (∅, c)
  else
    let ei := Z.to_nat (Z.max 0 (Z.min event_index (n - 1))) in
    match od_get (_regs_cache c) ei with
    | Some cached =>
        (cached, {| _regs_cache := od_move_to_end (_regs_cache c) ei;
                    _recent_access_idx := Z.of_nat ei;
                    _effaddr_cache := _effaddr_cache c |})
    | None =>
        let '(rg0, start_idx) := replay_start P c ei in
        let replay_distance := Z.of_nat ei - start_idx + 1 in
        let should_cache_midpoint := 50 <? replay_distance in
        let '(rg, cache1) :=
          replay_loop evs
            (seq (Z.to_nat start_idx) (Z.to_nat (Z.of_nat ei + 1 - start_idx)))
            (start_idx + replay_distance `div` 2) should_cache_midpoint
            rg0 (_regs_cache c) false in
        (rg, {| _regs_cache := od_set_trim (_regs_cache_cap P) cache1 ei rg;
                _recent_access_idx := Z.of_nat ei;
                _effaddr_cache := _effaddr_cache c |})
    end.

(** ** Effective-address resolver: [effective_address] *)

Definition mask32 : Z := 0xFFFFFFFF.

(** The operands the resolver reads off the bracketed expression. An empty
    [ae_index] stands for "no index register". *)
Record AddrExpr := mkAddrExpr {
  ae_expr : string;
  ae_base : string;
  ae_index : string;
  ae_shift : Z;
  ae_imm : Z;
  ae_pre_index : bool
}.

(** [asm[lb+1:rb]] and [asm[rb+1:]] for the first [[] and the first []]
    after it; [None] when either is missing. *)
Definition bracket_split (a : string) : option (string * string) :=
  match Py.find "[" a with
  | None => None
  | Some lb =>
      let after := Py.drop (S lb) a in
      match Py.find "]" after with
      | None => None
      | Some k => Some (Py.take k after, Py.drop (S k) after)
      end
  end.

Definition int_or (dflt : Z) (base : Z) (s : string) : Z :=
  default dflt (PyInt.int base s).

Definition parse_addr_expr (a : string) : option AddrExpr :=
  match bracket_split a with
  | None => None
  | Some (inner, _) =>
      let expr := Py.strip inner in
      let parts := Py.strip <$> Py.split "," expr in
      let base := nth 0 parts "" in
      let p1 := nth 1 parts "" in
      let p2 := nth 2 parts "" in
      let has1 := (2 <=? length parts)%nat in
      let has2 := (3 <=? length parts)%nat in
      let imm :=
        if has1 && Py.startswith p1 "#"
        then int_or 0 0 (Py.lstrip_char "#" p1) else 0 in
      let index := if has1 && negb (Py.startswith p1 "#") then p1 else "" in
      let is_index := has1 && negb (Py.startswith p1 "#") in
      let mod_ := Py.lower p2 in
      let shift1 :=
        if is_index && has2 && Py.contains mod_ "lsl"
        then int_or 0 0 (List.last (Py.split "#" mod_) "") else 0 in
      let shift2 :=
        if is_index && has2
           && (Py.contains mod_ "uxtw" || Py.contains mod_ "sxtw"
               || Py.contains mod_ "sxtx")
           && Py.has_char "#" p2
        then int_or shift1 0 (List.last (Py.split "#" p2) "") else shift1 in
      Some {| ae_expr := expr; ae_base := base; ae_index := index;
              ae_shift := shift2; ae_imm := imm;
              ae_pre_index := Py.has_char "!" inner |}
  end.

(** [getv]: the register map is consulted under the stripped, lower-cased
    name. *)
Definition getv (rg : regs) (rname : string) : option Z :=
  rg !! Py.lower (Py.strip rname).

(** What the textual path does once the registers are at hand. *)
Inductive AddrOutcome :=
| AddrFound (v : Z)        (* returned and cached *)
| AddrSimple (v : Z)       (* returned by the single-register fallback *)
| AddrNoBase               (* base register unknown: [None], not cached *)
| AddrUnparsed.            (* [None], cached as such *)

Definition eval_addr_expr (ae : AddrExpr) (rg : regs) : AddrOutcome :=
  let b := if Py.is_empty (ae_base ae) then None else getv rg (ae_base ae) in
  let i := if Py.is_empty (ae_index ae) then 0
           else default 0 (getv rg (ae_index ae)) in
  match b with
  | None => AddrNoBase
  | Some b =>
      if 0 <=? ae_shift ae then
        AddrFound (Z.land (b + Z.shiftl i (ae_shift ae)
                           + (if ae_pre_index ae then ae_imm ae else 0))
                          mask32)
      else
        (* a negative shift count raises; the handler falls through to
           the single-register form *)
        let expr := ae_expr ae in
        if negb (Py.has_char "," expr)
           && (Py.startswith expr "r" || Py.startswith expr "x"
               || Py.startswith expr "w")
        then match getv rg expr with
             | None => AddrNoBase
             | Some v => AddrSimple (Z.land v mask32)
             end
        else AddrUnparsed
  end.

Definition outcome_value (o : AddrOutcome) : option Z :=
  match o with
  | AddrFound v | AddrSimple v => Some v
  | AddrNoBase | AddrUnparsed => None
  end.

(** The address the textual path computes for the lower-cased
    instruction text [a] from the register map [rg]. *)
Definition eff_of_regs (a : string) (rg : regs) : option Z :=
  match parse_addr_expr a with
  | None => None
  | Some ae => outcome_value (eval_addr_expr ae rg)
  end.

Definition is_ldr_or_str (a : string) : bool :=
  Py.startswith a "str" || Py.startswith a "ldr".

Definition with_effaddr_cache (c : Caches) (ec : list (nat * option Z))
  : Caches :=
  {| _regs_cache := _regs_cache c;
     _recent_access_idx := _recent_access_idx c;
     _effaddr_cache := ec |}.

(** [effective_address] with its LRU cache, the precomputed [effaddr]
    field, and the call to the register reconstructor at the event's own
    index. *)
Definition effective_address (P : TraceParser) (c : Caches)
  (event_index : Z) : option Z * Caches :=
  if (event_index <? 0) || (Z.of_nat (length (events P)) <=? event_index)
  then (None, c)
  else
    let ei := Z.to_nat event_index in
    match od_get (_effaddr_cache c) ei with
    | Some (Some cached) =>
        (Some cached,
         with_effaddr_cache c (od_move_to_end (_effaddr_cache c) ei))
    | _ =>
        match events P !! ei with
        | None => (None, c)
        | Some ev =>
            let a := Py.lower (asm ev) in
            if negb (is_ldr_or_str a) then (None, c)
            else
              match effaddr ev with
              | Some pre =>
                  (Some pre,
                   with_effaddr_cache c
                     (od_set (_effaddr_cache c) ei (Some pre)))
              | None =>
                  match parse_addr_expr a with
                  | None => (None, c)
                  | Some ae =>
                      let '(rg, c1) := reconstruct_regs_at P c event_index in
                      let cap := _effaddr_cache_cap P in
                      match eval_addr_expr ae rg with
                      | AddrFound v =>
                          (Some v,
                           with_effaddr_cache c1
                             (od_set_trim cap (_effaddr_cache c1) ei (Some v)))
                      | AddrSimple v =>
                          (Some v,
                           with_effaddr_cache c1
                             (od_set (_effaddr_cache c1) ei (Some v)))
                      | AddrNoBase => (None, c1)
                      | AddrUnparsed =>
                          (None,
                           with_effaddr_cache c1
                             (od_set_trim cap (_effaddr_cache c1) ei None))
                      end
                  end
              end
        end
    end.

(** The resolver's answer as a function of the frozen event list: the
    textual path evaluated on the registers after event [i]. The cached
    resolver computes exactly this (see [effective_address_spec]). *)
Definition effective_address_at (evs : list TraceEvent) (i : nat)
  : option Z :=
  match evs !! i with
  | None => None
  | Some ev =>
      let a := Py.lower (asm ev) in
      if is_ldr_or_str a then eff_of_regs a (regs_after evs i) else None
  end.

(** ** Instruction classifier *)

(** Pieces of the regular expressions, each a greedy run that has nothing
    it could give back to what follows. *)
Module Rx.

(** [(\w+)] *)
Definition word (s : string) : option (string * string) :=
  let w := Py.take_while Py.is_word s in
  if Py.is_empty w then None else Some (w, Py.drop_while Py.is_word s).

(** [\s+] *)
Definition spaces1 (s : string) : option string :=
  match s with
  | String c _ => if Py.is_space c then Some (Py.lstrip s) else None
  | EmptyString => None
  end.

(** [\s*c] for a literal character [c]. *)
Definition lit (c : ascii) (s : string) : option string :=
  match Py.lstrip s with
  | String d r => if Ascii.eqb c d then Some r else None
  | EmptyString => None
  end.

(** [\d+] *)
Definition digits1 (s : string) : option (string * string) :=
  let w := Py.take_while Py.is_digit s in
  if Py.is_empty w then None else Some (w, Py.drop_while Py.is_digit s).

(** [\d{1,2}] followed by something that is not a digit. *)
Definition digits12 (s : string) : option (string * string) :=
  match digits1 s with
  | Some (w, r) => if (String.length w <=? 2)%nat then Some (w, r) else None
  | None => None
  end.

Definition one_of (cs : string) (s : string) : option (ascii * string) :=
  match s with
  | String c r => if Py.has_char c cs then Some (c, r) else None
  | EmptyString => None
  end.

(** [([rxw][0-9]{1,2})] and [([xw]\d+)]. *)
Definition reg12 (cs : string) (s : string) : option (string * string) :=
  match one_of cs s with
  | Some (c, r) =>
      match digits12 r with
      | Some (d, r') => Some (String c d, r')
      | None => None
      end
  | None => None
  end.

Definition regn (cs : string) (s : string) : option (string * string) :=
  match one_of cs s with
  | Some (c, r) =>
      match digits1 r with
      | Some (d, r') => Some (String c d, r')
      | None => None
      end
  | None => None
  end.

(** [\s*([^,]+)] up to the next comma: the group is what is left of the
    text before the comma once leading white space is skipped, or its
    last character when it is white space only. *)
Definition field (t : string) : option string :=
  if Py.is_empty t then None
  else
    let u := Py.lstrip t in
    if Py.is_empty u
    then (fun c => String c EmptyString) <$> Py.last_char t
    else Some u.

Definition not_comma (c : ascii) : bool := negb (Ascii.eqb c ",").

(** [^(\w+)\s+(\w+)\s*,\s*([^,]+)$] on stripped text. *)
Definition op2 (s : string) : option (string * string * string) :=
  match word s with
  | None => None
  | Some (op, r1) =>
      match spaces1 r1 with
      | None => None
      | Some r2 =>
          match word r2 with
          | None => None
          | Some (rd, r3) =>
              match lit "," r3 with
              | None => None
              | Some r4 =>
                  if Py.has_char "," r4 then None
                  else match field r4 with
                       | Some g3 => Some (op, rd, g3)
                       | None => None
                       end
              end
          end
      end
  end.

(** [^(\w+)\s+(\w+)\s*,\s*([^,]+)\s*,\s*(.+)$] on stripped text: the
    last group is the remainder after the second comma and may hold no
    line feed. *)
Definition op3 (s : string) : option (string * string * string * string) :=
  match word s with
  | None => None
  | Some (op, r1) =>
      match spaces1 r1 with
      | None => None
      | Some r2 =>
          match word r2 with
          | None => None
          | Some (rd, r3) =>
              match lit "," r3 with
              | None => None
              | Some r4 =>
                  match Py.drop_while not_comma r4 with
                  | String _ r5 =>
                      match field (Py.take_while not_comma r4) with
                      | None => None
                      | Some g3 =>
                          let g4 := Py.lstrip r5 in
                          if Py.is_empty g4 || Py.has_char "010" g4
                          then None else Some (op, rd, g3, g4)
                      end
                  | EmptyString => None
                  end
              end
          end
      end
  end.

End Rx.

Definition in_list (s : string) (l : list string) : bool :=
  bool_decide (s ∈ l).

Definition starts_any (s : string) (ops : list string) : bool :=
  existsb (Py.startswith s) ops.

(** [_is_immediate_write]. *)
Definition _is_immediate_write (ev : TraceEvent) (reg : string) : bool :=
  if negb (has_key (writes ev) reg) then false
  else
    let s := Py.lower (asm ev) in
    if negb (Py.has_char "#" s) then false
    else starts_any s ["mov "; "mvn "; "orr "; "eor "; "and "; "add ";
                       "sub "; "movw"; "movt"; "movz"; "movn"].

(** [_is_zero_imm], local to [_is_constant_zero_write]. *)
Definition _is_zero_imm (txt : string) : bool :=
  let t := Py.strip (Py.remove_char "#" txt) in
  if Py.startswith t "0x" then bool_decide (PyInt.int 16 t = Some 0)
  else bool_decide (PyInt.int 10 t = Some 0).

(** [_is_constant_zero_write]. *)
Definition _is_constant_zero_write (ev : TraceEvent) (reg : string) : bool :=
  if negb (has_key (writes ev) reg) then false
  else
    let s := Py.strip (Py.lower (asm ev)) in
    let m2 := Rx.op2 s in
    let m3 := Rx.op3 s in
    let mov_zr :=
      match m2 with
      | Some (op, rd, g3) =>
          bool_decide (op = "mov") && bool_decide (rd = reg)
          && in_list (Py.strip g3) ["xzr"; "wzr"]
      | None => false
      end in
    let and_zero :=
      match m3 with
      | Some (op, rd, _, g4) =>
          bool_decide (op = "and") && bool_decide (rd = reg)
          && _is_zero_imm (Py.strip g4)
      | None => false
      end in
    let mul_zero :=
      match m3 with
      | Some (op, rd, _, g4) =>
          in_list op ["mul"; "mla"; "mls"] && bool_decide (rd = reg)
          && (_is_zero_imm (Py.strip g4)
              || in_list (Py.strip g4) ["xzr"; "wzr"])
      | None => false
      end in
    let same_operands :=
      match m3 with
      | Some (op, rd, g3, g4) =>
          bool_decide (rd = reg) &&
          (let rn := Py.rstrip_char "," (Py.strip g3) in
           let rm0 := Py.strip g4 in
           let rm := if Py.endswith rm0 ","
                     then Py.strip (Py.take (String.length rm0 - 1) rm0)
                     else rm0 in
           bool_decide (rm = rn) && in_list op ["eor"; "sub"; "rsb"; "bic"])
      | None => false
      end in
    mov_zr || and_zero || mul_zero || same_operands.

(** [_has_write]. *)
Definition _has_write (ev : TraceEvent) (reg : string) : bool :=
  let r := Py.lower reg in
  has_key (writes ev) r || existsb (has_key (writes ev)) (_alias_names r).

(** [_get_mem_access_width]. *)
Definition _get_mem_access_width (a : string) : Z :=
  let s := Py.strip (Py.lower a) in
  let mnem := hd "" (Py.words s) in
  if Py.endswith mnem "b" then 1
  else if Py.endswith mnem "h" then 2
  else if Py.endswith mnem "d" then 8
  else 4.

(** [range(width)] as offsets. *)
Definition offsets (width : Z) : list Z :=
  Z.of_nat <$> seq 0 (Z.to_nat width).

(** [_mark_memory_tainted]. *)
Definition _mark_memory_tainted (tainted_mem : gset Z) (base_addr width : Z)
  : gset Z :=
  let base := Z.land base_addr mask32 in
  foldl (fun m off => m ∪ {[ Z.land (base + off) mask32 ]})
        tainted_mem (offsets width).

(** [_check_memory_tainted]. *)
Definition _check_memory_tainted (tainted_mem : gset Z) (base_addr width : Z)
  : bool :=
  let base := Z.land base_addr mask32 in
  existsb (fun off => bool_decide (Z.land (base + off) mask32 ∈ tainted_mem))
          (offsets width).

Definition _is_partial_bitfield_clear (ev : TraceEvent) (reg : string) : bool :=
  if negb (has_key (writes ev) reg) then false
  else Py.startswith (Py.strip (Py.lower (asm ev))) "bfc ".

Definition _is_conditional_select_op (a : string) : bool :=
  starts_any (Py.strip (Py.lower a)) ["csel "; "csinc "; "csinv "; "csneg "].

Definition _is_conditional_set_op (a : string) : bool :=
  starts_any (Py.strip (Py.lower a)) ["cset "; "csetm "].

Definition _is_movk_op (a : string) : bool :=
  Py.startswith (Py.strip (Py.lower a)) "movk ".

Definition _is_madd_op (a : string) : bool :=
  starts_any (Py.strip (Py.lower a))
    ["madd "; "msub "; "smaddl "; "umaddl "; "smsubl "; "umsubl "].

Definition _is_adrp_op (a : string) : bool :=
  Py.startswith (Py.strip (Py.lower a)) "adrp ".

(** [_parse_store_value_reg]:
    [^str\w*\s+([rxw][0-9]{1,2})\s*,\s*\[]. *)
Definition _parse_store_value_reg (a : string) : option string :=
  let s := Py.lower (Py.strip a) in
  if negb (Py.startswith s "str") then None
  else
    match Rx.spaces1 (Py.drop_while Py.is_word (Py.drop 3 s)) with
    | None => None
    | Some r1 =>
        match Rx.reg12 "rxw" r1 with
        | None => None
        | Some (rg, r2) =>
            match Rx.lit "," r2 with
            | None => None
            | Some r3 =>
                match Rx.lit "[" r3 with
                | None => None
                | Some _ => Some rg
                end
            end
        end
    end.

(** [_parse_dual_regs]:
    [^(strd|ldrd)\s+([rxw]\d{1,2})\s*,\s*([rxw]\d{1,2})\s*,\s*\[]. *)
Definition _parse_dual_regs (a : string) : option (string * string) :=
  let s := Py.strip (Py.lower a) in
  if negb (Py.startswith s "strd" || Py.startswith s "ldrd") then None
  else
    match Rx.spaces1 (Py.drop 4 s) with
    | None => None
    | Some r1 =>
        match Rx.reg12 "rxw" r1 with
        | None => None
        | Some (g2, r2) =>
            match Rx.lit "," r2 with
            | None => None
            | Some r3 =>
                match Rx.reg12 "rxw" (Py.lstrip r3) with
                | None => None
                | Some (g3, r4) =>
                    match Rx.lit "," r4 with
                    | None => None
                    | Some r5 =>
                        match Rx.lit "[" r5 with
                        | None => None
                        | Some _ => Some (g2, g3)
                        end
                    end
                end
            end
        end
    end.

(** Three [([xw]\d+)] operands separated by [\s*,\s*]. *)
Definition three_xw (s : string) : option (string * string * string * string) :=
  match Rx.regn "xw" s with
  | None => None
  | Some (g1, r1) =>
      match Rx.lit "," r1 with
      | None => None
      | Some r2 =>
          match Rx.regn "xw" (Py.lstrip r2) with
          | None => None
          | Some (g2, r3) =>
              match Rx.lit "," r3 with
              | None => None
              | Some r4 =>
                  match Rx.regn "xw" (Py.lstrip r4) with
                  | None => None
                  | Some (g3, r5) => Some (g1, g2, g3, r5)
                  end
              end
          end
      end
  end.

(** [_parse_csel_operands]:
    [^cs(?:el|inc|inv|neg)\s+([xw]\d+)\s*,\s*([xw]\d+)\s*,\s*([xw]\d+)\s*,]. *)
Definition _parse_csel_operands (a : string)
  : option (string * string * string) :=
  let s := Py.strip (Py.lower a) in
  let after :=
    if Py.startswith s "csel" then Some (Py.drop 4 s)
    else if starts_any s ["csinc"; "csinv"; "csneg"] then Some (Py.drop 5 s)
    else None in
  match after with
  | None => None
  | Some r0 =>
      match Rx.spaces1 r0 with
      | None => None
      | Some r1 =>
          match three_xw r1 with
          | None => None
          | Some (rd, rn, rm, r2) =>
              match Rx.lit "," r2 with
              | None => None
              | Some _ => Some (rd, rn, rm)
              end
          end
      end
  end.

(** The character class [[madd|msub|maddl|msubl]], which contains
    [[smu]]: the two leading classes of the pattern together match any
    non-empty run of these characters. *)
Definition madd_class (c : ascii) : bool := Py.has_char c "madsubl|".

(** [_parse_madd_operands]:
    [^[smu]*[madd|msub|maddl|msubl]+\s+([xw]\d+)\s*,\s*([xw]\d+)\s*,\s*([xw]\d+)\s*,\s*([xw]\d+)]. *)
Definition _parse_madd_operands (a : string)
  : option (string * string * string * string) :=
  let s := Py.strip (Py.lower a) in
  if Py.is_empty (Py.take_while madd_class s) then None
  else
    match Rx.spaces1 (Py.drop_while madd_class s) with
    | None => None
    | Some r1 =>
        match three_xw r1 with
        | None => None
        | Some (rd, rn, rm, r2) =>
            match Rx.lit "," r2 with
            | None => None
            | Some r3 =>
                match Rx.regn "xw" (Py.lstrip r3) with
                | None => None
                | Some (ra, _) => Some (rd, rn, rm, ra)
                end
            end
        end
    end.

(** [re.search(r'\{([^}]+)\}', s)]: the leftmost brace that is followed
    by a non-empty run without a closing brace and then a closing brace. *)
Fixpoint braces (s : string) : option string :=
  match s with
  | EmptyString => None
  | String c s' =>
      let inner := Py.take_while (fun d => negb (Ascii.eqb d "}")) s' in
      if Ascii.eqb c "{" && negb (Py.is_empty inner)
         && negb (Py.is_empty
                    (Py.drop_while (fun d => negb (Ascii.eqb d "}")) s'))
      then Some inner
      else braces s'
  end.

Definition single_regs : list string :=
  ["r0"; "r1"; "r2"; "r3"; "r4"; "r5"; "r6"; "r7"; "r8"; "r9"; "r10"; "r11";
   "r12"; "r13"; "r14"; "r15"; "sp"; "lr"; "pc"; "cpsr"].

(** One comma-separated item of a register list: a range
    [([rxw])(\d+)-([rxw])(\d+)] expands under the prefix of its first
    register, a single name is kept when it is a known register. *)
Definition reg_list_item (part : string) : list string :=
  if Py.has_char "-" part then
    match Rx.regn "rxw" part with
    | Some (String prefix d1, String "-" r1) =>
        match Rx.regn "rxw" r1 with
        | Some (String _ d2, _) =>
            let start := Z.to_nat (int_or 0 10 d1) in
            let stop := Z.to_nat (int_or 0 10 d2) in
            (fun i : nat => String prefix (pretty i))
              <$> seq start (S stop - start)
        | _ => []
        end
    | _ => []
    end
  else if in_list part single_regs then [part]
  else
    match Rx.reg12 "xw" part with
    | Some (_, EmptyString) => [part]
    | _ => []
    end.

(** [_parse_register_list]. *)
Definition _parse_register_list (a : string) : list string :=
  match braces (Py.strip (Py.lower a)) with
  | None => []
  | Some inner =>
      mjoin ((fun p => reg_list_item (Py.strip p))
               <$> Py.split "," (Py.strip inner))
  end.

(** [bisect_left(lst, x)] on an ascending list: how many entries lie
    below [x]. *)
Definition bisect_left (lst : list nat) (x : nat) : nat :=
  length (filter (fun y => (y < x)%nat) lst).

(** ** Memory-effects precomputation: [_precompute_memory_effects] *)

(** The width given to the [mem_width] field: the [ldrb/strb] and
    [ldrh/strh] mnemonics first, then the name of the first operand, read
    off the instruction text as stored. *)
Definition precompute_width (ev : TraceEvent) : Z :=
  let s := Py.lower (asm ev) in
  let mnem := hd "" (Py.words s) in
  if Py.startswith mnem "ldrb" || Py.startswith mnem "strb" then 1
  else if Py.startswith mnem "ldrh" || Py.startswith mnem "strh" then 2
  else
    match Py.split_once (asm ev) with
    | [_; ops_txt] =>
        let first_op := Py.strip (hd "" (Py.split "," ops_txt)) in
        if Py.startswith first_op "x" then 8 else 4
    | _ => 4  (* no operand text: the handler's default *)
    end.

(** [store_addr_index.setdefault(a2, []).append(idx)] for every byte of
    the span. *)
Definition index_span (index : gmap Z (list nat)) (addr span : Z)
  (idx : nat) : gmap Z (list nat) :=
  let base := Z.land addr mask32 in
  foldl (fun ix off =>
           let a2 := Z.land (base + off) mask32 in
           <[a2 := default [] (ix !! a2) ++ [idx]]> ix)
        index (offsets span).

(** The loop over [enumerate(self.events)]. The address of an event is
    resolved from the reads and writes of the trace, which the loop does
    not touch, so [evs0] is the event list as parsed. *)
Fixpoint precompute_loop (evs0 : list TraceEvent) (idx : nat)
  (todo : list TraceEvent) (index : gmap Z (list nat))
  : list TraceEvent * gmap Z (list nat) :=
  match todo with
  | [] => ([], index)
  | ev :: rest =>
      let s := Py.lower (asm ev) in
      if negb (is_ldr_or_str s) then
        let '(r, ix) := precompute_loop evs0 (S idx) rest index in
        (ev :: r, ix)
      else
        let addr := effective_address_at evs0 idx in
        let ev' := set_mem ev addr
                     (if Py.startswith s "ldr" then "ldr" else "str")
                     (precompute_width ev) in
        let index' :=
          match addr with
          | Some a =>
              if Py.startswith s "str"
              then index_span index a
                     (Z.max 1 (if mem_width ev' =? 0 then 1 else mem_width ev'))
                     idx
              else index
          | None => index
          end in
        let '(r, ix) := precompute_loop evs0 (S idx) rest index' in
        (ev' :: r, ix)
  end.

Definition _precompute_memory_effects (evs : list TraceEvent)
  : list TraceEvent * gmap Z (list nat) :=
  let '(evs', index) := precompute_loop evs 0 evs ∅ in
  (evs', merge_sort (≤)%nat <$> index).

(** [parse_file] from the lexed events on: the main loop, then the
    precomputation. [None] when the parse is aborted by an exception (a
    zero checkpoint interval, or an operand-less [ldr] in the return
    test). *)
Definition parse_events (interval : nat) (lexed : list TraceEvent)
  : option TraceParser :=
  match parse_loop interval parse_init lexed with
  | None => None
  | Some ps =>
      let '(evs, index) := _precompute_memory_effects (ps_events ps) in
      Some {| events := evs;
              _reg_checkpoints := ps_checkpoints ps;
              _checkpoint_interval := interval;
              _regs_cache_cap := 1024;
              _effaddr_cache_cap := 8192;
              store_addr_index := index |}
  end.

(** A parser whose [events] were assigned directly, as the test suite
    does: nothing is annotated or precomputed. *)
Definition parser_of_events (evs : list TraceEvent) : TraceParser :=
  {| events := evs; _reg_checkpoints := ∅; _checkpoint_interval := 2000;
     _regs_cache_cap := 1024; _effaddr_cache_cap := 8192;
     store_addr_index := ∅ |}.

(** ** Constant-pool loads *)

(** [_is_load_from_const_memory]. *)
Definition _is_load_from_const_memory (P : TraceParser) (event_index : nat)
  (reg : string) : bool :=
  match events P !! event_index with
  | None => false
  | Some ev =>
      let s := Py.lower (asm ev) in
      if negb (Py.startswith s "ldr") || negb (_has_write ev reg) then false
      else
        match effective_address_at (events P) event_index with
        | None => false
        | Some addr =>
            match store_addr_index P !! addr with
            | None | Some [] => true
            | Some lst => (bisect_left lst event_index =? 0)%nat
            end
        end
  end.

(** [_is_constant_pool_load]. *)
Definition _is_constant_pool_load (P : TraceParser) (event_index : nat)
  (reg : string) : bool :=
  match events P !! event_index with
  | None => false
  | Some ev =>
      let s := Py.lower (asm ev) in
      if negb (Py.startswith s "ldr") || negb (_has_write ev reg) then false
      else if Py.contains s "pc" || Py.contains s "[pc" then true
      else _is_load_from_const_memory P event_index reg
  end.

(** ** Forward taint engine: [taint_forward] *)

Definition in_set (T : gset string) (r : string) : bool := bool_decide (r ∈ T).

(** [r in tainted_regs or any(a in tainted_regs for a in _alias_names(r))]. *)
Definition reg_tainted (T : gset string) (r : string) : bool :=
  in_set T r || existsb (in_set T) (_alias_names r).

(** [any(a in tainted_regs for a in self._alias_names(rd))]. *)
Definition alias_tainted (T : gset string) (rd : string) : bool :=
  existsb (in_set T) (_alias_names rd).

(** [for a in _alias_names(rd): if a not in T: T.add(a)]. *)
Definition add_aliases (T : gset string) (rd : string) : gset string :=
  foldl (fun T a => if in_set T a then T else T ∪ {[a]}) T (_alias_names rd).

(** [for a in _alias_names(rd): if a in T: T.discard(a)]. *)
Definition discard_aliases (T : gset string) (rd : string) : gset string :=
  foldl (fun T a => if in_set T a then T ∖ {[a]} else T) T (_alias_names rd).

(** A flag set in the body of a [for] loop is set when the loop runs at
    least once. *)
Definition ran {A} (l : list A) : bool :=
  match l with [] => false | _ => true end.

(** The load test shared by the read check and the write loop: the event
    is an [ldr], its address resolves, and some byte of the access is
    tainted. *)
Definition load_hit (P : TraceParser) (i : nat) (a : string) (M : gset Z)
  : bool :=
  Py.startswith a "ldr" &&
  match effective_address_at (events P) i with
  | Some eff => _check_memory_tainted M eff (_get_mem_access_width a)
  | None => false
  end.

(** One turn of the loop over the written registers. *)
Definition fwd_write (P : TraceParser) (i : nat) (ev : TraceEvent)
  (a : string) (M : gset Z) (st : gset string * bool) (rd : string)
  : gset string * bool :=
  let '(T, used) := st in
  if _is_constant_zero_write ev rd then
    (discard_aliases T rd, used || ran (_alias_names rd))
  else
    let propagated :=
      existsb (reg_tainted T) (keys (reads ev)) || load_hit P i a M in
    if propagated then (add_aliases T rd, true)
    else if _is_immediate_write ev rd then
      (discard_aliases T rd, used || ran (_alias_names rd))
    else if _is_constant_pool_load P i rd then
      (discard_aliases T rd, used || ran (_alias_names rd))
    else if _is_partial_bitfield_clear ev rd then
      (T, used || alias_tainted T rd)
    else if _is_conditional_set_op a then
      (discard_aliases T rd, used || ran (_alias_names rd))
    else if _is_adrp_op a then
      (discard_aliases T rd, used || ran (_alias_names rd))
    else if _is_movk_op a then
      (T, used || alias_tainted T rd)
    else (T, used).

(** The store block: a tainted source register taints the bytes of the
    access. *)
Definition fwd_store (P : TraceParser) (i : nat) (a : string)
  (T : gset string) (M : gset Z) (used : bool) : gset Z * bool :=
  if Py.startswith a "str" then
    match effective_address_at (events P) i with
    | Some eff2 =>
        match _parse_store_value_reg a with
        | Some src_reg =>
            if negb (Py.is_empty src_reg) && reg_tainted T src_reg
            then (_mark_memory_tainted M eff2 (_get_mem_access_width a), true)
            else (M, used)
        | None => (M, used)
        end
    | None => (M, used)
    end
  else (M, used).

(** The [push/pop/stm/ldm/strd/ldrd] chain. *)
Definition fwd_multi (P : TraceParser) (i : nat) (a : string)
  (T : gset string) (M : gset Z) (used : bool)
  : gset string * gset Z * bool :=
  if Py.startswith a "push " then
    (T, M, used || existsb (reg_tainted T) (_parse_register_list a))
  else if Py.startswith a "pop " then
    if bool_decide (M ≠ ∅) then
      (foldl add_aliases T (_parse_register_list a), M,
       used || ran (_parse_register_list a))
    else (T, M, used)
  else if Py.startswith a "stm" then
    (T, M, used || existsb (reg_tainted T) (_parse_register_list a))
  else if Py.startswith a "ldm" then
    if bool_decide (M ≠ ∅) then
      (foldl add_aliases T (_parse_register_list a), M,
       used || ran (_parse_register_list a))
    else (T, M, used)
  else if Py.startswith a "strd " then
    match _parse_dual_regs a with
    | Some (reg1, reg2) =>
        if reg_tainted T reg1 || reg_tainted T reg2 then
          match effective_address_at (events P) i with
          | Some eff3 => (T, _mark_memory_tainted M eff3 8, true)
          | None => (T, M, true)
          end
        else (T, M, used)
    | None => (T, M, used)
    end
  else if Py.startswith a "ldrd " then
    match _parse_dual_regs a with
    | Some (reg1, reg2) =>
        match effective_address_at (events P) i with
        | Some eff4 =>
            if _check_memory_tainted M eff4 8
            then (add_aliases (add_aliases T reg1) reg2, M, true)
            else (T, M, used)
        | None => (T, M, used)
        end
    | None => (T, M, used)
    end
  else (T, M, used).

(** The ARM64 block: conditional select, else multiply-add. *)
Definition fwd_arm64 (a : string) (T : gset string) (used : bool)
  : gset string * bool :=
  if _is_conditional_select_op a then
    match _parse_csel_operands a with
    | Some (rd, rn, rm) =>
        if reg_tainted T rn || reg_tainted T rm
        then (add_aliases T rd, true) else (T, used)
    | None => (T, used)
    end
  else if _is_madd_op a then
    match _parse_madd_operands a with
    | Some (rd, rn, rm, ra) =>
        if reg_tainted T rn || reg_tainted T rm || reg_tainted T ra
        then (add_aliases T rd, true) else (T, used)
    | None => (T, used)
    end
  else (T, used).

(** The body of the main loop for event [i], once the call filter and the
    step budget let it through. *)
Definition fwd_event (P : TraceParser) (i : nat) (ev : TraceEvent)
  (T : gset string) (M : gset Z) : gset string * gset Z * bool :=
  let a := Py.lower (asm ev) in
  let used0 := existsb (reg_tainted T) (keys (reads ev)) in
  let used1 := used0 || load_hit P i a M in
  let '(T1, used2) := foldl (fwd_write P i ev a M) (T, used1)
                            (keys (writes ev)) in
  let '(M1, used3) := fwd_store P i a T1 M used2 in
  let '(T2, M2, used4) := fwd_multi P i a T1 M1 used3 in
  let '(T3, used5) := fwd_arm64 a T2 used4 in
  (T3, M2, used5).

Record TaintState := mkTaintState {
  tainted_regs : gset string;
  tainted_mem : gset Z;
  hits : list nat;
  steps : Z
}.

Fixpoint fwd_loop (P : TraceParser) (same_call_only : bool) (max_steps : Z)
  (base_call : nat) (idxs : list nat) (st : TaintState) : TaintState :=
  match idxs with
  | [] => st
  | i :: rest =>
      if max_steps <=? steps st then st
      else
        match events P !! i with
        | None => st
        | Some ev =>
            if same_call_only && negb (call_id ev =? base_call)%nat
            then fwd_loop P same_call_only max_steps base_call rest st
            else
              let '(T, M, used) :=
                fwd_event P i ev (tainted_regs st) (tainted_mem st) in
              fwd_loop P same_call_only max_steps base_call rest
                {| tainted_regs := T; tainted_mem := M;
                   hits := if used then hits st ++ [i] else hits st;
                   steps := steps st + 1 |}
        end
  end.

(** The closing pass that drops repeated indices and keeps the order. *)
Fixpoint dedup_go (seen : gset nat) (l : list nat) : list nat :=
  match l with
  | [] => []
  | k :: l' =>
      if bool_decide (k ∈ seen) then dedup_go seen l'
      else k :: dedup_go (seen ∪ {[k]}) l'
  end.
Definition dedup (l : list nat) : list nat := dedup_go ∅ l.

(** [max(0, min(start_idx, n - 1))]. *)
Definition clamp_index (start_idx : Z) (n : nat) : nat :=
  Z.to_nat (Z.max 0 (Z.min start_idx (Z.of_nat n - 1))).

Definition fwd_init (source_regs : list string) (source_mem_addrs : list Z)
  : TaintState :=
  {| tainted_regs :=
       foldl (fun T r => foldl (fun T a => T ∪ {[a]}) T
                               (_alias_names (Py.lower r)))
             ∅ source_regs;
     tainted_mem := list_to_set ((fun a => Z.land a mask32)
                                   <$> source_mem_addrs);
     hits := [];
     steps := 0 |}.

(** The final state of the engine's main loop. *)
Definition fwd_run (P : TraceParser) (start_idx : Z)
  (source_regs : list string) (source_mem_addrs : list Z)
  (same_call_only : bool) (max_steps : Z) : TaintState :=
  let n := length (events P) in
  let i0 := clamp_index start_idx n in
  let base_call := from_option call_id 0%nat (events P !! i0) in
  fwd_loop P same_call_only max_steps base_call (seq i0 (n - i0))
           (fwd_init source_regs source_mem_addrs).

(** [taint_forward]. The flags [enable_memory_taint] and
    [enable_implicit_flow] are accepted and never consulted. *)
Definition taint_forward (P : TraceParser) (start_idx : Z)
  (source_regs : list string) (source_mem_addrs : list Z)
  (same_call_only : bool) (max_steps : Z)
  (enable_memory_taint enable_implicit_flow : bool) : list nat :=
  if bool_decide (events P = []) then []
  else dedup (hits (fwd_run P start_idx source_regs source_mem_addrs
                            same_call_only max_steps)).

(** ** Backward taint engine: [_check_backward_termination] and
    [taint_backward] *)

(** The termination labels: immediate, immediate (zeroing), constant
    pool, parameter, system call, stack variable. *)
Inductive TermTag :=
| TagImmediate
| TagImmediateZero
| TagConstPool
| TagParameter
| TagSyscall
| TagStackVar.

Definition param_regs_32 : list string := ["r0"; "r1"; "r2"; "r3"].
Definition param_regs_64 : list string :=
  ((fun i : nat => String "x" (pretty i)) <$> seq 0 8)
  ++ ((fun i : nat => String "w" (pretty i)) <$> seq 0 8).

(** [range(idx - 1, max(0, idx - 50), -1)]. *)
Definition lookback (idx : nat) : list nat :=
  let lo := Nat.max 0 (idx - 50) in
  rev (seq (S lo) (idx - 1 - lo)).

Definition _check_backward_termination (P : TraceParser) (idx : nat)
  (reg : string) : option TermTag :=
  match events P !! idx with
  | None => None
  | Some ev =>
      let a := Py.lower (asm ev) in
      if has_key (writes ev) reg && _is_immediate_write ev reg then
        let parts := Py.split "," a in
        if Py.contains a "eor" && (3 <=? length parts)%nat
           && bool_decide (Py.strip (nth 1 parts "") = Py.strip (nth 2 parts ""))
           && bool_decide (Py.strip (nth 2 parts "") = reg)
        then Some TagImmediateZero
        else Some TagImmediate
      else if has_key (writes ev) reg && _is_constant_pool_load P idx reg then
        Some TagConstPool
      else if has_key (writes ev) reg && _is_constant_zero_write ev reg then
        Some TagImmediateZero
      else if (in_list reg param_regs_32 || in_list reg param_regs_64)
              && (50 <? idx)%nat
              && negb (existsb
                         (fun j =>
                            match events P !! j with
                            | Some evj =>
                                has_key (writes evj) reg
                                && existsb (has_key (writes evj))
                                           (_alias_names reg)
                            | None => false
                            end) (lookback idx))
      then Some TagParameter
      else if in_list reg ["r0"; "x0"; "w0"] && (0 <? idx)%nat
              && match events P !! (idx - 1)%nat with
                 | Some prev => Py.contains (Py.lower (asm prev)) "svc"
                 | None => false
                 end
      then Some TagSyscall
      else if Py.startswith a "ldr" && has_key (writes ev) reg
              && Py.contains a "[sp"
      then Some TagStackVar
      else None
  end.

Record BackState := mkBackState {
  b_tainted_regs : gset string;
  b_tainted_mem : gset Z;
  b_terminated_regs : gset string;
  b_hits : list nat;
  b_steps : Z
}.

(** [a in tainted_regs and a not in terminated_regs] for some alias. *)
Definition live_alias (T Term : gset string) (r : string) : bool :=
  existsb (fun a => in_set T a && negb (in_set Term a)) (_alias_names r).

(** One turn of the loop over the written registers. *)
Definition back_write (P : TraceParser) (enable_memory_taint : bool)
  (i : nat) (ev : TraceEvent) (a : string)
  (st : gset string * gset Z * gset string * bool) (rd : string)
  : gset string * gset Z * gset string * bool :=
  let '(T, M, Term, used) := st in
  if live_alias T Term rd then
    match _check_backward_termination P i rd with
    | Some _ =>
        (T, M, foldl (fun X a => X ∪ {[a]}) Term (_alias_names rd), true)
    | None =>
        let T' := foldl add_aliases T (keys (reads ev)) in
        let M' :=
          if Py.startswith a "ldr" && enable_memory_taint then
            match effective_address_at (events P) i with
            | Some eff => _mark_memory_tainted M eff (_get_mem_access_width a)
            | None => M
            end
          else M in
        (T', M', Term, true)
    end
  else (T, M, Term, used).

Definition back_event (P : TraceParser) (enable_memory_taint : bool)
  (i : nat) (ev : TraceEvent) (T : gset string) (M : gset Z)
  (Term : gset string) : gset string * gset Z * gset string * bool :=
  let a := Py.lower (asm ev) in
  let '(T1, M1, Term1, used1) :=
    foldl (back_write P enable_memory_taint i ev a) (T, M, Term, false)
          (keys (writes ev)) in
  let used2 := used1 || existsb (live_alias T1 Term1) (keys (reads ev)) in
  if enable_memory_taint && Py.startswith a "str" then
    match effective_address_at (events P) i with
    | Some eff =>
        if _check_memory_tainted M1 eff (_get_mem_access_width a) then
          let T2 := match _parse_store_value_reg a with
                    | Some src_reg =>
                        if Py.is_empty src_reg then T1
                        else add_aliases T1 src_reg
                    | None => T1
                    end in
          (foldl add_aliases T2 (keys (reads ev)), M1, Term1, true)
        else (T1, M1, Term1, used2)
    | None => (T1, M1, Term1, used2)
    end
  else (T1, M1, Term1, used2).

Fixpoint back_loop (P : TraceParser) (same_call_only : bool) (max_steps : Z)
  (enable_memory_taint : bool) (base_call : nat) (idxs : list nat)
  (st : BackState) : BackState :=
  match idxs with
  | [] => st
  | i :: rest =>
      if max_steps <=? b_steps st then st
      else
        match events P !! i with
        | None => st
        | Some ev =>
            if same_call_only && negb (call_id ev =? base_call)%nat
            then back_loop P same_call_only max_steps enable_memory_taint
                   base_call rest st
            else
              let '(T, M, Term, used) :=
                back_event P enable_memory_taint i ev (b_tainted_regs st)
                           (b_tainted_mem st) (b_terminated_regs st) in
              back_loop P same_call_only max_steps enable_memory_taint
                base_call rest
                {| b_tainted_regs := T; b_tainted_mem := M;
                   b_terminated_regs := Term;
                   b_hits := if used then b_hits st ++ [i] else b_hits st;
                   b_steps := b_steps st + 1 |}
        end
  end.

Definition back_init (target_reg : string) : BackState :=
  {| b_tainted_regs := foldl (fun T a => T ∪ {[a]}) ∅
                             (_alias_names (Py.lower target_reg));
     b_tainted_mem := ∅; b_terminated_regs := ∅; b_hits := [];
     b_steps := 0 |}.

(** [range(start_idx, -1, -1)]. *)
Definition down_from (start_idx : nat) : list nat := rev (seq 0 (S start_idx)).

Definition back_run (P : TraceParser) (start_idx : Z) (target_reg : string)
  (same_call_only : bool) (max_steps : Z) (enable_memory_taint : bool)
  : BackState :=
  let n := length (events P) in
  let s := clamp_index start_idx n in
  let base_call := from_option call_id 0%nat (events P !! s) in
  back_loop P same_call_only max_steps enable_memory_taint base_call
            (down_from s) (back_init target_reg).

(** [taint_backward]; [target_value] is accepted and never consulted. *)
Definition taint_backward (P : TraceParser) (start_idx : Z)
  (target_reg : string) (target_value : option Z) (same_call_only : bool)
  (max_steps : Z) (enable_memory_taint : bool) : list nat :=
  if bool_decide (events P = []) then []
  else rev (b_hits (back_run P start_idx target_reg same_call_only
                             max_steps enable_memory_taint)).

(** * Specification-side definitions *)

(** Events that differ at most in the fields the annotator and the
    precomputation fill in. *)
Definition same_insn (e e' : TraceEvent) : Prop :=
  asm e = asm e' ∧ reads e = reads e' ∧ writes e = writes e'
  ∧ line_no e = line_no e'.

Definition same_call (e e' : TraceEvent) : Prop :=
  call_id e = call_id e' ∧ call_depth e = call_depth e'.

(** What the precomputation makes of the event at index [idx]. *)
Definition precomputed (evs0 : list TraceEvent) (idx : nat) (ev : TraceEvent)
  : TraceEvent :=
  let s := Py.lower (asm ev) in
  if is_ldr_or_str s then
    set_mem ev (effective_address_at evs0 idx)
      (if Py.startswith s "ldr" then "ldr" else "str") (precompute_width ev)
  else ev.


(** A set of register names that holds both halves of every [xN]/[wN]
    pair or neither. *)
Definition alias_closed (T : gset string) : Prop :=
  ∀ d, Py.isdigit d = true → String "x" d ∈ T ↔ String "w" d ∈ T.


(** Calls and returns as the annotator tells them apart: the call test
    comes first, and only an event that is not a call can be a return. *)
Definition is_call (ev : TraceEvent) : bool := _is_call_event ev.
Definition is_return (ev : TraceEvent) : bool :=
  negb (_is_call_event ev) && bool_decide (_is_return_event ev = Some true).

(** The number of calls in [evs] that no later return in [evs] has
    closed, counted on top of [depth] calls already open; a return with
    nothing open closes nothing. *)
Fixpoint unmatched_from (depth : nat) (evs : list TraceEvent) : nat :=
  match evs with
  | [] => depth
  | ev :: rest =>
      if is_call ev then unmatched_from (S depth) rest
      else if is_return ev then unmatched_from (pred depth) rest
      else unmatched_from depth rest
  end.
Definition unmatched_calls (evs : list TraceEvent) : nat :=
  unmatched_from 0 evs.

Definition calls_in (evs : list TraceEvent) : nat :=
  length (filter (fun ev => is_call ev = true) evs).


(** The annotator's state once it has gone through [evs]. *)
Fixpoint call_state_after (cs : CallState) (evs : list TraceEvent)
  : option CallState :=
  match evs with
  | [] => Some cs
  | ev :: rest =>
      match _annotate_call cs ev with
      | None => None
      | Some (_, cs') => call_state_after cs' rest
      end
  end.

(** A call followed by the first instruction of the callee. *)
Definition call_trace : list TraceEvent :=
  [ new_event 1 "bl #0x4000" [] [("lr", 0x1004)];
    new_event 2 "push {r4, lr}" [("r4", 0); ("lr", 0x1004)] [] ].

(** Scenario S1 of the specification: a load from the tainted address,
    a constant move, a store, a load back, an addition. *)
Definition S1_trace : list TraceEvent :=
  [ new_event 1 "ldr r0, [r5]" [("r5", 0x8000)] [("r0", 0x1234)];
    new_event 2 "mov r1, #0x100" [] [("r1", 0x100)];
    new_event 3 "str r0, [r2]" [("r0", 0x1234); ("r2", 0x9000)] [];
    new_event 4 "ldr r3, [r2]" [("r2", 0x9000)] [("r3", 0x1234)];
    new_event 5 "add r4, r3, #1" [("r3", 0x1234)] [("r4", 0x1235)] ].

(** Event [i] is listed under address [a] of a store-address index. *)
Definition listed (ix : gmap Z (list nat)) (a : Z) (i : nat) : Prop :=
  ∃ l, ix !! a = Some l ∧ i ∈ l.

(** Line numbers grow strictly along the trace, as [enumerate] hands them
    out in [parse_file]. *)
Definition lines_increasing (evs : list TraceEvent) : Prop :=
  StronglySorted (fun e e' => (line_no e < line_no e')%nat) evs.

(** The register file before event [s]: the replay of the first [s]
    events from the empty map. *)
Definition regs_before (evs : list TraceEvent) (s : nat) : regs :=
  foldl _apply_writes ∅ (take s evs).

(** What the reconstructor and the resolver rely on in a parser: ordered
    line numbers, checkpoints that hold the registers after the event of
    their line, and precomputed addresses that are the resolver's own. *)
Record parser_ok (P : TraceParser) : Prop := mkParserOk {
  pok_lines : lines_increasing (events P);
  pok_checkpoints :
    ∀ ln m, _reg_checkpoints P !! ln = Some m →
      ∃ k ev, events P !! k = Some ev ∧ line_no ev = ln
              ∧ m = regs_after (events P) k;
  pok_effaddr :
    ∀ i ev a, events P !! i = Some ev →
      is_ldr_or_str (Py.lower (asm ev)) = true → effaddr ev = Some a →
      effective_address_at (events P) i = Some a
}.

(** Every cache entry holds what a fresh computation would return. *)
Record caches_ok (P : TraceParser) (c : Caches) : Prop := mkCachesOk {
  cok_regs :
    ∀ k m, (k, m) ∈ _regs_cache c →
      (k < length (events P))%nat ∧ m = regs_after (events P) k;
  cok_effaddr :
    ∀ k v, (k, Some v) ∈ _effaddr_cache c →
      effective_address_at (events P) k = Some v
}.

(** The cache states a parser can be in: the empty caches, and whatever
    a query of either kind leaves behind. *)
Inductive reachable (P : TraceParser) : Caches → Prop :=
| reach_init : reachable P caches_init
| reach_regs c i :
    reachable P c → reachable P (reconstruct_regs_at P c i).2
| reach_effaddr c i :
    reachable P c → reachable P (effective_address P c i).2.

(** The register cache of a parser over [evs] holds true states only. *)
Definition regs_cache_ok (evs : list TraceEvent) (cache : list (nat * regs))
  : Prop :=
  ∀ k m, (k, m) ∈ cache →
    (k < length evs)%nat ∧ m = regs_after evs k.

(** The names under which the resolver consults the register map for an
    address expression: base, index, and the whole expression in the
    single-register fallback. *)
Definition addr_operands (ae : AddrExpr) : list string :=
  [ae_base ae; ae_index ae; ae_expr ae].

(** A load through a base register that the load itself overwrites. *)
Definition own_base_trace : list TraceEvent :=
  [ new_event 1 "mov r1, #0x1000" [] [("r1", 0x1000)];
    new_event 2 "ldr r1, [r1, #4]" [("r1", 0x1000)] [("r1", 0x2000)] ].

(** The backward engine's initial taint for a target register: the
    target and its alias. *)
Definition back_target (reg : string) : gset string :=
  b_tainted_regs (back_init reg).

(** [r] is the target of a backward run or an alias of it. *)
Definition names_target (reg r : string) : bool :=
  live_alias (back_target reg) ∅ r.

Definition event_reads_target (P : TraceParser) (reg : string) (j : nat)
  : bool :=
  match events P !! j with
  | Some ev => existsb (names_target reg) (keys (reads ev))
  | None => false
  end.

Definition event_writes_target (P : TraceParser) (reg : string) (j : nat)
  : bool :=
  match events P !! j with
  | Some ev => existsb (names_target reg) (keys (writes ev))
  | None => false
  end.

(** A trace that reads [r0] at its first and at its fourth event and
    never writes it. *)
Definition param_trace : list TraceEvent :=
  [ new_event 1 "add r1, r0, #1" [("r0", 5)] [("r1", 6)];
    new_event 2 "mov r2, #1" [] [("r2", 1)];
    new_event 3 "mov r3, #2" [] [("r3", 2)];
    new_event 4 "cmp r0, #0" [("r0", 5)] [] ].

(** A double-word store on ARM32 registers. *)
Definition strd_trace : list TraceEvent :=
  [ new_event 1 "strd r0, r1, [r2]"
      [("r0", 1); ("r1", 2); ("r2", 0x9000)] [] ].

(** The state of the forward engine once it has gone through the first
    [k] indices of its loop (all of them when [k] reaches their number). *)
Definition fwd_state_after (P : TraceParser) (start_idx : Z)
  (source_regs : list string) (source_mem_addrs : list Z)
  (same_call_only : bool) (max_steps : Z) (k : nat) : TaintState :=
  let n := length (events P) in
  let i0 := clamp_index start_idx n in
  let base_call := from_option call_id 0%nat (events P !! i0) in
  fwd_loop P same_call_only max_steps base_call (take k (seq i0 (n - i0)))
           (fwd_init source_regs source_mem_addrs).







(** * Definitions for the further properties *)

(** Some store event before index [i], with a resolved address, covers
    the byte at address [A]. *)
Definition store_before (P : TraceParser) (i : nat) (A : Z) : Prop :=
  ∃ j ev' A' k, (j < i)%nat ∧ events P !! j = Some ev'
    ∧ Py.startswith (Py.lower (asm ev')) "str" = true
    ∧ effaddr ev' = Some A' ∧ 0 ≤ k < mem_width ev'
    ∧ (A' + k) `mod` 2 ^ 32 = A.

(** A write of [rd] by event [i] that the forward engine treats as
    removing taint: a constant-zero write, an immediate write, a
    constant-pool load, or any write of a [cset]/[csetm] or [adrp]
    instruction. *)
Definition sanitizing_write (P : TraceParser) (i : nat) (ev : TraceEvent)
  (rd : string) : bool :=
  _is_constant_zero_write ev rd || _is_immediate_write ev rd
  || _is_constant_pool_load P i rd
  || _is_conditional_set_op (Py.lower (asm ev))
  || _is_adrp_op (Py.lower (asm ev)).

Definition sanitizing_event (P : TraceParser) (i : nat) : bool :=
  match events P !! i with
  | Some ev => existsb (sanitizing_write P i ev) (keys (writes ev))
  | None => false
  end.

(** A call stack (top first) agrees with the record [F] of what was
    below each call id when it was pushed. *)
Fixpoint coherent (F : gmap nat (list nat)) (stack : list nat) : Prop :=
  match stack with
  | [] => True
  | c :: rest => F !! c = Some rest ∧ coherent F rest
  end.

(** An [ldr] mnemonic followed by blanks only: the text on which the
    return test indexes past the end of its word list. *)
Definition bare_ldr (a : string) : bool :=
  Py.startswith a "ldr " && Py.is_empty (Py.lstrip (Py.drop 4 a)).

(** ** Inverted indexes: [_index_event] and the navigation queries

    [addr_index], [reg_read_index] and [reg_write_index] are filled by
    [_index_event], which [parse_file] calls once per event, in order;
    the index of the event is its position in [events]. *)
Record Indexes := mkIndexes {
  addr_index : gmap Z (list nat);
  reg_read_index : gmap string (list nat);
  reg_write_index : gmap string (list nat)
}.

Definition indexes_init : Indexes :=
  {| addr_index := ∅; reg_read_index := ∅; reg_write_index := ∅ |}.

(** [ix.setdefault(k, []).append(idx)]. *)
Definition index_append `{Countable K} (ix : gmap K (list nat)) (k : K)
  (idx : nat) : gmap K (list nat) :=
  <[k := default [] (ix !! k) ++ [idx]]> ix.

(** The loop over the registers of a dict and over their aliases. *)
Definition index_regs (ix : gmap string (list nat)) (d : dict) (idx : nat)
  : gmap string (list nat) :=
  foldl (fun ix r =>
           foldl (fun ix a => index_append ix a idx) ix (_alias_names r))
        ix (keys d).

(** [_index_event] for the event appended at position [idx]. *)
Definition _index_event (ixs : Indexes) (idx : nat) (ev : TraceEvent)
  : Indexes :=
  {| addr_index := index_append (addr_index ixs) (pc ev) idx;
     reg_read_index := index_regs (reg_read_index ixs) (reads ev) idx;
     reg_write_index := index_regs (reg_write_index ixs) (writes ev) idx |}.

Fixpoint index_events (ixs : Indexes) (idx : nat) (evs : list TraceEvent)
  : Indexes :=
  match evs with
  | [] => ixs
  | ev :: rest => index_events (_index_event ixs idx ev) (S idx) rest
  end.

(** The indexes of a trace once all of its events are in. *)
Definition build_indexes (evs : list TraceEvent) : Indexes :=
  index_events indexes_init 0 evs.

(** [bisect_left(lst, x)] and [bisect_right(lst, x)] on an ascending list
    of indices, for an integer [x] of either sign: how many entries lie
    below [x], and how many do not exceed it. *)
Definition bisect_left_z (lst : list nat) (x : Z) : nat :=
  length (filter (fun y => Z.of_nat y < x) lst).
Definition bisect_right_z (lst : list nat) (x : Z) : nat :=
  length (filter (fun y => Z.of_nat y ≤ x) lst).

(** [find_first_event_by_pc]. *)
Definition find_first_event_by_pc (ixs : Indexes) (pc : Z) : option nat :=
  match addr_index ixs !! pc with
  | Some (i :: _) => Some i
  | _ => None
  end.

(** [find_prev_write]. *)
Definition find_prev_write (ixs : Indexes) (reg : string)
  (from_index_exclusive : Z) : option nat :=
  match reg_write_index ixs !! reg with
  | None | Some [] => None
  | Some lst =>
      let pos := Z.of_nat (bisect_left_z lst from_index_exclusive) - 1 in
      if 0 <=? pos then lst !! Z.to_nat pos else None
  end.

(** [find_next_write]. *)
Definition find_next_write (ixs : Indexes) (reg : string)
  (from_index_inclusive : Z) : option nat :=
  match reg_write_index ixs !! reg with
  | None | Some [] => None
  | Some lst => lst !! bisect_left_z lst from_index_inclusive
  end.

(** [read_indices_in_range]: the slice [lst[i:j]]. *)
Definition read_indices_in_range (ixs : Indexes) (reg : string)
  (lo_exclusive hi_exclusive : Z) : list nat :=
  let lst := default [] (reg_read_index ixs !! reg) in
  let i := bisect_right_z lst lo_exclusive in
  let j := bisect_left_z lst hi_exclusive in
  take (j - i) (drop i lst).

(** Event [j] writes (reads) a register one of whose alias names is
    [reg]. *)
Definition writes_alias (evs : list TraceEvent) (reg : string) (j : nat)
  : Prop :=
  ∃ ev r, evs !! j = Some ev ∧ r ∈ keys (writes ev) ∧ reg ∈ _alias_names r.
Definition reads_alias (evs : list TraceEvent) (reg : string) (j : nat)
  : Prop :=
  ∃ ev r, evs !! j = Some ev ∧ r ∈ keys (reads ev) ∧ reg ∈ _alias_names r.

(** The entries of an index under a key; none when the key is absent. *)
Definition entries `{Countable K} (ix : gmap K (list nat)) (k : K)
  : list nat := default [] (ix !! k).

(** One of the three indexes on its own: the events are fed to [step]
    in order, each with its position. *)
Fixpoint index_run `{Countable K}
  (step : gmap K (list nat) → nat → TraceEvent → gmap K (list nat))
  (ix : gmap K (list nat)) (idx : nat) (evs : list TraceEvent)
  : gmap K (list nat) :=
  match evs with
  | [] => ix
  | ev :: rest => index_run step (step ix idx ev) (S idx) rest
  end.

(** ** [_find_prev_store_to_address]

    Both paths return [None] for "no such store"; the outer [option] is
    the [IndexError] of [self.events[j]] on an index past the end. *)

(** The walk down the list of the store-address index, from the entry
    before [from_index_exclusive]. *)
Fixpoint scan_index (evs : list TraceEvent) (same_call_id : option nat)
  (cands : list nat) : option (option nat) :=
  match cands with
  | [] => Some None
  | j :: rest =>
      match same_call_id with
      | None => Some (Some j)
      | Some cid =>
          match evs !! j with
          | None => None
          | Some ev =>
              if (call_id ev =? cid)%nat then Some (Some j)
              else scan_index evs same_call_id rest
          end
      end
  end.

(** The sequential scan used when the index has nothing under the
    address. *)
Fixpoint scan_back (P : TraceParser) (addr : Z) (max_steps : Z)
  (same_call_id : option nat) (js : list nat) (steps : Z) (c : Caches)
  : option (option nat * Caches) :=
  match js with
  | [] => Some (None, c)
  | j :: rest =>
      if max_steps <=? steps then Some (None, c)
      else
        match events P !! j with
        | None => None
        | Some evj =>
            let sj := Py.lower (asm evj) in
            if negb (Py.startswith sj "str") then
              scan_back P addr max_steps same_call_id rest steps c
            else if match same_call_id with
                    | Some cid => negb (call_id evj =? cid)%nat
                    | None => false
                    end then
              scan_back P addr max_steps same_call_id rest steps c
            else
              let '(a, c') :=
                match effaddr evj with
                | Some a => (Some a, c)
                | None => effective_address P c (Z.of_nat j)
                end in
              if bool_decide (a = Some addr) then Some (Some j, c')
              else scan_back P addr max_steps same_call_id rest
                             (steps + 1) c'
        end
  end.

Definition _find_prev_store_to_address (P : TraceParser) (c : Caches)
  (addr from_index_exclusive max_steps : Z) (same_call_id : option nat)
  : option (option nat * Caches) :=
  match store_addr_index P !! addr with
  | Some (y :: l) =>
      let lst := y :: l in
      (fun r => (r, c))
        <$> scan_index (events P) same_call_id
              (rev (take (bisect_left_z lst from_index_exclusive) lst))
  | _ =>
      scan_back P addr max_steps same_call_id
                (rev (seq 0 (Z.to_nat from_index_exclusive))) 0 c
  end.

(** Event [j] is a store with a resolved address whose bytes include
    the one at [addr]. *)
Definition store_covers (P : TraceParser) (j : nat) (addr : Z) : Prop :=
  ∃ ev A k, events P !! j = Some ev
    ∧ Py.startswith (Py.lower (asm ev)) "str" = true
    ∧ effaddr ev = Some A ∧ 0 ≤ k < mem_width ev
    ∧ addr = (A + k) `mod` 2 ^ 32.

(** Event [j] passes the call filter. *)
Definition in_call (P : TraceParser) (same_call_id : option nat) (j : nat)
  : Prop :=
  match same_call_id with
  | None => True
  | Some cid => ∃ ev, events P !! j = Some ev ∧ call_id ev = cid
  end.

(** ** [find_events_near] *)

(** [l[start:stop]] with Python's treatment of negative and oversized
    bounds. *)
Definition py_slice {A} (l : list A) (start stop : Z) : list A :=
  let n := Z.of_nat (length l) in
  let norm := fun i => if i <? 0 then Z.max 0 (n + i) else Z.min i n in
  take (Z.to_nat (norm stop - norm start)) (drop (Z.to_nat (norm start)) l).

Definition find_events_near (P : TraceParser) (event_index window : Z)
  : Z * list TraceEvent :=
  let n := Z.of_nat (length (events P)) in
  let ei := Z.max 0 (Z.min event_index (n - 1)) in
  let start := Z.max 0 (ei - window) in
  let end_ := Z.min n (ei + window) in
  (start, py_slice (events P) start end_).

(** A string with nothing to strip on its left. *)
Definition left_clean (s : string) : Prop :=
  match s with
  | EmptyString => True
  | String c _ => Py.is_space c = false
  end.

(** * Lemmas *)

Section SameInsn.

Lemma same_insn_refl e : same_insn e e.
Proof. by repeat split. Qed.

Lemma same_insn_trans e1 e2 e3 :
  same_insn e1 e2 → same_insn e2 e3 → same_insn e1 e3.
Proof. unfold same_insn. intuition congruence. Qed.

Lemma same_insn_set_call e cid d : same_insn e (set_call e cid d).
Proof. by repeat split. Qed.

Lemma same_insn_set_mem e a op w : same_insn e (set_mem e a op w).
Proof. by repeat split. Qed.

Lemma same_insn_precomputed evs0 idx e : same_insn e (precomputed evs0 idx e).
Proof.
  unfold precomputed. case_match; [apply same_insn_set_mem|apply same_insn_refl].
Qed.

Lemma same_call_precomputed evs0 idx e : same_call e (precomputed evs0 idx e).
Proof. unfold precomputed. by case_match. Qed.

Lemma apply_writes_same cur e e' :
  same_insn e e' → _apply_writes cur e = _apply_writes cur e'.
Proof. intros (_ & Hr & Hw & _). unfold _apply_writes. by rewrite Hr, Hw. Qed.

Lemma foldl_apply_same cur evs evs' :
  Forall2 same_insn evs evs' →
  foldl _apply_writes cur evs = foldl _apply_writes cur evs'.
Proof.
  intros H. revert cur. induction H as [|e e' l l' He _ IH]; intros cur; simpl.
  - done.
  - by rewrite (apply_writes_same cur e e' He), IH.
Qed.

Lemma regs_after_same evs evs' i :
  Forall2 same_insn evs evs' → regs_after evs i = regs_after evs' i.
Proof. intros H. apply foldl_apply_same. by apply Forall2_take. Qed.

Lemma effective_address_at_same evs evs' i :
  Forall2 same_insn evs evs' →
  effective_address_at evs i = effective_address_at evs' i.
Proof.
  intros H. unfold effective_address_at.
  destruct (evs !! i) as [e|] eqn:E.
  - destruct (Forall2_lookup_l _ _ _ _ _ H E) as (e' & -> & He).
    destruct He as (Ha & _). rewrite Ha, (regs_after_same evs evs' i H). done.
  - apply Forall2_length in H. apply lookup_ge_None in E.
    rewrite (proj2 (lookup_ge_None evs' i)) by lia. done.
Qed.

End SameInsn.

Section Precompute.

Lemma precompute_loop_events evs0 idx todo index :
  (precompute_loop evs0 idx todo index).1
  = imap (fun k ev => precomputed evs0 (idx + k) ev) todo.
Proof.
  revert idx index. induction todo as [|ev todo IH]; intros idx index; simpl.
  - done.
  - unfold precomputed at 1. rewrite Nat.add_0_r.
    destruct (is_ldr_or_str (Py.lower (asm ev))); simpl.
    + match goal with |- context [precompute_loop evs0 (S idx) todo ?ix] =>
        specialize (IH (S idx) ix);
        destruct (precompute_loop evs0 (S idx) todo ix) as [r ix'] eqn:E end.
      simpl in *. f_equal. rewrite IH. apply imap_ext. intros k x _. simpl.
      by replace (idx + S k)%nat with (S (idx + k)) by lia.
    + specialize (IH (S idx) index).
      destruct (precompute_loop evs0 (S idx) todo index) as [r ix] eqn:E.
      simpl in *. f_equal. rewrite IH. apply imap_ext. intros k x _. simpl.
      by replace (idx + S k)%nat with (S (idx + k)) by lia.
Qed.

End Precompute.

Section AliasSets.
Implicit Types (T : gset string) (r a : string).

Lemma in_set_true T a : in_set T a = true ↔ a ∈ T.
Proof. unfold in_set. apply bool_decide_eq_true. Qed.

Lemma add_aliases_go_elem (l : list string) T a :
  a ∈ foldl (fun T a => if in_set T a then T else T ∪ {[a]}) T l
  ↔ a ∈ T ∨ a ∈ l.
Proof.
  revert T. induction l as [|b l IH]; intros T; simpl.
  - set_solver.
  - rewrite IH. destruct (in_set T b) eqn:E.
    + apply in_set_true in E. set_solver.
    + set_solver.
Qed.

Lemma add_aliases_elem T r a :
  a ∈ add_aliases T r ↔ a ∈ T ∨ a ∈ _alias_names r.
Proof. apply add_aliases_go_elem. Qed.

Lemma discard_aliases_go_elem (l : list string) T a :
  a ∈ foldl (fun T a => if in_set T a then T ∖ {[a]} else T) T l
  ↔ a ∈ T ∧ a ∉ l.
Proof.
  revert T. induction l as [|b l IH]; intros T; simpl.
  - set_solver.
  - rewrite IH. destruct (in_set T b) eqn:E.
    + set_solver.
    + assert (b ∉ T) by (intros ?%in_set_true; congruence). set_solver.
Qed.

Lemma discard_aliases_elem T r a :
  a ∈ discard_aliases T r ↔ a ∈ T ∧ a ∉ _alias_names r.
Proof. apply discard_aliases_go_elem. Qed.

Lemma union_list_elem (l : list string) T a :
  a ∈ foldl (fun T a => T ∪ {[a]}) T l ↔ a ∈ T ∨ a ∈ l.
Proof.
  revert T. induction l as [|b l IH]; intros T; simpl; [set_solver|].
  rewrite IH. set_solver.
Qed.

Lemma add_aliases_list_elem (l : list string) T a :
  a ∈ foldl add_aliases T l ↔ a ∈ T ∨ ∃ r, r ∈ l ∧ a ∈ _alias_names r.
Proof.
  revert T. induction l as [|b l IH]; intros T; simpl.
  - set_solver.
  - rewrite IH, add_aliases_elem. set_solver.
Qed.
End AliasSets.

Lemma alias_names_pair r d :
  Py.isdigit d = true →
  String "x" d ∈ _alias_names r ↔ String "w" d ∈ _alias_names r.
Proof.
  intros Hd. unfold _alias_names.
  destruct (Py.lower (Py.strip r)) as [|c rest]; [set_solver|].
  destruct (Ascii.eqb c "x" && Py.isdigit rest) eqn:Ex.
  - apply andb_true_iff in Ex as [->%Ascii.eqb_eq _].
    rewrite !elem_of_cons, !elem_of_nil. split; intros [H|[H|[]]]; simplify_eq; auto.
  - destruct (Ascii.eqb c "w" && Py.isdigit rest) eqn:Ew.
    + apply andb_true_iff in Ew as [->%Ascii.eqb_eq _].
      rewrite !elem_of_cons, !elem_of_nil. split; intros [H|[H|[]]]; simplify_eq; auto.
    + rewrite !elem_of_cons, !elem_of_nil. split; intros [H|[]]; simplify_eq.
      * rewrite Hd in Ex. discriminate.
      * rewrite Hd in Ew. discriminate.
Qed.

Lemma alias_closed_add T r : alias_closed T → alias_closed (add_aliases T r).
Proof.
  intros HT d Hd. rewrite !add_aliases_elem, (HT d Hd), (alias_names_pair r d Hd).
  reflexivity.
Qed.

Lemma alias_closed_discard T r :
  alias_closed T → alias_closed (discard_aliases T r).
Proof.
  intros HT d Hd.
  rewrite !discard_aliases_elem, (HT d Hd), (alias_names_pair r d Hd).
  reflexivity.
Qed.

Lemma alias_closed_add_list T l :
  alias_closed T → alias_closed (foldl add_aliases T l).
Proof.
  revert T. induction l as [|r l IH]; intros T HT; simpl; [done|].
  apply IH, alias_closed_add, HT.
Qed.

Lemma alias_closed_fwd_write P i ev a M st rd :
  alias_closed st.1 → alias_closed (fwd_write P i ev a M st rd).1.
Proof.
  destruct st as [T used]. simpl. intros HT. unfold fwd_write.
  repeat case_match; simpl;
    auto using alias_closed_add, alias_closed_discard.
Qed.

Lemma alias_closed_fwd_writes P i ev a M l st :
  alias_closed st.1 → alias_closed (foldl (fwd_write P i ev a M) st l).1.
Proof.
  revert st. induction l as [|rd l IH]; intros st H; simpl; [done|].
  apply IH, alias_closed_fwd_write, H.
Qed.

Lemma alias_closed_fwd_multi P i a T M used :
  alias_closed T → alias_closed (fwd_multi P i a T M used).1.1.
Proof.
  intros HT. unfold fwd_multi.
  repeat case_match; simpl;
    auto using alias_closed_add, alias_closed_add_list.
Qed.

Lemma alias_closed_fwd_arm64 a T used :
  alias_closed T → alias_closed (fwd_arm64 a T used).1.
Proof.
  intros HT. unfold fwd_arm64.
  repeat case_match; simpl; auto using alias_closed_add.
Qed.

Lemma alias_closed_fwd_event P i ev T M :
  alias_closed T → alias_closed (fwd_event P i ev T M).1.1.
Proof.
  intros HT. unfold fwd_event.
  pose proof (alias_closed_fwd_writes P i ev (Py.lower (asm ev)) M
    (keys (writes ev))
    (T, existsb (reg_tainted T) (keys (reads ev))
        || load_hit P i (Py.lower (asm ev)) M) HT) as H1.
  destruct (foldl _ _ _) as [T1 used2]. simpl in H1.
  destruct (fwd_store _ _ _ _ _ _) as [M1 used3].
  pose proof (alias_closed_fwd_multi P i (Py.lower (asm ev)) T1 M1 used3 H1) as H2.
  destruct (fwd_multi _ _ _ _ _ _) as [[T2 M2] used4]. simpl in H2.
  pose proof (alias_closed_fwd_arm64 (Py.lower (asm ev)) T2 used4 H2) as H3.
  destruct (fwd_arm64 _ _ _) as [T3 used5]. exact H3.
Qed.

Lemma alias_closed_fwd_loop P sco ms bc idxs st :
  alias_closed (tainted_regs st) →
  alias_closed (tainted_regs (fwd_loop P sco ms bc idxs st)).
Proof.
  revert st. induction idxs as [|i idxs IH]; intros st H; simpl; [done|].
  destruct (ms <=? steps st); [done|].
  destruct (events P !! i) as [ev|]; [|done].
  destruct (sco && _); [by apply IH|].
  pose proof (alias_closed_fwd_event P i ev _ (tainted_mem st) H) as H1.
  destruct (fwd_event _ _ _ _ _) as [[T M] used]. apply IH. exact H1.
Qed.

Lemma alias_closed_fwd_init srcs mems :
  alias_closed (tainted_regs (fwd_init srcs mems)).
Proof.
  unfold fwd_init. simpl.
  assert (∀ l T, alias_closed T →
    alias_closed (foldl (fun T r => foldl (fun T a => T ∪ {[a]}) T
                           (_alias_names (Py.lower r))) T l)) as H.
  { induction l as [|r l IH]; intros T HT; simpl; [done|].
    apply IH. intros d Hd.
    rewrite !union_list_elem, (HT d Hd), (alias_names_pair _ d Hd). done. }
  apply H. intros d _. set_solver.
Qed.

Section HitOrder.

Lemma seq_sorted (a m : nat) : StronglySorted lt (seq a m).
Proof.
  revert a. induction m as [|m IH]; intros a; simpl; constructor; [apply IH|].
  apply Forall_forall. intros x Hx%elem_of_seq. lia.
Qed.

Lemma sorted_rev_flip {A} (R : relation A) (l : list A) :
  StronglySorted R l → StronglySorted (flip R) (rev l).
Proof.
  induction 1 as [|x l Hs IH Hx]; simpl; [constructor|].
  apply StronglySorted_app. split_and!; [|done|repeat constructor].
  intros y z Hy Hz. apply list_elem_of_singleton in Hz as ->.
  apply list_elem_of_In, in_rev, list_elem_of_In in Hy.
  rewrite Forall_forall in Hx. by apply Hx.
Qed.

Lemma sorted_drop_middle {A} (R : relation A) (h : list A) i rest :
  StronglySorted R (h ++ i :: rest) → StronglySorted R (h ++ rest).
Proof.
  rewrite !StronglySorted_app, StronglySorted_cons.
  intros (H1 & H2 & H3 & H4). split_and!; [|done..].
  intros x y Hx Hy. apply H1; [done|]. by apply elem_of_cons; right.
Qed.

Lemma sorted_snoc_middle {A} (R : relation A) (h : list A) i rest :
  StronglySorted R (h ++ i :: rest) → StronglySorted R ((h ++ [i]) ++ rest).
Proof. by rewrite <- app_assoc. Qed.

Lemma fwd_loop_hits_sorted P sco ms bc idxs st :
  StronglySorted lt (hits st ++ idxs) →
  StronglySorted lt (hits (fwd_loop P sco ms bc idxs st)).
Proof.
  revert st. induction idxs as [|i idxs IH]; intros st H; simpl.
  { by rewrite app_nil_r in H. }
  destruct (ms <=? steps st); [by eapply StronglySorted_app_1_l|].
  destruct (events P !! i) as [ev|]; [|by eapply StronglySorted_app_1_l].
  destruct (sco && _).
  { apply IH. by eapply sorted_drop_middle. }
  destruct (fwd_event _ _ _ _ _) as [[T M] used]. apply IH. simpl.
  destruct used; [by apply sorted_snoc_middle|by eapply sorted_drop_middle].
Qed.

Lemma back_loop_hits_sorted P sco ms emt bc idxs st :
  StronglySorted (flip lt) (b_hits st ++ idxs) →
  StronglySorted (flip lt) (b_hits (back_loop P sco ms emt bc idxs st)).
Proof.
  revert st. induction idxs as [|i idxs IH]; intros st H; simpl.
  { by rewrite app_nil_r in H. }
  destruct (ms <=? b_steps st); [by eapply StronglySorted_app_1_l|].
  destruct (events P !! i) as [ev|]; [|by eapply StronglySorted_app_1_l].
  destruct (sco && _).
  { apply IH. by eapply sorted_drop_middle. }
  destruct (back_event _ _ _ _ _ _ _) as [[[T M] Term] used]. apply IH. simpl.
  destruct used; [by apply sorted_snoc_middle|by eapply sorted_drop_middle].
Qed.

Lemma dedup_go_sorted (l : list nat) (seen : gset nat) :
  StronglySorted lt l → (∀ x, x ∈ l → x ∉ seen) → dedup_go seen l = l.
Proof.
  revert seen. induction l as [|k l IH]; intros seen Hs Hseen; simpl; [done|].
  apply StronglySorted_cons in Hs as [Hk Hs].
  rewrite bool_decide_eq_false_2 by (apply Hseen; left).
  f_equal. apply IH; [done|]. intros x Hx.
  rewrite Forall_forall in Hk. specialize (Hk x Hx).
  assert (x ∉ seen) by (apply Hseen; by right). set_solver by lia.
Qed.

Lemma dedup_sorted (l : list nat) : StronglySorted lt l → dedup l = l.
Proof. intros. apply dedup_go_sorted; [done|set_solver]. Qed.

End HitOrder.

Section CallAnnotator.
Implicit Types (cs : CallState) (ev : TraceEvent) (evs : list TraceEvent).

Lemma annotate_call_event cs ev ev' cs' :
  _annotate_call cs ev = Some (ev', cs') →
  ev' = set_call ev (hd 0%nat (_call_stack cs)) (length (_call_stack cs)).
Proof.
  unfold _annotate_call. intros H.
  destruct (_is_call_event ev); [by simplify_eq|].
  destruct (_is_return_event ev) as [[]|]; by simplify_eq.
Qed.

Lemma annotate_call_state cs ev ev' cs' :
  _annotate_call cs ev = Some (ev', cs') →
  cs' = if is_call ev
        then {| _call_stack := _next_call_id cs :: _call_stack cs;
                _next_call_id := S (_next_call_id cs) |}
        else if is_return ev
             then {| _call_stack := tl (_call_stack cs);
                     _next_call_id := _next_call_id cs |}
             else cs.
Proof.
  unfold _annotate_call, is_call, is_return. intros H.
  destruct (_is_call_event ev); [by simplify_eq|]. simpl.
  destruct (_is_return_event ev) as [[]|]; by simplify_eq.
Qed.

Lemma annotate_all_lookup cs evs evs' i ev :
  annotate_all cs evs = Some evs' → evs !! i = Some ev →
  ∃ csi, call_state_after cs (take i evs) = Some csi
         ∧ evs' !! i = Some (set_call ev (hd 0%nat (_call_stack csi))
                                      (length (_call_stack csi))).
Proof.
  revert cs evs' i. induction evs as [|e evs IH]; intros cs evs' i H Hi.
  { by rewrite lookup_nil in Hi. }
  simpl in H. destruct (_annotate_call cs e) as [[e' cs']|] eqn:E; [|done].
  destruct (annotate_all cs' evs) as [r|] eqn:Er; [|done].
  simpl in H. simplify_eq. destruct i as [|i]; simpl in *.
  - simplify_eq. exists cs. split; [done|].
    by rewrite (annotate_call_event _ _ _ _ E).
  - rewrite E. by apply IH.
Qed.

Lemma annotate_all_same cs evs evs' :
  annotate_all cs evs = Some evs' → Forall2 same_insn evs evs'.
Proof.
  revert cs evs'. induction evs as [|e evs IH]; intros cs evs' H; simpl in H.
  { simplify_eq. constructor. }
  destruct (_annotate_call cs e) as [[e' cs']|] eqn:E; [|done].
  destruct (annotate_all cs' evs) as [r|] eqn:Er; [|done].
  simpl in H. simplify_eq. constructor; [|by eapply IH].
  rewrite (annotate_call_event _ _ _ _ E). apply same_insn_set_call.
Qed.

Lemma call_state_after_snoc cs evs ev :
  call_state_after cs (evs ++ [ev])
  = match call_state_after cs evs with
    | Some cs' => snd <$> _annotate_call cs' ev
    | None => None
    end.
Proof.
  revert cs. induction evs as [|e evs IH]; intros cs; simpl.
  - by destruct (_annotate_call cs ev) as [[]|].
  - destruct (_annotate_call cs e) as [[]|]; [apply IH|done].
Qed.

Lemma calls_in_snoc evs ev :
  calls_in (evs ++ [ev]) = (calls_in evs + if is_call ev then 1 else 0)%nat.
Proof.
  unfold calls_in. rewrite filter_app, length_app. f_equal.
  rewrite filter_cons, filter_nil. destruct (is_call ev); by case_decide.
Qed.

Lemma unmatched_from_snoc d evs ev :
  unmatched_from d (evs ++ [ev])
  = if is_call ev then S (unmatched_from d evs)
    else if is_return ev then pred (unmatched_from d evs)
    else unmatched_from d evs.
Proof.
  revert d. induction evs as [|e evs IH]; intros d; simpl; [done|].
  destruct (is_call e); [apply IH|]. destruct (is_return e); apply IH.
Qed.

(** The stack after a prefix: as long as the calls left open, made of
    ids handed out so far, and the next id counts the calls. *)
Lemma call_state_after_init evs cs :
  call_state_after call_init evs = Some cs →
  length (_call_stack cs) = unmatched_calls evs
  ∧ _next_call_id cs = S (calls_in evs)
  ∧ Forall (fun id => (1 ≤ id ≤ calls_in evs)%nat) (_call_stack cs).
Proof.
  revert cs. induction evs as [|ev evs IH] using rev_ind; intros cs H.
  { simpl in H. simplify_eq. by repeat split. }
  rewrite call_state_after_snoc in H.
  destruct (call_state_after call_init evs) as [cs0|]; [|done].
  destruct (IH cs0 eq_refl) as (Hlen & Hnext & Hids).
  destruct (_annotate_call cs0 ev) as [[ev' cs1]|] eqn:E; [|done].
  simpl in H. simplify_eq.
  apply annotate_call_state in E. unfold unmatched_calls in *.
  rewrite unmatched_from_snoc, calls_in_snoc.
  destruct (is_call ev); [|destruct (is_return ev)]; subst cs; simpl.
  - repeat split; [lia..|].
    constructor; [lia|]. eapply Forall_impl; [exact Hids|]. simpl. lia.
  - rewrite Nat.add_0_r. repeat split; [|done|].
    + rewrite <- Hlen. by destruct (_call_stack cs0).
    + destruct (_call_stack cs0); [done|]. simpl. by inversion Hids.
  - rewrite Nat.add_0_r. by repeat split.
Qed.


End CallAnnotator.

Section Parse.

Lemma parse_loop_spec interval ps lexed ps' :
  parse_loop interval ps lexed = Some ps' →
  ∃ evs', annotate_all (ps_call ps) lexed = Some evs'
    ∧ ps_events ps' = ps_events ps ++ evs'
    ∧ ps_current_regs ps'
      = foldl _apply_writes (ps_current_regs ps) evs'
    ∧ ∀ ln m, ps_checkpoints ps' !! ln = Some m →
        ps_checkpoints ps !! ln = Some m
        ∨ ∃ k ev, evs' !! k = Some ev ∧ line_no ev = ln
            ∧ m = foldl _apply_writes (ps_current_regs ps)
                        (take (S k) evs').
Proof.
  revert ps ps'. induction lexed as [|e lexed IH]; intros ps ps' H; simpl in H.
  { simplify_eq. exists []. rewrite app_nil_r. repeat split; auto. }
  unfold parse_step in H.
  destruct (_annotate_call (ps_call ps) e) as [[e' cs']|] eqn:E; [|done].
  destruct (interval =? 0)%nat; [done|].
  apply IH in H as (evs' & Han & Hev & Hcur & Hck). simpl in *.
  exists (e' :: evs'). rewrite E, Han. simpl.
  repeat split.
  - by rewrite Hev, <- app_assoc.
  - done.
  - intros ln m Hm. destruct (Hck ln m Hm) as [Hold|(k & ev & Hk & Hln & ->)].
    + destruct (line_no e' mod interval =? 0)%nat; [|by left].
      destruct (decide (line_no e' = ln)) as [<-|Hne].
      * rewrite lookup_insert_eq in Hold. simplify_eq.
        right. exists 0%nat, e'. by repeat split.
      * rewrite lookup_insert_ne in Hold by done. by left.
    + right. exists (S k), ev. by repeat split.
Qed.

Lemma imap_lookup_Some {A B} (f : nat → A → B) (l : list A) i y :
  imap f l !! i = Some y ↔ ∃ x, l !! i = Some x ∧ y = f i x.
Proof.
  rewrite list_lookup_imap. destruct (l !! i); simpl; naive_solver.
Qed.

Lemma imap_Forall2 {A B} (R : A → B → Prop) (f : nat → A → B) (l : list A) :
  (∀ i x, R x (f i x)) → Forall2 R l (imap f l).
Proof.
  revert f. induction l as [|x l IH]; intros f H; simpl; constructor; auto.
  apply IH. intros. apply H.
Qed.

(** A parsed trace: its events are the lexed ones, annotated and then
    precomputed; every checkpoint is the register file after the event
    on that line. *)
Lemma parse_events_spec interval lexed P :
  parse_events interval lexed = Some P →
  ∃ evs', annotate_all call_init lexed = Some evs'
    ∧ events P = imap (precomputed evs') evs'
    ∧ store_addr_index P
      = merge_sort (≤)%nat <$> (precompute_loop evs' 0 evs' ∅).2
    ∧ (∀ ln m, _reg_checkpoints P !! ln = Some m →
         ∃ k ev, events P !! k = Some ev ∧ line_no ev = ln
                 ∧ m = regs_after (events P) k).
Proof.
  unfold parse_events. intros H.
  destruct (parse_loop interval parse_init lexed) as [ps|] eqn:E; [|done].
  apply parse_loop_spec in E as (evs' & Han & Hev & Hcur & Hck).
  destruct ps as [pe pc pr pk]. simpl in *. subst pe pr.
  unfold _precompute_memory_effects in H.
  pose proof (precompute_loop_events evs' 0 evs' ∅) as Hpl.
  destruct (precompute_loop _ _ _ _) as [evs2 index] eqn:Ep.
  simpl in *. simplify_eq. simpl.
  exists evs'. split_and!; [done|done|by rewrite Ep|].
  intros ln m Hm. destruct (Hck ln m Hm) as [Hold|(k & ev & Hk & Hln & ->)].
  { by rewrite lookup_empty in Hold. }
  exists k, (precomputed evs' k ev). split.
  { apply imap_lookup_Some. eauto. }
  split.
  { rewrite <- Hln. symmetry. apply same_insn_precomputed. }
  unfold regs_after. apply foldl_apply_same, Forall2_take.
  apply imap_Forall2. intros. apply same_insn_precomputed.
Qed.

Lemma parse_events_same interval lexed P :
  parse_events interval lexed = Some P → Forall2 same_insn lexed (events P).
Proof.
  intros (evs' & Han & -> & _)%parse_events_spec.
  apply annotate_all_same in Han.
  eapply Forall2_trans; [|exact Han|].
  - apply same_insn_trans.
  - apply imap_Forall2. intros. apply same_insn_precomputed.
Qed.

(** The call fields of a parsed event are the annotator's state after
    the events before it. *)
Lemma parse_events_call interval lexed P i ev :
  parse_events interval lexed = Some P → events P !! i = Some ev →
  ∃ ev0 cs, lexed !! i = Some ev0 ∧ same_insn ev0 ev
    ∧ call_state_after call_init (take i lexed) = Some cs
    ∧ call_id ev = hd 0%nat (_call_stack cs)
    ∧ call_depth ev = length (_call_stack cs).
Proof.
  intros Hp Hi. pose proof (parse_events_same _ _ _ Hp) as Hs.
  destruct (Forall2_lookup_r _ _ _ _ _ Hs Hi) as (ev0 & H0 & Hsame).
  apply parse_events_spec in Hp as (evs' & Han & Hev & _).
  destruct (annotate_all_lookup _ _ _ _ _ Han H0) as (cs & Hcs & Hi').
  rewrite Hev in Hi. apply imap_lookup_Some in Hi as (x & Hx & ->).
  rewrite Hx in Hi'. simplify_eq.
  destruct (same_call_precomputed evs' i
    (set_call ev0 (hd 0%nat (_call_stack cs)) (length (_call_stack cs))))
    as [H1 H2].
  exists ev0, cs. split_and!; [done|done|done|by rewrite <- H1|by rewrite <- H2].
Qed.

End Parse.

Section CallIds.





Lemma call_state_after_top evs cs :
  call_state_after call_init evs = Some cs →
  (hd 0%nat (_call_stack cs) ≤ calls_in evs)%nat.
Proof.
  intros (_ & _ & H)%call_state_after_init.
  destruct (_call_stack cs) as [|t l]; simpl; [lia|].
  apply Forall_cons in H as [? _]. lia.
Qed.



End CallIds.




Section StoreIndex.
Implicit Types (ix : gmap Z (list nat)).

Lemma listed_insert_other ix a b i j :
  listed ix a i → listed (<[b := default [] (ix !! b) ++ [j]]> ix) a i.
Proof.
  intros (l & Hl & Hi). destruct (decide (b = a)) as [->|Hne].
  - exists (l ++ [j]). rewrite lookup_insert_eq, Hl. simpl.
    split; [done|]. apply elem_of_app. by left.
  - exists l. by rewrite lookup_insert_ne.
Qed.

Lemma listed_insert_here ix b j :
  listed (<[b := default [] (ix !! b) ++ [j]]> ix) b j.
Proof.
  eexists. rewrite lookup_insert_eq. split; [done|].
  apply elem_of_app. right. by apply list_elem_of_singleton.
Qed.

Lemma index_span_go_mono (f : Z → Z) offs ix a i j :
  listed ix a i →
  listed (foldl (fun ix off =>
                   <[f off := default [] (ix !! f off) ++ [j]]> ix) ix offs)
         a i.
Proof.
  revert ix. induction offs as [|o offs IH]; intros ix H; simpl; [done|].
  apply IH. by apply listed_insert_other.
Qed.

Lemma index_span_go_covers (f : Z → Z) offs ix j off :
  off ∈ offs →
  listed (foldl (fun ix off =>
                   <[f off := default [] (ix !! f off) ++ [j]]> ix) ix offs)
         (f off) j.
Proof.
  revert ix. induction offs as [|o offs IH]; intros ix H; simpl.
  { by apply elem_of_nil in H. }
  apply elem_of_cons in H as [->|H]; [|by apply IH].
  apply index_span_go_mono, listed_insert_here.
Qed.

Lemma index_span_mono ix addr span idx a i :
  listed ix a i → listed (index_span ix addr span idx) a i.
Proof. apply index_span_go_mono. Qed.

Lemma index_span_covers ix addr span idx off :
  off ∈ offsets span →
  listed (index_span ix addr span idx)
         (Z.land (Z.land addr mask32 + off) mask32) idx.
Proof.
  intros H. unfold index_span.
  apply (index_span_go_covers
           (fun off => Z.land (Z.land addr mask32 + off) mask32)), H.
Qed.

Lemma elem_of_offsets w k : 0 ≤ k < w → k ∈ offsets w.
Proof.
  intros H. unfold offsets. apply list_elem_of_fmap.
  exists (Z.to_nat k). split; [lia|]. apply elem_of_seq. lia.
Qed.

Lemma precompute_loop_mono evs0 idx todo ix a i :
  listed ix a i → listed (precompute_loop evs0 idx todo ix).2 a i.
Proof.
  revert idx ix. induction todo as [|ev todo IH]; intros idx ix H; simpl.
  { done. }
  destruct (is_ldr_or_str (Py.lower (asm ev))); simpl.
  - match goal with |- context [precompute_loop evs0 (S idx) todo ?ix'] =>
      specialize (IH (S idx) ix');
      destruct (precompute_loop evs0 (S idx) todo ix') as [r ix2] end.
    simpl in *. apply IH. repeat case_match; try done;
      by apply index_span_mono.
  - specialize (IH (S idx) ix H).
    by destruct (precompute_loop evs0 (S idx) todo ix) as [r ix2].
Qed.

(** Every store whose address resolves is listed under each byte of
    its span. *)
Lemma precompute_loop_covers evs0 idx todo ix k ev A off :
  todo !! k = Some ev →
  Py.startswith (Py.lower (asm ev)) "str" = true →
  effective_address_at evs0 (idx + k) = Some A →
  0 ≤ off < precompute_width ev →
  listed (precompute_loop evs0 idx todo ix).2
         (Z.land (Z.land A mask32 + off) mask32) (idx + k).
Proof.
  revert idx ix k. induction todo as [|e todo IH]; intros idx ix k Hk Hs HA Hoff.
  { by rewrite lookup_nil in Hk. }
  destruct k as [|k]; simpl in Hk.
  - simplify_eq. rewrite Nat.add_0_r in *. simpl.
    unfold is_ldr_or_str. rewrite Hs. simpl. rewrite HA.
    match goal with |- context [precompute_loop evs0 (S idx) todo ?ix'] =>
      pose proof (precompute_loop_mono evs0 (S idx) todo ix') as Hm;
      destruct (precompute_loop evs0 (S idx) todo ix') as [r ix2] end.
    simpl in *. apply Hm. apply index_span_covers, elem_of_offsets.
    destruct (precompute_width ev =? 0) eqn:E; lia.
  - replace (idx + S k)%nat with (S idx + k)%nat in * by lia. simpl.
    destruct (is_ldr_or_str (Py.lower (asm e))); simpl.
    + match goal with |- context [precompute_loop evs0 (S idx) todo ?ix'] =>
        specialize (IH (S idx) ix' k Hk Hs HA Hoff);
        destruct (precompute_loop evs0 (S idx) todo ix') as [r ix2] end.
      done.
    + specialize (IH (S idx) ix k Hk Hs HA Hoff).
      by destruct (precompute_loop evs0 (S idx) todo ix) as [r ix2].
Qed.

Lemma land_mask32 x : Z.land x mask32 = x `mod` 2 ^ 32.
Proof. change mask32 with (Z.ones 32). by rewrite Z.land_ones. Qed.

Lemma land_mask32_add x k :
  Z.land (Z.land x mask32 + k) mask32 = (x + k) `mod` 2 ^ 32.
Proof. rewrite !land_mask32. by rewrite Zplus_mod_idemp_l. Qed.

End StoreIndex.

(** C9: once the trace is parsed, every store event whose effective
    address resolved to [A] and whose [mem_width] is [W] is listed in the
    store-address index under each byte address [A + k], [k < W], taken
    modulo 2^32, and every list of the index is in ascending order. *)
Theorem store_index_covers interval lexed P :
  parse_events interval lexed = Some P →
  (∀ i ev A k,
     events P !! i = Some ev →
     Py.startswith (Py.lower (asm ev)) "str" = true →
     effaddr ev = Some A →
     0 ≤ k < mem_width ev →
     ∃ lst, store_addr_index P !! ((A + k) `mod` 2 ^ 32) = Some lst
            ∧ i ∈ lst)
  ∧ (∀ a lst, store_addr_index P !! a = Some lst → StronglySorted le lst).
Proof.
  intros (evs' & _ & Hev & Hix & _)%parse_events_spec. split.
  - intros i ev A k Hi Hs HA Hk.
    rewrite Hev in Hi. apply imap_lookup_Some in Hi as (e & He & ->).
    destruct (same_insn_precomputed evs' i e) as [Ha _]. rewrite <- Ha in Hs.
    assert (is_ldr_or_str (Py.lower (asm e)) = true) as Hls.
    { unfold is_ldr_or_str. by rewrite Hs. }
    unfold precomputed in HA, Hk. rewrite Hls in HA, Hk. simpl in HA, Hk.
    destruct (precompute_loop_covers evs' 0 evs' ∅ i e A k He Hs HA Hk)
      as (l & Hl & Hin).
    rewrite land_mask32_add in Hl. rewrite Hix, lookup_fmap, Hl. simpl.
    eexists. split; [done|]. by rewrite merge_sort_Permutation.
  - intros a lst Hl. rewrite Hix, lookup_fmap in Hl.
    destruct (_ !! a) as [l|]; simplify_eq/=.
    apply StronglySorted_merge_sort; apply _.
Qed.

Lemma store_index_covers_witness :
  ∃ P, parse_events 2000 S1_trace = Some P
       ∧ ∃ lst, store_addr_index P !! 0x9002 = Some lst ∧ 2%nat ∈ lst.
Proof.
  eexists. split; [vm_compute; reflexivity|].
  match goal with |- context [store_addr_index ?P] =>
    destruct (store_index_covers 2000 S1_trace P eq_refl) as [H _] end.
  eapply (H 2%nat _ 0x9000 2);
    [vm_compute; reflexivity|by vm_compute|by vm_compute|by vm_compute].
Defined.

Section Replay.
Implicit Types (m : regs) (d : dict) (evs : list TraceEvent).

Lemma update_all_snoc m d k v :
  update_all m (d ++ [(k, v)]) = <[k := v]> (update_all m d).
Proof. unfold update_all. by rewrite foldl_app. Qed.

Lemma update_all_union m d : update_all m d = update_all ∅ d ∪ m.
Proof.
  induction d as [|[k v] d IH] using rev_ind.
  - simpl. by rewrite (left_id_L ∅ (∪)).
  - rewrite !update_all_snoc, IH. by rewrite insert_union_l.
Qed.

Lemma update_all_idemp m d : update_all (update_all m d) d = update_all m d.
Proof.
  rewrite (update_all_union (update_all m d)), (update_all_union m d).
  by rewrite (assoc_L (∪)), (idemp_L (∪)).
Qed.

Lemma update_all_is_Some m d k :
  is_Some (m !! k) → is_Some (update_all m d !! k).
Proof.
  intros H. rewrite update_all_union, lookup_union.
  destruct (update_all ∅ d !! k), H as [? ->]; by eexists.
Qed.

Lemma update_all_not_key m d k :
  k ∉ keys d → update_all m d !! k = m !! k.
Proof.
  revert m. induction d as [|[k' v'] d IH]; intros m Hk; simpl; [done|].
  unfold keys in *. simpl in Hk. apply not_elem_of_cons in Hk as [Hne Hk].
  unfold update_all in *. rewrite IH by done. by rewrite lookup_insert_ne.
Qed.

(** A written register holds its written value after the update. *)
Lemma update_all_written m d k v :
  dict_wf d → (k, v) ∈ d → update_all m d !! k = Some v.
Proof.
  revert m. induction d as [|[k' v'] d IH]; intros m Hwf Hin.
  { by apply elem_of_nil in Hin. }
  unfold dict_wf, keys in Hwf. simpl in Hwf. apply NoDup_cons in Hwf as [Hk' Hwf].
  apply elem_of_cons in Hin as [Heq|Hin].
  - simplify_eq. change (update_all (<[k' := v']> m) d !! k' = Some v').
    rewrite update_all_not_key by done. by rewrite lookup_insert_eq.
  - change (update_all (<[k' := v']> m) d !! k = Some v). by apply IH.
Qed.

Lemma setdefault_all_is_Some m d k :
  is_Some (m !! k) ∨ k ∈ keys d → is_Some (setdefault_all m d !! k).
Proof.
  revert m. induction d as [|[k' v'] d IH]; intros m H; simpl.
  { destruct H as [H|H]; [done|]. by apply elem_of_nil in H. }
  apply IH. unfold keys in H. simpl in H.
  destruct H as [H|[->|H]%elem_of_cons]; [| |by right].
  - left. destruct (m !! k') eqn:E; [done|].
    destruct (decide (k' = k)) as [->|Hne].
    + rewrite lookup_insert_eq. by eexists.
    + by rewrite lookup_insert_ne.
  - left. destruct (m !! k') eqn:E; [by eexists|].
    rewrite lookup_insert_eq. by eexists.
Qed.

Lemma setdefault_all_noop m d :
  (∀ k, k ∈ keys d → is_Some (m !! k)) → setdefault_all m d = m.
Proof.
  induction d as [|[k v] d IH]; intros H; simpl; [done|].
  destruct (H k) as [x Hx]. { unfold keys. simpl. by left. }
  rewrite Hx. apply IH. intros k' Hk'. apply H. unfold keys in *. simpl. by right.
Qed.

(** Replaying an event a second time changes nothing. *)
Lemma apply_writes_idemp m ev :
  _apply_writes (_apply_writes m ev) ev = _apply_writes m ev.
Proof.
  unfold _apply_writes at 1. rewrite setdefault_all_noop.
  - unfold _apply_writes. apply update_all_idemp.
  - intros k Hk. unfold _apply_writes. apply update_all_is_Some.
    apply setdefault_all_is_Some. by right.
Qed.

Lemma regs_before_S evs s ev :
  evs !! s = Some ev →
  regs_before evs (S s) = _apply_writes (regs_before evs s) ev.
Proof.
  intros H. unfold regs_before. by rewrite (take_S_r _ _ _ H), foldl_app.
Qed.

Lemma regs_after_before evs i : regs_after evs i = regs_before evs (S i).
Proof. done. Qed.

(** C6 at its core: the replayed state after event [i] holds the
    writes of event [i]. *)
Lemma regs_after_written evs i ev k v :
  evs !! i = Some ev → dict_wf (writes ev) → (k, v) ∈ writes ev →
  regs_after evs i !! k = Some v.
Proof.
  intros Hi Hwf Hin. rewrite regs_after_before, (regs_before_S _ _ _ Hi).
  unfold _apply_writes. by apply update_all_written.
Qed.

End Replay.

Section OrderedDictFacts.
Context {V : Type}.
Implicit Types (c : list (nat * V)) (k : nat) (v : V).

Lemma od_get_elem c k v : od_get c k = Some v → (k, v) ∈ c.
Proof.
  induction c as [|[k' v'] c IH]; simpl; [done|].
  destruct (k' =? k)%nat eqn:E.
  - apply Nat.eqb_eq in E as ->. intros ?; simplify_eq. by left.
  - intros H. right. by apply IH.
Qed.

Lemma od_get_None c k v : od_get c k = None → (k, v) ∉ c.
Proof.
  induction c as [|[k' v'] c IH]; simpl; intros H.
  { apply not_elem_of_nil. }
  destruct (k' =? k)%nat eqn:E; [done|]. apply Nat.eqb_neq in E.
  apply not_elem_of_cons. split; [congruence|by apply IH].
Qed.

Lemma od_set_elem c k v x : x ∈ od_set c k v → x = (k, v) ∨ x ∈ c.
Proof.
  induction c as [|[k' v'] c IH]; simpl.
  { intros ->%list_elem_of_singleton. by left. }
  destruct (k' =? k)%nat.
  - intros [->|H]%elem_of_cons; [by left|]. right. by right.
  - intros [->|H]%elem_of_cons; [right; by left|].
    destruct (IH H) as [->|?]; [by left|]. right. by right.
Qed.

Lemma od_move_to_end_elem c k x : x ∈ od_move_to_end c k → x ∈ c.
Proof.
  unfold od_move_to_end. destruct (od_get c k) as [v|] eqn:E; [|done].
  intros [H|H]%elem_of_app.
  - unfold od_remove in H. by apply list_elem_of_filter in H as [_ ?].
  - apply list_elem_of_singleton in H as ->. by apply od_get_elem.
Qed.

Lemma od_set_trim_elem cap c k v x :
  x ∈ od_set_trim cap c k v → x = (k, v) ∨ x ∈ c.
Proof.
  unfold od_set_trim, od_popfirst. intros H. apply (od_set_elem c k v).
  destruct (cap <? length (od_set c k v))%nat; [|done].
  destruct (od_set c k v); [done|]. by right.
Qed.

End OrderedDictFacts.

Lemma sorted_lookup_lt {A} (R : relation A) (l : list A) a b x y :
  StronglySorted R l → l !! a = Some x → l !! b = Some y → (a < b)%nat →
  R x y.
Proof.
  intros Hs. revert a b. induction Hs as [|z l Hs IH Hz]; intros a b Ha Hb Hab.
  { by rewrite lookup_nil in Ha. }
  destruct b as [|b]; [lia|]. simpl in Hb. destruct a as [|a]; simpl in Ha.
  - simplify_eq. rewrite Forall_forall in Hz. apply Hz.
    by eapply list_elem_of_lookup_2.
  - apply (IH a b); [done|done|lia].
Qed.

Section Reconstructor.
Variable P : TraceParser.
Hypothesis HP : parser_ok P.

Let evs := events P.

Lemma regs_cache_ok_set cache k m :
  regs_cache_ok evs cache → (k < length evs)%nat → m = regs_after evs k →
  regs_cache_ok evs (od_set cache k m).
Proof.
  intros H Hk Hm k' m' [Heq|Hin]%od_set_elem; [by simplify_eq|by apply H].
Qed.

(** The replay loop carries the registers before event [s] to the
    registers before event [s + len], and only caches true states. *)
Lemma replay_loop_spec len s mid should rg cache mc :
  (s + len ≤ length evs)%nat → rg = regs_before evs s →
  regs_cache_ok evs cache →
  (replay_loop evs (seq s len) mid should rg cache mc).1
  = regs_before evs (s + len)
  ∧ regs_cache_ok evs
      (replay_loop evs (seq s len) mid should rg cache mc).2.
Proof.
  revert s rg cache mc.
  induction len as [|len IH]; intros s rg cache mc Hlen Hrg Hc; simpl.
  { by rewrite Nat.add_0_r. }
  destruct (lookup_lt_is_Some_2 evs s ltac:(lia)) as [ev Hev].
  rewrite Hev.
  assert (update_all (setdefault_all rg (reads ev)) (writes ev)
          = regs_before evs (S s)) as Hstep.
  { rewrite (regs_before_S _ _ _ Hev), Hrg. done. }
  rewrite Hstep. replace (s + S len)%nat with (S s + len)%nat by lia.
  destruct (should && negb mc && (mid <=? Z.of_nat s)).
  - apply IH; [lia|done|]. apply regs_cache_ok_set; [done|lia|done].
  - apply IH; [lia|done|done].
Qed.

(** The same when the starting state already includes event [s]: its
    replay changes nothing. *)
Lemma replay_loop_spec_again len s mid should rg cache mc :
  (s + S len ≤ length evs)%nat → rg = regs_before evs (S s) →
  regs_cache_ok evs cache →
  (replay_loop evs (seq s (S len)) mid should rg cache mc).1
  = regs_before evs (s + S len)
  ∧ regs_cache_ok evs
      (replay_loop evs (seq s (S len)) mid should rg cache mc).2.
Proof.
  intros Hlen Hrg Hc. simpl.
  destruct (lookup_lt_is_Some_2 evs s ltac:(lia)) as [ev Hev].
  rewrite Hev.
  assert (update_all (setdefault_all rg (reads ev)) (writes ev)
          = regs_before evs (S s)) as Hstep.
  { rewrite Hrg, (regs_before_S _ _ _ Hev). apply apply_writes_idemp. }
  rewrite Hstep. replace (s + S len)%nat with (S s + len)%nat by lia.
  destruct (should && negb mc && (mid <=? Z.of_nat s)).
  - apply replay_loop_spec; [lia|done|].
    apply regs_cache_ok_set; [done|lia|done].
  - apply replay_loop_spec; [lia|done|done].
Qed.

Lemma best_key_bound cache ei :
  best_key cache ei = -1
  ∨ 0 ≤ best_key cache ei ≤ Z.of_nat ei.
Proof.
  unfold best_key.
  assert (∀ b, (b = -1 ∨ 0 ≤ b ≤ Z.of_nat ei) →
    let r := foldl (fun best kv =>
         if (Z.of_nat kv.1 <=? Z.of_nat ei) && (best <? Z.of_nat kv.1)
         then Z.of_nat kv.1 else best) b cache in
    r = -1 ∨ 0 ≤ r ≤ Z.of_nat ei) as H.
  { induction cache as [|[k m] cache IH]; intros b Hb; simpl; [done|].
    apply IH. destruct (_ && _) eqn:E; [|done]. right. lia. }
  apply H. by left.
Qed.

Lemma latest_checkpoint_spec l t acc :
  latest_checkpoint l t acc = acc
  ∨ (latest_checkpoint l t acc ∈ l
     ∧ (latest_checkpoint l t acc ≤ t)%nat).
Proof.
  revert acc. induction l as [|ln l IH]; intros acc; simpl; [by left|].
  destruct (ln <=? t)%nat eqn:E; [|by left]. apply Nat.leb_le in E.
  destruct (IH ln) as [->|[H1 H2]]; right.
  - split; [by left|done].
  - split; [by right|done].
Qed.

Lemma lines_lt i j e e' :
  evs !! i = Some e → evs !! j = Some e' →
  (i < j)%nat ↔ (line_no e < line_no e')%nat.
Proof.
  intros Hi Hj. pose proof (pok_lines P HP) as Hs. fold evs in Hs.
  assert (∀ a b x y, evs !! a = Some x → evs !! b = Some y →
            (a < b)%nat → (line_no x < line_no y)%nat) as Hmono.
  { intros a b x y Ha Hb Hab.
    by apply (sorted_lookup_lt _ evs a b x y Hs). }
  split; [by apply Hmono|]. intros Hlt.
  destruct (decide (i < j)%nat); [done|exfalso].
  destruct (decide (i = j)) as [->|]; [simplify_eq; lia|].
  pose proof (Hmono j i e' e Hj Hi ltac:(lia)). lia.
Qed.

(** The binary search lands on the event of the checkpoint line. *)
Lemma first_at_line_spec k ev fuel lo hi :
  evs !! k = Some ev →
  0 ≤ lo ≤ Z.of_nat k → Z.of_nat k ≤ hi + 1 →
  hi < Z.of_nat (length evs) → hi - lo + 1 < Z.of_nat fuel →
  first_at_line evs (line_no ev) fuel lo hi = Z.of_nat k.
Proof.
  intros Hk. revert lo hi.
  induction fuel as [|fuel IH]; intros lo hi Hlo Hhi Hn Hfuel; [lia|].
  simpl. destruct (lo <=? hi) eqn:E; [|lia]. apply Z.leb_le in E.
  assert (lo ≤ (lo + hi) `div` 2 ≤ hi) as Hmid.
  { split; [apply Z.div_le_lower_bound|apply Z.div_le_upper_bound]; lia. }
  destruct (lookup_lt_is_Some_2 evs (Z.to_nat ((lo + hi) `div` 2))
              ltac:(lia)) as [e He].
  rewrite He. destruct (line_no e <? line_no ev)%nat eqn:El.
  - apply Nat.ltb_lt in El. apply (lines_lt _ _ _ _ He Hk) in El.
    apply IH; lia.
  - apply Nat.ltb_ge in El.
    assert (¬ (Z.to_nat ((lo + hi) `div` 2) < k)%nat) as Hge.
    { intros Hlt%(lines_lt _ _ _ _ He Hk). lia. }
    apply IH; lia.
Qed.

End Reconstructor.

#[local] Arguments first_at_line : simpl never.
#[local] Arguments latest_checkpoint : simpl never.

Section ReconstructorSpec.
Variable P : TraceParser.
Hypothesis HP : parser_ok P.

Let evs := events P.

Lemma start_from_cache_spec c ei k r :
  regs_cache_ok evs (_regs_cache c) →
  start_from_cache c ei = Some (k, r) →
  0 ≤ k ≤ Z.of_nat ei ∧ r = regs_before evs (Z.to_nat (k + 1)).
Proof.
  intros Hc. unfold start_from_cache, start_from_recent.
  assert (Hcached : ∀ k r, 0 ≤ k →
    od_get (_regs_cache c) (Z.to_nat k) = Some r →
    r = regs_before evs (Z.to_nat (k + 1))).
  { intros k' r' Hk Hget. apply od_get_elem, Hc in Hget as [_ ->].
    rewrite regs_after_before. f_equal. lia. }
  set (recent := _recent_access_idx c).
  assert (Hbest :
    (let bk := best_key (_regs_cache c) ei in
     if 0 <=? bk then
       match od_get (_regs_cache c) (Z.to_nat bk) with
       | Some r => Some (bk, r)
       | None => None
       end
     else None) = Some (k, r) →
    0 ≤ k ≤ Z.of_nat ei ∧ r = regs_before evs (Z.to_nat (k + 1))).
  { simpl. destruct (0 <=? best_key (_regs_cache c) ei) eqn:E; [|done].
    apply Z.leb_le in E.
    destruct (od_get _ _) as [r'|] eqn:Eg; [|done]. intros ?; simplify_eq.
    destruct (best_key_bound (_regs_cache c) ei) as [?|?]; [lia|].
    split; [done|]. by apply Hcached. }
  destruct ((0 <=? recent) && (0 <? Z.abs (Z.of_nat ei - recent))
            && (Z.abs (Z.of_nat ei - recent) <? 100)) eqn:Eseq; [|done].
  destruct (od_get (_regs_cache c) (Z.to_nat recent)) as [r'|] eqn:Er;
    [|done].
  destruct (recent <=? Z.of_nat ei) eqn:Ele; [|done].
  intros ?; simplify_eq. split; [lia|]. apply Hcached; [lia|done].
Qed.

Lemma start_from_checkpoint_spec ei :
  (ei < length evs)%nat →
  let rs := start_from_checkpoint P ei in
  0 ≤ rs.2 ≤ Z.of_nat ei
  ∧ (rs.1 = regs_before evs (Z.to_nat rs.2)
     ∨ rs.1 = regs_before evs (S (Z.to_nat rs.2))).
Proof.
  intros Hei. unfold start_from_checkpoint. fold evs. simpl.
  destruct (lookup_lt_is_Some_2 evs ei Hei) as [tev Htev]. rewrite Htev.
  simpl.
  match goal with |- context [latest_checkpoint ?l ?t ?a] =>
    pose proof (latest_checkpoint_spec l t a) as Hspec;
    set (cl := latest_checkpoint l t a) in * end.
  destruct (_reg_checkpoints P !! cl) as [m|] eqn:Em; simpl.
  - destruct (pok_checkpoints P HP cl m Em) as (k & ev & Hk & Hln & ->).
    fold evs in Hk |- *.
    assert (cl ≤ line_no tev)%nat as Hcl.
    { destruct Hspec as [->|[_ ?]]; lia. }
    assert (k ≤ ei)%nat as Hkei.
    { destruct (decide (k ≤ ei)%nat); [done|exfalso].
      assert (ei < k)%nat as Hlt by lia.
      apply (lines_lt P HP _ _ _ _ Htev Hk) in Hlt. lia. }
    destruct (cl =? 0)%nat eqn:E0.
    + apply Nat.eqb_eq in E0. split; [lia|right].
      assert (k = 0)%nat as ->; [|done].
      destruct k as [|k]; [done|exfalso].
      destruct (lookup_lt_is_Some_2 evs 0 ltac:(lia)) as [e0 He0].
      assert (0 < S k)%nat as Hlt by lia.
      apply (lines_lt P HP _ _ _ _ He0 Hk) in Hlt. lia.
    + rewrite <- Hln.
      rewrite (first_at_line_spec P HP k ev _ 0 _ Hk);
        [|try apply lookup_lt_Some in Hk; unfold evs in *; lia..].
      rewrite Nat2Z.id. split; [lia|by right].
  - assert (cl = 0)%nat as ->.
    { destruct Hspec as [?|[Hin _]]; [done|].
      exfalso. rewrite merge_sort_Permutation in Hin.
      apply elem_of_elements, elem_of_dom in Hin as [x Hx].
      by rewrite Hx in Em. }
    simpl. split; [lia|by left].
Qed.

Lemma replay_start_cases c ei :
  regs_cache_ok evs (_regs_cache c) → (ei < length evs)%nat →
  let rs := replay_start P c ei in
  0 ≤ rs.2 ≤ Z.of_nat ei + 1
  ∧ (rs.1 = regs_before evs (Z.to_nat rs.2)
     ∨ (rs.2 ≤ Z.of_nat ei
        ∧ rs.1 = regs_before evs (S (Z.to_nat rs.2)))).
Proof.
  intros Hc Hei. unfold replay_start.
  destruct (start_from_cache c ei) as [[k r]|] eqn:E.
  - apply start_from_cache_spec in E as [Hk ->]; [|done]. simpl.
    split; [lia|by left].
  - destruct (start_from_checkpoint_spec ei Hei) as [H1 [H2|H2]].
    + split; [lia|by left].
    + split; [lia|right]. split; [lia|done].
Qed.

(** Contract of the reconstructor: whatever the cache holds, the
    answer is the replay of the trace up to the (clamped) index, and
    the cache keeps holding true states. *)
Lemma reconstruct_regs_at_spec c i :
  events P ≠ [] → regs_cache_ok evs (_regs_cache c) →
  (reconstruct_regs_at P c i).1
  = regs_after evs (clamp_index i (length evs))
  ∧ regs_cache_ok evs (_regs_cache (reconstruct_regs_at P c i).2)
  ∧ _effaddr_cache (reconstruct_regs_at P c i).2 = _effaddr_cache c.
Proof.
  intros Hne Hc. unfold reconstruct_regs_at. fold evs.
  rewrite bool_decide_eq_false_2 by done.
  change (Z.to_nat (0 `max` (i `min` (Z.of_nat (length evs) - 1))))
    with (clamp_index i (length evs)).
  set (ei := clamp_index i (length evs)).
  assert (ei < length evs)%nat as Hei.
  { subst ei. unfold clamp_index, evs. destruct (events P); [done|].
    simpl length. lia. }
  destruct (od_get (_regs_cache c) ei) as [cached|] eqn:Eg; simpl.
  { apply od_get_elem in Eg as Hin. destruct (Hc _ _ Hin) as [_ ->].
    split_and!; [done| |done].
    intros k m Hk%od_move_to_end_elem. by apply Hc. }
  pose proof (replay_start_cases c ei Hc Hei) as Hrs.
  destruct (replay_start P c ei) as [rg0 start]. simpl in Hrs.
  destruct Hrs as (Hstart & Hrg0).
  set (s := Z.to_nat start).
  replace (Z.to_nat (Z.of_nat ei + 1 - start)) with (S ei - s)%nat by lia.
  assert (∀ mid should,
    (replay_loop evs (seq s (S ei - s)) mid should rg0 (_regs_cache c)
       false).1 = regs_after evs ei
    ∧ regs_cache_ok evs
        (replay_loop evs (seq s (S ei - s)) mid should rg0 (_regs_cache c)
           false).2) as Hloop.
  { intros mid should. rewrite regs_after_before.
    destruct Hrg0 as [Hrg0|[Hle Hrg0]].
    - replace (regs_before evs (S ei))
        with (regs_before evs (s + (S ei - s))) by (f_equal; lia).
      apply replay_loop_spec; [unfold evs in *; lia|done|done].
    - replace (S ei - s)%nat with (S (ei - s)) by lia.
      replace (regs_before evs (S ei))
        with (regs_before evs (s + S (ei - s))) by (f_equal; lia).
      apply replay_loop_spec_again; [unfold evs in *; lia|done|done]. }
  match goal with |- context [replay_loop evs _ ?mid ?should _ _ _] =>
    destruct (Hloop mid should) as [H1 H2];
    destruct (replay_loop evs _ mid should _ _ _) as [rg cache1] end.
  simpl in *. subst rg. split_and!; [done| |done].
  intros k m [?|Hin]%od_set_trim_elem; [by simplify_eq|by apply H2].
Qed.

End ReconstructorSpec.

Section Resolver.
Variable P : TraceParser.
Hypothesis HP : parser_ok P.

Lemma clamp_index_in_range i n :
  (i < n)%nat → clamp_index (Z.of_nat i) n = i.
Proof. unfold clamp_index. lia. Qed.

Lemma caches_ok_regs c :
  caches_ok P c → regs_cache_ok (events P) (_regs_cache c).
Proof. intros [H _]. exact H. Qed.

Lemma reconstruct_regs_at_ok c i :
  caches_ok P c → caches_ok P (reconstruct_regs_at P c i).2.
Proof.
  intros Hc. destruct (decide (events P = [])) as [He|He].
  - unfold reconstruct_regs_at. by rewrite bool_decide_eq_true_2.
  - destruct (reconstruct_regs_at_spec P HP c i He (caches_ok_regs c Hc))
      as (_ & H1 & H2).
    split; [exact H1|]. rewrite H2. apply Hc.
Qed.

Lemma effaddr_cache_ok_set c ec k v :
  caches_ok P c → _regs_cache c = _regs_cache c →
  (∀ x, x ∈ ec → x = (k, v) ∨ x ∈ _effaddr_cache c) →
  (∀ a, v = Some a → effective_address_at (events P) k = Some a) →
  caches_ok P (with_effaddr_cache c ec).
Proof.
  intros [H1 H2] _ Hec Hv. split; [exact H1|]. simpl.
  intros k' v' Hin. destruct (Hec _ Hin) as [Heq|Hold].
  - simplify_eq. by apply Hv.
  - by apply H2.
Qed.

(** Contract of the resolver: whatever the caches hold, the answer is
    the textual path evaluated on the registers after the event. *)
Lemma effective_address_spec c i :
  caches_ok P c →
  (effective_address P c i).1
  = (if (i <? 0) || (Z.of_nat (length (events P)) <=? i) then None
     else effective_address_at (events P) (Z.to_nat i))
  ∧ caches_ok P (effective_address P c i).2.
Proof.
  intros Hc. unfold effective_address.
  destruct ((i <? 0) || (Z.of_nat (length (events P)) <=? i)) eqn:Er;
    [done|].
  apply orb_false_iff in Er as [Hi0%Z.ltb_ge Hin%Z.leb_gt].
  destruct (lookup_lt_is_Some_2 (events P) (Z.to_nat i) ltac:(lia))
    as [ev Hev].
  assert (Hmiss :
    (let r :=
       match events P !! Z.to_nat i with
       | None => (None, c)
       | Some ev =>
          let a := Py.lower (asm ev) in
          if negb (is_ldr_or_str a) then (None, c)
          else
            match effaddr ev with
            | Some pre =>
                (Some pre,
                 with_effaddr_cache c
                   (od_set (_effaddr_cache c) (Z.to_nat i) (Some pre)))
            | None =>
                match parse_addr_expr a with
                | None => (None, c)
                | Some ae =>
                    let '(rg, c1) := reconstruct_regs_at P c i in
                    let cap := _effaddr_cache_cap P in
                    match eval_addr_expr ae rg with
                    | AddrFound v =>
                        (Some v,
                         with_effaddr_cache c1
                           (od_set_trim cap (_effaddr_cache c1)
                              (Z.to_nat i) (Some v)))
                    | AddrSimple v =>
                        (Some v,
                         with_effaddr_cache c1
                           (od_set (_effaddr_cache c1) (Z.to_nat i) (Some v)))
                    | AddrNoBase => (None, c1)
                    | AddrUnparsed =>
                        (None,
                         with_effaddr_cache c1
                           (od_set_trim cap (_effaddr_cache c1)
                              (Z.to_nat i) None))
                    end
                end
            end
       end in
     r.1 = effective_address_at (events P) (Z.to_nat i)
     ∧ caches_ok P r.2)).
  { rewrite Hev. unfold effective_address_at. rewrite Hev. simpl.
    destruct (is_ldr_or_str (Py.lower (asm ev))) eqn:Els; simpl; [|done].
    destruct (effaddr ev) as [pre|] eqn:Epre; simpl.
    { split.
      - symmetry. pose proof (pok_effaddr P HP _ _ _ Hev Els Epre) as H.
        unfold effective_address_at in H. by rewrite Hev, Els in H.
      - apply (effaddr_cache_ok_set c _ (Z.to_nat i) (Some pre));
          [done|done|apply od_set_elem|].
        intros a ?; simplify_eq. by apply (pok_effaddr P HP _ ev). }
    unfold eff_of_regs.
    destruct (parse_addr_expr (Py.lower (asm ev))) as [ae|] eqn:Eae; [|done].
    assert (events P ≠ []) as Hne.
    { intros E. by rewrite E in Hev. }
    destruct (reconstruct_regs_at_spec P HP c i Hne (caches_ok_regs c Hc))
      as (Hrg & _).
    pose proof (reconstruct_regs_at_ok c i Hc) as Hc1.
    destruct (reconstruct_regs_at P c i) as [rg c1]. simpl in Hrg, Hc1.
    replace (clamp_index i (length (events P))) with (Z.to_nat i) in Hrg
      by (unfold clamp_index; lia).
    subst rg.
    assert (Hval : ∀ a,
      outcome_value (eval_addr_expr ae
        (regs_after (events P) (Z.to_nat i))) = Some a →
      effective_address_at (events P) (Z.to_nat i) = Some a).
    { intros a Ha. unfold effective_address_at, eff_of_regs.
      by rewrite Hev, Els, Eae. }
    destruct (eval_addr_expr ae _) eqn:Eo; simpl in *;
      (split; [done|]).
    - apply (effaddr_cache_ok_set c1 _ (Z.to_nat i) (Some v));
        [done|done|apply od_set_trim_elem|].
      intros a ?; simplify_eq. by apply Hval.
    - apply (effaddr_cache_ok_set c1 _ (Z.to_nat i) (Some v));
        [done|done|apply od_set_elem|].
      intros a ?; simplify_eq. by apply Hval.
    - done.
    - apply (effaddr_cache_ok_set c1 _ (Z.to_nat i) None);
        [done|done|apply od_set_trim_elem|done]. }
  destruct (od_get (_effaddr_cache c) (Z.to_nat i)) as [[cached|]|] eqn:Eg.
  - simpl. apply od_get_elem in Eg as Hcached.
    split; [symmetry; by apply Hc|].
    destruct Hc as [H1 H2]. split; [exact H1|]. simpl.
    intros k v Hk%od_move_to_end_elem. by apply H2.
  - exact Hmiss.
  - exact Hmiss.
Qed.

Lemma effective_address_ok c i :
  caches_ok P c → caches_ok P (effective_address P c i).2.
Proof. intros Hc. by apply effective_address_spec. Qed.

Lemma caches_ok_init : caches_ok P caches_init.
Proof. split; simpl; intros ? ? H; by apply elem_of_nil in H. Qed.

(** Every cache state the parser can reach holds true entries only. *)
Lemma reachable_ok c : reachable P c → caches_ok P c.
Proof.
  induction 1 as [|c i _ IH|c i _ IH].
  - apply caches_ok_init.
  - by apply reconstruct_regs_at_ok.
  - by apply effective_address_ok.
Qed.

End Resolver.

Lemma lines_increasing_same evs evs' :
  Forall2 same_insn evs evs' → lines_increasing evs → lines_increasing evs'.
Proof.
  unfold lines_increasing. intros H. induction H as [|e e' l l' He Hl IH].
  { done. }
  rewrite !StronglySorted_cons. intros [Hall Hs]. split; [|by apply IH].
  rewrite Forall_forall in Hall |- *. intros x' Hx'.
  apply list_elem_of_lookup in Hx' as [j Hj].
  destruct (Forall2_lookup_r _ _ _ _ _ Hl Hj) as (x & Hx & Hxx').
  destruct He as (_ & _ & _ & <-). destruct Hxx' as (_ & _ & _ & <-).
  apply Hall. by eapply list_elem_of_lookup_2.
Qed.

(** A parsed trace satisfies what the reconstructor and the resolver rely
    on. *)
Lemma parse_events_ok interval lexed P :
  parse_events interval lexed = Some P → lines_increasing lexed →
  parser_ok P.
Proof.
  intros Hp Hl. pose proof (parse_events_same _ _ _ Hp) as Hs.
  destruct (parse_events_spec _ _ _ Hp) as (evs' & Han & Hev & _ & Hck).
  split.
  - by eapply lines_increasing_same.
  - exact Hck.
  - intros i ev a Hi Hls Ha. rewrite Hev in Hi.
    apply imap_lookup_Some in Hi as (e & He & ->).
    destruct (same_insn_precomputed evs' i e) as [Hasm _].
    rewrite <- Hasm in Hls. unfold precomputed in Ha. rewrite Hls in Ha.
    simpl in Ha. rewrite <- Ha. symmetry.
    apply effective_address_at_same. rewrite Hev.
    apply imap_Forall2. intros. apply same_insn_precomputed.
Qed.

(** C6: in a parsed trace, whatever state the caches are in (empty, or
    left by any sequence of earlier queries, so that the answer comes
    from a cache hit, from the sequential shortcut, or from a replay that
    starts at a cached state, a checkpoint or the empty map), the map
    returned by [reconstruct_regs_at] for event [i] gives every register
    written by event [i] its written value. *)
Theorem regs_at_includes_writes interval lexed P c i ev k v :
  parse_events interval lexed = Some P → lines_increasing lexed →
  reachable P c →
  events P !! i = Some ev → dict_wf (writes ev) → (k, v) ∈ writes ev →
  (reconstruct_regs_at P c (Z.of_nat i)).1 !! k = Some v.
Proof.
  intros Hp Hl Hr Hi Hwf Hin.
  pose proof (parse_events_ok _ _ _ Hp Hl) as HP.
  pose proof (reachable_ok P HP c Hr) as Hc.
  assert (events P ≠ []) as Hne by (intros E; by rewrite E in Hi).
  destruct (reconstruct_regs_at_spec P HP c (Z.of_nat i) Hne
              (caches_ok_regs P c Hc)) as (-> & _).
  rewrite clamp_index_in_range by (by eapply lookup_lt_Some).
  by eapply regs_after_written.
Qed.

Lemma S1_lines : lines_increasing S1_trace.
Proof. unfold lines_increasing, S1_trace. repeat constructor; simpl; lia. Qed.

Lemma regs_at_includes_writes_witness :
  ∃ P, parse_events 2000 S1_trace = Some P
       ∧ (reconstruct_regs_at P (reconstruct_regs_at P caches_init 3).2 4).1
         !! "r4" = Some 0x1235.
Proof.
  eexists. split; [vm_compute; reflexivity|].
  eapply (regs_at_includes_writes 2000 S1_trace _ _ 4 _ "r4" 0x1235).
  - vm_compute; reflexivity.
  - exact S1_lines.
  - apply reach_regs, reach_init.
  - vm_compute; reflexivity.
  - unfold dict_wf. vm_compute. repeat constructor. by intros ?%elem_of_nil.
  - vm_compute. by left.
Defined.

Section OperandValues.

Lemma setdefault_all_lookup m d k :
  is_Some (m !! k) ∨ k ∉ keys d → setdefault_all m d !! k = m !! k.
Proof.
  revert m. induction d as [|[k' v'] d IH]; intros m H; simpl; [done|].
  unfold keys in *. simpl in H.
  destruct (m !! k') eqn:E.
  - apply IH. destruct H as [H|H]; [by left|right].
    by apply not_elem_of_cons in H as [_ ?].
  - destruct (decide (k' = k)) as [->|Hne].
    + destruct H as [[x Hx]|H]; [congruence|].
      apply not_elem_of_cons in H as [? _]. done.
    + rewrite IH; [by rewrite lookup_insert_ne|].
      destruct H as [H|H]; [left; by rewrite lookup_insert_ne|right].
      by apply not_elem_of_cons in H as [_ ?].
Qed.

(** A register that an event does not write, and that was known before
    or is not among its reads, keeps its value across the event. *)
Lemma regs_after_unwritten evs i ev r :
  evs !! S i = Some ev → r ∉ keys (writes ev) →
  is_Some (regs_after evs i !! r) ∨ r ∉ keys (reads ev) →
  regs_after evs (S i) !! r = regs_after evs i !! r.
Proof.
  intros Hi Hw Hr.
  rewrite (regs_after_before evs (S i)), (regs_before_S _ _ _ Hi).
  unfold _apply_writes. rewrite update_all_not_key by done.
  by apply setdefault_all_lookup.
Qed.

(** [setdefault] keeps a known value and otherwise takes the first
    binding of the key. *)
Lemma setdefault_all_get m d k :
  setdefault_all m d !! k
  = match m !! k with Some v => Some v | None => dict_get d k end.
Proof.
  revert m. induction d as [|[k' v'] d IH]; intros m; simpl.
  { by destruct (m !! k). }
  destruct (m !! k') eqn:E.
  - rewrite IH. destruct (m !! k) eqn:Ek; [done|].
    rewrite bool_decide_eq_false_2; [done|]. intros ->. congruence.
  - rewrite IH. destruct (decide (k' = k)) as [->|Hne].
    + rewrite lookup_insert_eq, E. by rewrite bool_decide_eq_true_2.
    + rewrite lookup_insert_ne by done.
      by rewrite bool_decide_eq_false_2.
Qed.

Lemma eval_addr_expr_agree ae rg rg' :
  (∀ r, r ∈ addr_operands ae → getv rg r = getv rg' r) →
  eval_addr_expr ae rg = eval_addr_expr ae rg'.
Proof.
  intros H. unfold eval_addr_expr.
  rewrite (H (ae_base ae)), (H (ae_index ae)), (H (ae_expr ae));
    [done|unfold addr_operands; set_solver..].
Qed.

End OperandValues.

(** C2, as the specification words it, fails: in scenario S1 the base
    register [r2] of the store at index 2 is absent from the state before
    the event, yet the resolver returns its address, because it reads the
    state reconstructed at the event itself, which the event's own reads
    have filled in. *)
Lemma base_absent_before_yet_resolved :
  ∃ P, parse_events 2000 S1_trace = Some P
       ∧ (reconstruct_regs_at P caches_init 1).1 !! "r2" = None
       ∧ (effective_address P caches_init 2).1 = Some 0x9000
       ∧ (effective_address (parser_of_events S1_trace) caches_init 2).1
         = Some 0x9000.
Proof. eexists. split; [vm_compute; reflexivity|]. by vm_compute. Qed.

(** C2 (amended): for a load or store event [i] of a parsed trace that
    writes none of the registers its bracketed expression names, the
    resolver evaluates the expression on the state the event executes
    in: the register map of event [i - 1] (the empty map for the first
    event), completed with the registers event [i] itself reads.  It
    returns [None] when the base register is neither known before the
    event nor among its reads; and when each register of the expression
    is known before the event or not read by it, the address is the one
    the state before the event gives.  The caches may be in any state
    that queries can leave them in. *)
Theorem effective_address_uses_state_before interval lexed P c c' i ev ae :
  parse_events interval lexed = Some P → lines_increasing lexed →
  reachable P c → reachable P c' →
  events P !! i = Some ev → is_ldr_or_str (Py.lower (asm ev)) = true →
  parse_addr_expr (Py.lower (asm ev)) = Some ae →
  (∀ r, r ∈ addr_operands ae → Py.lower (Py.strip r) ∉ keys (writes ev)) →
  let before := if (i =? 0)%nat then ∅
                else (reconstruct_regs_at P c' (Z.of_nat (i - 1))).1 in
  let entering := setdefault_all before (reads ev) in
  (effective_address P c (Z.of_nat i)).1
  = outcome_value (eval_addr_expr ae entering)
  ∧ (getv before (ae_base ae) = None →
     dict_get (reads ev) (Py.lower (Py.strip (ae_base ae))) = None →
     (effective_address P c (Z.of_nat i)).1 = None)
  ∧ ((∀ r, r ∈ addr_operands ae →
        is_Some (getv before r) ∨ Py.lower (Py.strip r) ∉ keys (reads ev)) →
     (effective_address P c (Z.of_nat i)).1
     = outcome_value (eval_addr_expr ae before)).
Proof.
  intros Hp Hl Hr Hr' Hi Hls Hae Hw before entering.
  pose proof (parse_events_ok _ _ _ Hp Hl) as HP.
  pose proof (reachable_ok P HP c Hr) as Hc.
  pose proof (reachable_ok P HP c' Hr') as Hc'.
  assert (events P ≠ []) as Hne by (intros E; by rewrite E in Hi).
  pose proof (lookup_lt_Some _ _ _ Hi) as Hlt.
  assert (before = regs_before (events P) i) as Hbefore.
  { unfold before. destruct i as [|i]; [done|]. simpl.
    rewrite Nat.sub_0_r.
    destruct (reconstruct_regs_at_spec P HP c' (Z.of_nat i) Hne
                (caches_ok_regs P c' Hc')) as (-> & _).
    rewrite clamp_index_in_range by lia. apply regs_after_before. }
  assert (Hsame : ∀ r, r ∈ addr_operands ae →
            getv (regs_after (events P) i) r = getv entering r).
  { intros r Hrin. unfold getv, entering. rewrite Hbefore.
    rewrite regs_after_before, (regs_before_S _ _ _ Hi).
    unfold _apply_writes. by rewrite update_all_not_key by (by apply Hw). }
  assert ((effective_address P c (Z.of_nat i)).1
          = outcome_value (eval_addr_expr ae entering)) as Heq.
  { destruct (effective_address_spec P HP c (Z.of_nat i) Hc) as [Heff _].
    rewrite (proj2 (orb_false_iff _ _)) in Heff
      by (split; [apply Z.ltb_ge|apply Z.leb_gt]; lia).
    rewrite Nat2Z.id in Heff. rewrite Heff.
    unfold effective_address_at, eff_of_regs. rewrite Hi, Hls, Hae.
    f_equal. by apply eval_addr_expr_agree. }
  split; [exact Heq|]. split.
  - intros Hb Hd. rewrite Heq. unfold eval_addr_expr.
    assert (getv entering (ae_base ae) = None) as ->.
    { unfold getv, entering in *. by rewrite setdefault_all_get, Hb. }
    by destruct (Py.is_empty (ae_base ae)).
  - intros Hops. rewrite Heq. f_equal.
    apply eval_addr_expr_agree. intros r Hrin. unfold getv, entering.
    apply setdefault_all_lookup. by apply Hops.
Qed.

(** The store of scenario S1: its base [r2] is unknown before the event
    and comes from the event's own reads. *)
Lemma effective_address_uses_state_before_witness :
  ∃ P, parse_events 2000 S1_trace = Some P
       ∧ (effective_address P caches_init 2).1
         = eff_of_regs "str r0, [r2]"
             (setdefault_all (reconstruct_regs_at P caches_init 1).1
                [("r0", 0x1234); ("r2", 0x9000)]).
Proof.
  eexists. split; [vm_compute; reflexivity|].
  match goal with |- context [effective_address ?P] =>
    edestruct (effective_address_uses_state_before 2000 S1_trace P
                 caches_init caches_init 2%nat) as (H & _ & _) end.
  - vm_compute; reflexivity.
  - exact S1_lines.
  - apply reach_init.
  - apply reach_init.
  - vm_compute; reflexivity.
  - vm_compute; reflexivity.
  - vm_compute; reflexivity.
  - intros r _. vm_compute. by intros ?%elem_of_nil.
  - change (Z.of_nat 2) with 2 in H. rewrite H. vm_compute. reflexivity.
Defined.

(** The self-overwriting load of the claim, outside the amended
    statement: the resolver answers with the value the load wrote to its
    base, not with the one the base held when the access was made, which
    is what its own comments on write-back forms call for. *)
Lemma own_base_uses_written_value :
  (reconstruct_regs_at (parser_of_events own_base_trace) caches_init 0).1
    !! "r1" = Some 0x1000
  ∧ (effective_address (parser_of_events own_base_trace) caches_init 1).1
    = Some 0x2000.
Proof. by vm_compute. Qed.

(** On scenario S1 the engine does not return the list of the claim. *)
Lemma S1_hits_include_the_move :
  ∃ P, parse_events 2000 S1_trace = Some P
       ∧ taint_forward P 0 [] [0x8000] false 120000 true false
         ≠ [0; 2; 3; 4]%nat.
Proof. eexists. split; [vm_compute; reflexivity|]. by vm_compute. Qed.

(** An immediate write that nothing tainted feeds marks its event as
    used, whether or not the register it overwrites was tainted. *)
Lemma immediate_write_marks_used P i ev a M T used rd :
  _is_constant_zero_write ev rd = false →
  existsb (reg_tainted T) (keys (reads ev)) || load_hit P i a M = false →
  _is_immediate_write ev rd = true →
  (fwd_write P i ev a M (T, used) rd).2 = true.
Proof.
  intros Hz Hp Hi. unfold fwd_write. rewrite Hz, Hp, Hi. simpl.
  unfold _alias_names. repeat case_match; simpl; apply orb_true_r.
Qed.

(** C1: on the five-event trace of scenario S1, [taint_forward] started
    at index 0 with tainted memory {0x8000} and no tainted register
    returns [0, 1, 2, 3, 4] where the claim has [0, 2, 3, 4]: the code
    reports index 1, the immediate write [mov r1, #0x100], although the
    event touches no taint, because the immediate-write branch sets
    [used] for every alias of the destination, outside its test on the
    tainted set.  The code departs here from its own description of a
    hit as an event that involves taint. *)
Theorem S1_forward_hits :
  (fun P => taint_forward P 0 [] [0x8000] false 120000 true false)
    <$> parse_events 2000 S1_trace
  = Some [0; 1; 2; 3; 4]%nat.
Proof. vm_compute. reflexivity. Qed.

(** C4 on a failing input: the double-word store [strd r0, r1, [r2]]
    gets [mem_width] 4 from the precomputation, so the store-address
    index lists it under 0x9000..0x9003 only, while the taint engine's
    own width for the same instruction is 8. *)
Theorem strd_precomputed_width_is_4 :
  ∃ P, parse_events 2000 strd_trace = Some P
       ∧ mem_width <$> events P = [4]
       ∧ effaddr <$> events P = [Some 0x9000]
       ∧ _get_mem_access_width "strd r0, r1, [r2]" = 8
       ∧ store_addr_index P !! 0x9003 = Some [0%nat]
       ∧ store_addr_index P !! 0x9004 = None.
Proof. eexists. split; [vm_compute; reflexivity|]. by vm_compute. Qed.

Section BackwardUntouched.
Variable P : TraceParser.
Variable reg : string.

Lemma rev_is_reverse {A} (l : list A) : rev l = reverse l.
Proof. unfold reverse. apply rev_alt. Qed.

Lemma rev_filter_rev {A} (f : A → Prop) `{∀ x, Decision (f x)} (l : list A) :
  rev (filter f (rev l)) = filter f l.
Proof.
  by rewrite !rev_is_reverse, filter_reverse, reverse_involutive.
Qed.

Lemma check_memory_tainted_empty eff w :
  _check_memory_tainted ∅ eff w = false.
Proof.
  unfold _check_memory_tainted. induction (offsets w) as [|o l IH]; [done|].
  simpl. by rewrite IH.
Qed.

Lemma back_writes_untouched emt i ev a l T M Term used :
  existsb (live_alias T Term) l = false →
  foldl (back_write P emt i ev a) (T, M, Term, used) l = (T, M, Term, used).
Proof.
  induction l as [|rd l IH]; simpl; [done|].
  intros [Hrd Hl]%orb_false_iff. rewrite Hrd. by apply IH.
Qed.

(** An event that writes neither the target nor an alias of it leaves
    the engine's state alone and is a hit exactly when it reads one. *)
Lemma back_event_untouched emt i ev :
  existsb (names_target reg) (keys (writes ev)) = false →
  back_event P emt i ev (back_target reg) ∅ ∅
  = (back_target reg, ∅, ∅, existsb (names_target reg) (keys (reads ev))).
Proof.
  intros Hw. unfold back_event.
  rewrite back_writes_untouched by exact Hw. simpl.
  destruct (emt && Py.startswith (Py.lower (asm ev)) "str"); [|done].
  destruct (effective_address_at (events P) i); [|done].
  by rewrite check_memory_tainted_empty.
Qed.

Lemma back_loop_untouched ms emt bc idxs st :
  b_tainted_regs st = back_target reg → b_tainted_mem st = ∅ →
  b_terminated_regs st = ∅ →
  (∀ j, j ∈ idxs → (j < length (events P))%nat
                   ∧ event_writes_target P reg j = false) →
  b_steps st + Z.of_nat (length idxs) ≤ ms →
  b_hits (back_loop P false ms emt bc idxs st)
  = b_hits st
    ++ filter (fun j => event_reads_target P reg j = true) idxs.
Proof.
  revert st. induction idxs as [|j idxs IH]; intros st HT HM HTerm Hidx Hms.
  { simpl. by rewrite app_nil_r. }
  simpl in Hms |- *. rewrite (proj2 (Z.leb_gt _ _)) by lia.
  destruct (Hidx j ltac:(by left)) as [Hj Hw].
  destruct (lookup_lt_is_Some_2 _ _ Hj) as [ev Hev]. rewrite Hev. simpl.
  unfold event_writes_target in Hw. rewrite Hev in Hw.
  rewrite HT, HM, HTerm, (back_event_untouched emt j ev Hw).
  rewrite IH; simpl; [|done|done|done| |lia].
  - assert (event_reads_target P reg j
            = existsb (names_target reg) (keys (reads ev))) as Hr.
    { unfold event_reads_target. by rewrite Hev. }
    rewrite filter_cons, Hr.
    destruct (existsb (names_target reg) (keys (reads ev)));
      case_decide; try done.
    by rewrite <- app_assoc.
  - intros j' Hj'. apply Hidx. by right.
Qed.

End BackwardUntouched.

(** C3, as the specification words it, fails: started from the read of
    [r0] at index 3 of a trace that never writes [r0], the classifier
    does not return the parameter tag, and the walk goes on to index 0,
    where [r0] is read as well: two hits, not one. *)
Lemma backward_walk_does_not_stop :
  ∃ P, parse_events 2000 param_trace = Some P
       ∧ (∀ j, (j ≤ 3)%nat → event_writes_target P "r0" j = false)
       ∧ event_reads_target P "r0" 3 = true
       ∧ _check_backward_termination P 3 "r0" ≠ Some TagParameter
       ∧ taint_backward P 3 "r0" None false 100000 true ≠ [3%nat].
Proof.
  eexists. split; [vm_compute; reflexivity|]. split_and!; try by vm_compute.
  intros j Hj. do 4 (destruct j as [|j]; [by vm_compute|]). lia.
Qed.

(** C3 (amended): when no event at or before the start event writes the
    target register or an alias of it, the classifier is never consulted
    and the walk runs down to index 0: the hits are exactly the events
    up to the start that read the target or an alias of it, in ascending
    order (the start event alone when no earlier event reads it); and at
    an index of 50 or less the classifier never answers with the
    parameter tag. *)
Theorem backward_from_unwritten_register P s reg tv ms emt :
  (s < length (events P))%nat → Z.of_nat s < ms →
  (∀ j, (j ≤ s)%nat → event_writes_target P reg j = false) →
  taint_backward P (Z.of_nat s) reg tv false ms emt
  = filter (fun j => event_reads_target P reg j = true) (seq 0 (S s))
  ∧ ((s ≤ 50)%nat →
     ∀ j r, (j ≤ s)%nat → _check_backward_termination P j r ≠ Some TagParameter).
Proof.
  intros Hs Hms Hw. split.
  - unfold taint_backward.
    rewrite bool_decide_eq_false_2
      by (intros E; rewrite E in Hs; simpl in Hs; lia).
    unfold back_run. rewrite clamp_index_in_range by done.
    rewrite (back_loop_untouched P reg); try done.
    + simpl. unfold down_from. apply rev_filter_rev.
    + intros j Hj. unfold down_from in Hj.
      apply list_elem_of_In, in_rev, list_elem_of_In, elem_of_seq in Hj.
      split; [lia|]. apply Hw. lia.
    + simpl. unfold down_from. rewrite length_rev, length_seq. lia.
  - intros H50 j r Hj. unfold _check_backward_termination.
    destruct (events P !! j) as [ev|]; [|done].
    repeat case_match; try done.
    match goal with H : _ && (50 <? j)%nat && _ = true |- _ =>
      apply andb_true_iff in H as [[_ H%Nat.ltb_lt]%andb_true_iff _] end.
    lia.
Qed.

Lemma backward_from_unwritten_register_witness :
  ∃ P, parse_events 2000 param_trace = Some P
       ∧ taint_backward P 3 "r0" None false 100000 true = [0; 3]%nat.
Proof.
  eexists. split; [vm_compute; reflexivity|].
  match goal with |- taint_backward ?P _ _ _ _ _ _ = _ =>
    destruct (backward_from_unwritten_register P 3%nat "r0" None 100000 true)
      as [H _] end.
  - vm_compute. lia.
  - lia.
  - intros j Hj. do 4 (destruct j as [|j]; [by vm_compute|]). lia.
  - change (Z.of_nat 3) with 3 in H. rewrite H. by vm_compute.
Defined.

(** C7: the hit lists returned by [taint_forward] and by [taint_backward]
    are strictly ascending by event index: the forward loop visits the
    indices upwards and the closing pass drops nothing from a list
    without repeats; the backward loop visits them downwards and its
    list is reversed before it is returned. *)
Theorem hit_lists_ascending P start_idx srcs mems target tv sco ms emt eif :
  StronglySorted lt (taint_forward P start_idx srcs mems sco ms emt eif)
  ∧ StronglySorted lt (taint_backward P start_idx target tv sco ms emt).
Proof.
  split.
  - unfold taint_forward. case_bool_decide; [constructor|].
    assert (StronglySorted lt
      (hits (fwd_run P start_idx srcs mems sco ms))) as Hs.
    { apply fwd_loop_hits_sorted. simpl. apply seq_sorted. }
    by rewrite dedup_sorted.
  - unfold taint_backward. case_bool_decide; [constructor|].
    apply (sorted_rev_flip (flip lt)).
    apply back_loop_hits_sorted. simpl.
    apply (sorted_rev_flip lt), seq_sorted.
Qed.

(** C10: at every point of a run of [taint_forward], the tainted register
    set holds both halves of an [xN]/[wN] pair or neither, for every
    register number [N] (those from 0 to 30 in particular): the sources
    are entered with their aliases and every later addition or removal
    goes through the aliases of the register it concerns. *)
Theorem taint_forward_alias_closed P start_idx srcs mems sco ms k :
  alias_closed (tainted_regs (fwd_state_after P start_idx srcs mems sco ms k))
  ∧ Forall (fun N : nat =>
              String "x" (pretty N)
                ∈ tainted_regs (fwd_state_after P start_idx srcs mems sco ms k)
              ↔ String "w" (pretty N)
                ∈ tainted_regs (fwd_state_after P start_idx srcs mems sco ms k))
           (seq 0 31).
Proof.
  assert (alias_closed
    (tainted_regs (fwd_state_after P start_idx srcs mems sco ms k))) as H.
  { unfold fwd_state_after. apply alias_closed_fwd_loop, alias_closed_fwd_init. }
  split; [exact H|].
  apply Forall_forall. intros N HN. apply H.
  assert (forallb (fun N : nat => Py.isdigit (pretty N)) (seq 0 31) = true)
    as Hd by (vm_compute; reflexivity).
  rewrite forallb_forall in Hd. apply Hd. by apply list_elem_of_In.
Qed.

(** The state the engine ends in is the state after all of its indices. *)
Lemma fwd_run_is_last_state P start_idx srcs mems sco ms :
  fwd_run P start_idx srcs mems sco ms
  = fwd_state_after P start_idx srcs mems sco ms (length (events P)).
Proof.
  unfold fwd_run, fwd_state_after. rewrite take_ge; [done|].
  rewrite length_seq. lia.
Qed.

Section Strings.
Implicit Types (s w t : string) (c : ascii).

Lemma lower_char_idemp c : Py.lower_char (Py.lower_char c) = Py.lower_char c.
Proof. by destruct c as [[] [] [] [] [] [] [] []]. Qed.

Lemma lower_idemp s : Py.lower (Py.lower s) = Py.lower s.
Proof.
  induction s as [|c s IH]; simpl; [done|]. by rewrite lower_char_idemp, IH.
Qed.


Lemma prefix_cons c w d s :
  String.prefix (String c w) (String d s) = true ↔
  c = d ∧ String.prefix w s = true.
Proof.
  simpl. destruct (ascii_dec c d) as [->|Hne]; [naive_solver|].
  split; [done|]. by intros [? _].
Qed.







End Strings.

Section ConstantZero.





End ConstantZero.

Section ZeroWriteEvent.
Variable P : TraceParser.





Lemma alias_names_ran rd : ran (_alias_names rd) = true.
Proof. unfold _alias_names. by repeat case_match. Qed.






End ZeroWriteEvent.




(** * Further properties of the register reconstructor and the resolver *)

Section ReplayFacts.
Implicit Types (m : regs) (d : dict) (evs : list TraceEvent).

Lemma regs_after_0 evs ev r :
  evs !! 0%nat = Some ev → r ∉ keys (writes ev) →
  regs_after evs 0 !! r = dict_get (reads ev) r.
Proof.
  intros Hi Hw. rewrite regs_after_before, (regs_before_S _ _ _ Hi).
  unfold _apply_writes. rewrite update_all_not_key by done.
  rewrite setdefault_all_get. unfold regs_before. simpl.
  by rewrite lookup_empty.
Qed.

Lemma regs_after_S_get evs i ev r :
  evs !! S i = Some ev → r ∉ keys (writes ev) →
  regs_after evs (S i) !! r
  = match regs_after evs i !! r with
    | Some v => Some v
    | None => dict_get (reads ev) r
    end.
Proof.
  intros Hi Hw. rewrite (regs_after_before evs (S i)), (regs_before_S _ _ _ Hi).
  unfold _apply_writes. rewrite update_all_not_key by done.
  by rewrite setdefault_all_get.
Qed.

Lemma regs_after_is_Some_S evs i ev r :
  evs !! S i = Some ev → is_Some (regs_after evs i !! r) →
  is_Some (regs_after evs (S i) !! r).
Proof.
  intros Hi Hs. rewrite (regs_after_before evs (S i)), (regs_before_S _ _ _ Hi).
  unfold _apply_writes. apply update_all_is_Some, setdefault_all_is_Some.
  by left.
Qed.

Lemma regs_after_is_Some_le evs i j r :
  (i ≤ j < length evs)%nat → is_Some (regs_after evs i !! r) →
  is_Some (regs_after evs j !! r).
Proof.
  intros [Hij Hj] Hs. induction Hij as [|j Hij IH]; [done|].
  destruct (lookup_lt_is_Some_2 evs (S j) Hj) as [ev Hev].
  apply (regs_after_is_Some_S _ _ ev); [done|]. apply IH. lia.
Qed.

Lemma regs_after_keeps evs i j r v :
  (i ≤ j < length evs)%nat → regs_after evs i !! r = Some v →
  (∀ k ev, (i < k ≤ j)%nat → evs !! k = Some ev → r ∉ keys (writes ev)) →
  regs_after evs j !! r = Some v.
Proof.
  intros [Hij Hj] Hv Hw. induction Hij as [|j Hij IH]; [done|].
  destruct (lookup_lt_is_Some_2 evs (S j) Hj) as [ev Hev].
  rewrite (regs_after_unwritten _ _ ev); [| done | |].
  - apply IH; [lia|]. intros k e Hk. apply Hw. lia.
  - apply (Hw (S j)); [lia|done].
  - left. rewrite IH; [by eexists|lia|]. intros k e Hk. apply Hw. lia.
Qed.

End ReplayFacts.

Section ParsedQueries.
Variables (interval : nat) (lexed : list TraceEvent) (P : TraceParser).
Hypothesis Hp : parse_events interval lexed = Some P.
Hypothesis Hl : lines_increasing lexed.

Lemma regs_at_replay c i :
  reachable P c → events P ≠ [] →
  (reconstruct_regs_at P c i).1
  = regs_after (events P) (clamp_index i (length (events P))).
Proof.
  intros Hr Hne.
  pose proof (parse_events_ok _ _ _ Hp Hl) as HP.
  pose proof (reachable_ok P HP c Hr) as Hc.
  by destruct (reconstruct_regs_at_spec P HP c i Hne
                 (caches_ok_regs P c Hc)) as (-> & _).
Qed.

Lemma regs_at_replay_nat c i :
  reachable P c → (i < length (events P))%nat →
  (reconstruct_regs_at P c (Z.of_nat i)).1 = regs_after (events P) i.
Proof.
  intros Hr Hi. rewrite regs_at_replay; [|done|].
  - by rewrite clamp_index_in_range.
  - intros E. rewrite E in Hi. simpl in Hi. lia.
Qed.

Lemma effective_address_replay c i :
  reachable P c →
  (effective_address P c i).1
  = (if (i <? 0) || (Z.of_nat (length (events P)) <=? i) then None
     else effective_address_at (events P) (Z.to_nat i)).
Proof.
  intros Hr.
  pose proof (parse_events_ok _ _ _ Hp Hl) as HP.
  pose proof (reachable_ok P HP c Hr) as Hc.
  by destruct (effective_address_spec P HP c i Hc) as [-> _].
Qed.

(** The precomputed field of a parsed event is the resolver's answer. *)
Lemma parsed_effaddr i ev :
  events P !! i = Some ev →
  effaddr ev = (if is_ldr_or_str (Py.lower (asm ev))
                then effective_address_at (events P) i else effaddr ev).
Proof.
  intros Hi. destruct (is_ldr_or_str (Py.lower (asm ev))) eqn:Els; [|done].
  destruct (parse_events_spec _ _ _ Hp) as (evs' & Han & Hev & _).
  rewrite Hev in Hi. apply imap_lookup_Some in Hi as (e & He & ->).
  destruct (same_insn_precomputed evs' i e) as [Hasm _].
  rewrite <- Hasm in Els. unfold precomputed. rewrite Els. simpl.
  apply effective_address_at_same. rewrite Hev.
  apply imap_Forall2. intros. apply same_insn_precomputed.
Qed.

End ParsedQueries.

Lemma eval_addr_expr_range ae rg a :
  outcome_value (eval_addr_expr ae rg) = Some a → 0 ≤ a < 2 ^ 32.
Proof.
  unfold eval_addr_expr. intros H.
  assert (∀ x, 0 ≤ Z.land x mask32 < 2 ^ 32) as Hm.
  { intros x. rewrite land_mask32. apply Z.mod_pos_bound. lia. }
  repeat case_match; simpl in H; simplify_eq; apply Hm.
Qed.

Lemma effective_address_at_range evs i a :
  effective_address_at evs i = Some a →
  0 ≤ a < 2 ^ 32
  ∧ ∃ ev, evs !! i = Some ev ∧ is_ldr_or_str (Py.lower (asm ev)) = true.
Proof.
  unfold effective_address_at, eff_of_regs. intros H.
  destruct (evs !! i) as [ev|]; [|done].
  destruct (is_ldr_or_str (Py.lower (asm ev))) eqn:E; [|done].
  destruct (parse_addr_expr _); [|done].
  split; [by eapply eval_addr_expr_range|]. by exists ev.
Qed.

(** X1: The register reconstructor is transparent to its caches: in a parsed
    trace, whatever queries were made before, [reconstruct_regs_at]
    returns the replay of the events up to the requested one from the
    empty map, the index being clamped to the trace; on an empty trace it
    returns the empty map. *)
Theorem regs_at_is_replay interval lexed P c i :
  parse_events interval lexed = Some P → lines_increasing lexed →
  reachable P c →
  (reconstruct_regs_at P c i).1
  = (if bool_decide (events P = []) then ∅
     else regs_after (events P) (clamp_index i (length (events P))))
  ∧ (reconstruct_regs_at P c i).1 = (reconstruct_regs_at P caches_init i).1
  ∧ (i ≤ 0 →
     (reconstruct_regs_at P c i).1 = (reconstruct_regs_at P c 0).1)
  ∧ (Z.of_nat (length (events P)) - 1 ≤ i →
     (reconstruct_regs_at P c i).1
     = (reconstruct_regs_at P c (Z.of_nat (length (events P)) - 1)).1).
Proof.
  intros Hp Hl Hr. destruct (decide (events P = [])) as [He|He].
  { unfold reconstruct_regs_at. rewrite !bool_decide_eq_true_2 by done.
    done. }
  rewrite bool_decide_eq_false_2 by done.
  rewrite !(regs_at_replay interval lexed P Hp Hl) by (done || apply reach_init).
  split_and!; [done|done| |]; intros Hi; f_equal; unfold clamp_index; lia.
Qed.

Lemma regs_at_is_replay_witness :
  ∃ P, parse_events 2000 S1_trace = Some P
       ∧ (reconstruct_regs_at P (reconstruct_regs_at P caches_init 3).2 1).1
         = (reconstruct_regs_at P caches_init 1).1.
Proof.
  eexists. split; [vm_compute; reflexivity|].
  match goal with |- context [reconstruct_regs_at ?P (?f ?c) _] =>
    destruct (regs_at_is_replay 2000 S1_trace P
                (reconstruct_regs_at P caches_init 3).2 1)
      as (_ & H & _) end.
  - vm_compute; reflexivity.
  - exact S1_lines.
  - apply reach_regs, reach_init.
  - exact H.
Defined.

(** X2: A register keeps its value until an event writes it: once known at
    event [i], it is known at every later event, and it still has the
    same value at event [j] when no event after [i] up to [j] writes
    it (reads of a different value do not change it). *)
Theorem regs_at_keeps_unwritten interval lexed P c c' i j r v :
  parse_events interval lexed = Some P → lines_increasing lexed →
  reachable P c → reachable P c' →
  (i ≤ j < length (events P))%nat →
  (reconstruct_regs_at P c (Z.of_nat i)).1 !! r = Some v →
  is_Some ((reconstruct_regs_at P c' (Z.of_nat j)).1 !! r)
  ∧ ((∀ k ev, (i < k ≤ j)%nat → events P !! k = Some ev →
        r ∉ keys (writes ev)) →
     (reconstruct_regs_at P c' (Z.of_nat j)).1 !! r = Some v).
Proof.
  intros Hp Hl Hr Hr' Hij Hv.
  rewrite (regs_at_replay_nat interval lexed P Hp Hl) in Hv by (done || lia).
  rewrite (regs_at_replay_nat interval lexed P Hp Hl) by (done || lia).
  split.
  - apply (regs_after_is_Some_le _ i); [done|]. rewrite Hv. by eexists.
  - intros Hw. by apply (regs_after_keeps _ i).
Qed.

Lemma regs_at_keeps_unwritten_witness :
  ∃ P, parse_events 2000 S1_trace = Some P
       ∧ (reconstruct_regs_at P caches_init 4).1 !! "r0" = Some 0x1234.
Proof.
  eexists. split; [vm_compute; reflexivity|].
  eapply (regs_at_keeps_unwritten 2000 S1_trace _ caches_init caches_init
            0 4 "r0" 0x1234).
  - vm_compute; reflexivity.
  - exact S1_lines.
  - apply reach_init.
  - apply reach_init.
  - vm_compute. lia.
  - vm_compute; reflexivity.
  - intros k ev Hk Hev.
    destruct k as [|[|[|[|[|k]]]]]; try lia;
      vm_compute in Hev; simplify_eq; vm_compute;
      repeat (intros [?|H]%elem_of_cons; [done|revert H]);
      by intros ?%elem_of_nil.
Defined.

(** X3: The reads fill-in rule: for a register that event [i] does not write,
    the state at [i] holds the value known before the event, and only
    when there is none the value the event read. *)
Theorem regs_at_reads_fill_in interval lexed P c c' i ev r :
  parse_events interval lexed = Some P → lines_increasing lexed →
  reachable P c → reachable P c' →
  events P !! i = Some ev → r ∉ keys (writes ev) →
  (reconstruct_regs_at P c (Z.of_nat i)).1 !! r
  = match (if (i =? 0)%nat then None
           else (reconstruct_regs_at P c' (Z.of_nat (i - 1))).1 !! r) with
    | Some v => Some v
    | None => dict_get (reads ev) r
    end.
Proof.
  intros Hp Hl Hr Hr' Hi Hw. pose proof (lookup_lt_Some _ _ _ Hi) as Hlt.
  rewrite (regs_at_replay_nat interval lexed P Hp Hl) by done.
  destruct i as [|i]; simpl.
  - by apply regs_after_0.
  - rewrite Nat.sub_0_r.
    rewrite (regs_at_replay_nat interval lexed P Hp Hl) by (done || lia).
    by apply regs_after_S_get.
Qed.

Lemma regs_at_reads_fill_in_witness :
  ∃ P, parse_events 2000 S1_trace = Some P
       ∧ (reconstruct_regs_at P caches_init 2).1 !! "r2" = Some 0x9000.
Proof.
  eexists. split; [vm_compute; reflexivity|].
  etransitivity;
    [eapply (regs_at_reads_fill_in 2000 S1_trace _ caches_init caches_init
               2 _ "r2")|].
  - vm_compute; reflexivity.
  - exact S1_lines.
  - apply reach_init.
  - apply reach_init.
  - vm_compute; reflexivity.
  - vm_compute. by intros ?%elem_of_nil.
  - vm_compute; reflexivity.
Defined.

(** X4: The resolver is transparent to its caches and to the precomputed
    field: in a parsed trace [effective_address] returns [None] for an
    index outside the trace, and otherwise what the precomputation stored
    in the event; an address it returns is that of an [ldr]/[str] event
    and lies below 2^32. *)
Theorem effective_address_is_pure interval lexed P c i :
  parse_events interval lexed = Some P → lines_increasing lexed →
  reachable P c →
  (effective_address P c i).1 = (effective_address P caches_init i).1
  ∧ (i < 0 ∨ Z.of_nat (length (events P)) ≤ i →
     (effective_address P c i).1 = None)
  ∧ (∀ ev, events P !! Z.to_nat i = Some ev → 0 ≤ i →
       (effective_address P c i).1
       = if is_ldr_or_str (Py.lower (asm ev)) then effaddr ev else None)
  ∧ (∀ a, (effective_address P c i).1 = Some a → 0 ≤ a < 2 ^ 32).
Proof.
  intros Hp Hl Hr.
  rewrite !(effective_address_replay interval lexed P Hp Hl)
    by (done || apply reach_init).
  split_and!; [done| | |].
  - intros Hi. rewrite (proj2 (orb_true_iff _ _)); [done|].
    destruct Hi; [left; apply Z.ltb_lt|right; apply Z.leb_le]; lia.
  - intros ev Hev Hi. pose proof (lookup_lt_Some _ _ _ Hev) as Hlt.
    rewrite (proj2 (orb_false_iff _ _))
      by (split; [apply Z.ltb_ge|apply Z.leb_gt]; lia).
    pose proof (parsed_effaddr interval lexed P Hp _ _ Hev) as He.
    destruct (is_ldr_or_str (Py.lower (asm ev))) eqn:Els; [done|].
    unfold effective_address_at. by rewrite Hev, Els.
  - intros a. destruct (_ || _); [done|].
    by intros [? _]%effective_address_at_range.
Qed.

Lemma effective_address_is_pure_witness :
  ∃ P, parse_events 2000 S1_trace = Some P
       ∧ (effective_address P (effective_address P caches_init 3).2 2).1
         = (effective_address P caches_init 2).1.
Proof.
  eexists. split; [vm_compute; reflexivity|].
  match goal with |- context [effective_address ?P (?f ?c) _] =>
    destruct (effective_address_is_pure 2000 S1_trace P
                (effective_address P caches_init 3).2 2)
      as (H & _) end.
  - vm_compute; reflexivity.
  - exact S1_lines.
  - apply reach_effaddr, reach_init.
  - exact H.
Defined.

(** * Further properties of the memory-effects precomputation *)

Section StoreIndexSound.
Implicit Types (ix : gmap Z (list nat)).

Lemma listed_insert_inv ix a b i j :
  listed (<[b := default [] (ix !! b) ++ [j]]> ix) a i →
  listed ix a i ∨ (a = b ∧ i = j).
Proof.
  intros (l & Hl & Hi). destruct (decide (b = a)) as [->|Hne].
  - rewrite lookup_insert_eq in Hl. simplify_eq.
    apply elem_of_app in Hi as [Hi|Hi].
    + left. destruct (ix !! a) as [l0|] eqn:E; simpl in Hi.
      * by exists l0.
      * by apply elem_of_nil in Hi.
    + right. by apply list_elem_of_singleton in Hi.
  - rewrite lookup_insert_ne in Hl by done. left. by exists l.
Qed.

Lemma index_span_go_inv (f : Z → Z) offs ix j a i :
  listed (foldl (fun ix off =>
                   <[f off := default [] (ix !! f off) ++ [j]]> ix) ix offs)
         a i →
  listed ix a i ∨ (i = j ∧ ∃ off, off ∈ offs ∧ a = f off).
Proof.
  revert ix. induction offs as [|o offs IH]; intros ix H; simpl in H.
  { by left. }
  destruct (IH _ H) as [H1|(-> & off & Hoff & ->)].
  - destruct (listed_insert_inv _ _ _ _ _ H1) as [?|[-> ->]]; [by left|].
    right. split; [done|]. exists o. split; [by left|done].
  - right. split; [done|]. exists off. split; [by right|done].
Qed.

Lemma index_span_inv ix addr span idx a i :
  listed (index_span ix addr span idx) a i →
  listed ix a i
  ∨ (i = idx ∧ ∃ off, off ∈ offsets span
                      ∧ a = Z.land (Z.land addr mask32 + off) mask32).
Proof.
  apply (index_span_go_inv
           (fun off => Z.land (Z.land addr mask32 + off) mask32)).
Qed.

Lemma offsets_elem w k : k ∈ offsets w → 0 ≤ k < w.
Proof.
  unfold offsets. intros (n & -> & Hn%elem_of_seq)%list_elem_of_fmap. lia.
Qed.

Lemma precompute_width_values ev :
  precompute_width ev ∈ [1; 2; 4; 8].
Proof.
  unfold precompute_width. repeat case_match; set_solver.
Qed.

Lemma precompute_width_span ev :
  Z.max 1 (if precompute_width ev =? 0 then 1 else precompute_width ev)
  = precompute_width ev.
Proof.
  pose proof (precompute_width_values ev) as H.
  repeat (apply elem_of_cons in H as [->|H]); [done..|].
  by apply elem_of_nil in H.
Qed.

(** Whatever the loop lists was listed before or belongs to a store of
    the events it went through. *)
Lemma precompute_loop_inv evs0 idx todo ix a i :
  listed (precompute_loop evs0 idx todo ix).2 a i →
  listed ix a i
  ∨ ∃ k ev A off,
      todo !! k = Some ev ∧ i = (idx + k)%nat
      ∧ Py.startswith (Py.lower (asm ev)) "str" = true
      ∧ effective_address_at evs0 (idx + k) = Some A
      ∧ 0 ≤ off < precompute_width ev
      ∧ a = Z.land (Z.land A mask32 + off) mask32.
Proof.
  revert idx ix. induction todo as [|e todo IH]; intros idx ix H; simpl in H.
  { by left. }
  destruct (is_ldr_or_str (Py.lower (asm e))) eqn:Els; simpl in H.
  - match type of H with context [precompute_loop evs0 (S idx) todo ?ix'] =>
      specialize (IH (S idx) ix');
      destruct (precompute_loop evs0 (S idx) todo ix') as [r ix2] eqn:Ep end.
    simpl in *. destruct (IH H) as [H1|(k & ev & A & off & Hk & -> & Hrest)].
    + destruct (effective_address_at evs0 idx) as [A|] eqn:EA; [|by left].
      destruct (Py.startswith (Py.lower (asm e)) "str") eqn:Es; [|by left].
      rewrite precompute_width_span in H1.
      apply index_span_inv in H1 as [?|(-> & off & Hoff%offsets_elem & ->)];
        [by left|].
      right. exists 0%nat, e, A, off. rewrite Nat.add_0_r.
      split_and!; (done || lia).
    + right. exists (S k), ev, A, off.
      replace (idx + S k)%nat with (S idx + k)%nat by lia.
      split; [done|]. split; [done|]. exact Hrest.
  - specialize (IH (S idx) ix).
    destruct (precompute_loop evs0 (S idx) todo ix) as [r ix2]. simpl in *.
    destruct (IH H) as [?|(k & ev & A & off & Hk & -> & Hrest)]; [by left|].
    right. exists (S k), ev, A, off.
    replace (idx + S k)%nat with (S idx + k)%nat by lia.
      split; [done|]. split; [done|]. exact Hrest.
Qed.

End StoreIndexSound.

(** The event the parse makes of the lexed event at index [i]. *)
Lemma parse_events_lookup interval lexed P i e0 :
  parse_events interval lexed = Some P → lexed !! i = Some e0 →
  ∃ evs' cs, events P = imap (precomputed evs') evs'
    ∧ Forall2 same_insn evs' (events P)
    ∧ events P !! i
      = Some (precomputed evs' i
                (set_call e0 (hd 0%nat (_call_stack cs))
                             (length (_call_stack cs)))).
Proof.
  intros Hp H0.
  destruct (parse_events_spec _ _ _ Hp) as (evs' & Han & Hev & _).
  destruct (annotate_all_lookup _ _ _ _ _ Han H0) as (cs & _ & Hi).
  exists evs', cs. split_and!; [done| |].
  - rewrite Hev. apply imap_Forall2. intros. apply same_insn_precomputed.
  - rewrite Hev. apply imap_lookup_Some. eauto.
Qed.

Lemma store_index_listed interval lexed P i ev A k :
  parse_events interval lexed = Some P →
  events P !! i = Some ev →
  Py.startswith (Py.lower (asm ev)) "str" = true →
  effaddr ev = Some A → 0 ≤ k < mem_width ev →
  listed (store_addr_index P) ((A + k) `mod` 2 ^ 32) i.
Proof.
  intros (evs' & _ & Hev & Hix & _)%parse_events_spec Hi Hs HA Hk.
  rewrite Hev in Hi. apply imap_lookup_Some in Hi as (e & He & ->).
  destruct (same_insn_precomputed evs' i e) as [Ha _]. rewrite <- Ha in Hs.
  assert (is_ldr_or_str (Py.lower (asm e)) = true) as Hls.
  { unfold is_ldr_or_str. by rewrite Hs. }
  unfold precomputed in HA, Hk. rewrite Hls in HA, Hk. simpl in HA, Hk.
  destruct (precompute_loop_covers evs' 0 evs' ∅ i e A k He Hs HA Hk)
    as (l & Hl & Hin).
  rewrite land_mask32_add in Hl. unfold listed.
  rewrite Hix, lookup_fmap, Hl. simpl.
  eexists. split; [done|]. by rewrite merge_sort_Permutation.
Qed.

Lemma store_index_listed_inv interval lexed P a i :
  parse_events interval lexed = Some P →
  listed (store_addr_index P) a i →
  ∃ ev A k, events P !! i = Some ev
    ∧ Py.startswith (Py.lower (asm ev)) "str" = true
    ∧ effaddr ev = Some A
    ∧ 0 ≤ k < mem_width ev
    ∧ a = (A + k) `mod` 2 ^ 32.
Proof.
  intros Hp (lst & Hl & Hi).
  destruct (parse_events_spec _ _ _ Hp) as (evs' & _ & Hev & Hix & _).
  rewrite Hix, lookup_fmap in Hl.
  destruct ((precompute_loop evs' 0 evs' ∅).2 !! a) as [l|] eqn:El;
    simplify_eq/=.
  rewrite merge_sort_Permutation in Hi.
  destruct (precompute_loop_inv evs' 0 evs' ∅ a i) as [(l0 & Hl0 & _)|H].
  { by exists l. }
  { by rewrite lookup_empty in Hl0. }
  destruct H as (k & ev & A & off & Hk & -> & Hs & HA & Hoff & ->).
  simpl in *. exists (precomputed evs' k ev), A, off.
  destruct (same_insn_precomputed evs' k ev) as [Hasm _].
  assert (is_ldr_or_str (Py.lower (asm ev)) = true) as Hls.
  { unfold is_ldr_or_str. by rewrite Hs. }
  split; [rewrite Hev; apply imap_lookup_Some; eauto|].
  split; [by rewrite <- Hasm|].
  unfold precomputed. rewrite Hls. simpl.
  split; [done|]. split; [done|]. apply land_mask32_add.
Qed.

(** X5: The store-address index lists nothing but stores: in a parsed trace,
    an index found under address [a] is that of a [str] event whose
    address resolved and whose bytes, [mem_width] of them from the
    address on and taken modulo 2^32, include [a]. *)
Theorem store_index_sound interval lexed P a lst i :
  parse_events interval lexed = Some P →
  store_addr_index P !! a = Some lst → i ∈ lst →
  ∃ ev A k, events P !! i = Some ev
    ∧ Py.startswith (Py.lower (asm ev)) "str" = true
    ∧ effaddr ev = Some A
    ∧ 0 ≤ k < mem_width ev
    ∧ a = (A + k) `mod` 2 ^ 32.
Proof.
  intros Hp Hl Hi. apply (store_index_listed_inv interval lexed); [done|].
  by exists lst.
Qed.

Lemma store_index_sound_witness :
  ∃ P, parse_events 2000 S1_trace = Some P
       ∧ ∃ ev A k, events P !! 2%nat = Some ev
           ∧ Py.startswith (Py.lower (asm ev)) "str" = true
           ∧ effaddr ev = Some A
           ∧ 0 ≤ k < mem_width ev
           ∧ 0x9003 = (A + k) `mod` 2 ^ 32.
Proof.
  eexists. split; [vm_compute; reflexivity|].
  eapply (store_index_sound 2000 S1_trace _ 0x9003 _ 2).
  - vm_compute; reflexivity.
  - vm_compute; reflexivity.
  - by left.
Defined.

(** X6: The parse keeps every lexed event, in order, with the fields read off
    its line untouched; for an [ldr]/[str] event it sets [mem_op] to the
    mnemonic family, [mem_width] to 1, 2, 4 or 8 and [effaddr] to the
    resolved address, and it leaves these three fields of every other
    event as they were. *)
Theorem parsed_event_fields interval lexed P :
  parse_events interval lexed = Some P →
  length (events P) = length lexed
  ∧ ∀ i e0, lexed !! i = Some e0 →
      ∃ ev, events P !! i = Some ev
        ∧ line_no ev = line_no e0 ∧ timestamp ev = timestamp e0
        ∧ module ev = module e0 ∧ module_offset ev = module_offset e0
        ∧ encoding ev = encoding e0 ∧ pc ev = pc e0 ∧ asm ev = asm e0
        ∧ raw ev = raw e0 ∧ reads ev = reads e0 ∧ writes ev = writes e0
        ∧ if is_ldr_or_str (Py.lower (asm e0))
          then mem_op ev
               = (if Py.startswith (Py.lower (asm e0)) "ldr"
                  then "ldr" else "str")
               ∧ mem_width ev ∈ [1; 2; 4; 8]
               ∧ effaddr ev = effective_address_at (events P) i
          else mem_op ev = mem_op e0 ∧ mem_width ev = mem_width e0
               ∧ effaddr ev = effaddr e0.
Proof.
  intros Hp. split.
  { symmetry. apply (Forall2_length _ _ _ (parse_events_same _ _ _ Hp)). }
  intros i e0 H0.
  destruct (parse_events_lookup _ _ _ _ _ Hp H0) as (evs' & cs & Hev & Hs & Hi).
  eexists. split; [exact Hi|].
  unfold precomputed. cbn [asm set_call].
  destruct (is_ldr_or_str (Py.lower (asm e0))) eqn:Els; simpl;
    split_and!; try done.
  - apply precompute_width_values.
  - by apply effective_address_at_same.
Qed.

Lemma parsed_event_fields_witness :
  ∃ P, parse_events 2000 S1_trace = Some P
       ∧ length (events P) = length S1_trace.
Proof.
  eexists. split; [vm_compute; reflexivity|].
  refine (proj1 (parsed_event_fields 2000 S1_trace _ _)).
  vm_compute; reflexivity.
Defined.

Section ConstMemory.
Variables (interval : nat) (lexed : list TraceEvent) (P : TraceParser).
Hypothesis Hp : parse_events interval lexed = Some P.

Lemma parsed_effaddr_ldr i ev :
  events P !! i = Some ev →
  is_ldr_or_str (Py.lower (asm ev)) = true →
  effective_address_at (events P) i = effaddr ev.
Proof.
  intros Hi Hls. pose proof (parsed_effaddr _ _ _ Hp _ _ Hi) as H.
  by rewrite Hls in H.
Qed.

Lemma bisect_left_0 lst x :
  bisect_left lst x = 0%nat ↔ ∀ y, y ∈ lst → ¬ (y < x)%nat.
Proof.
  unfold bisect_left. rewrite length_zero_iff_nil. split.
  - intros H y Hy Hlt.
    assert (y ∈ filter (fun y => (y < x)%nat) lst) as Hin
      by (by apply list_elem_of_filter).
    rewrite H in Hin. by apply elem_of_nil in Hin.
  - intros H. apply elem_of_nil_inv. intros y [Hlt Hy]%list_elem_of_filter.
    by apply (H y).
Qed.

Lemma no_store_before_iff i A :
  match store_addr_index P !! A with
  | None | Some [] => true
  | Some lst => (bisect_left lst i =? 0)%nat
  end = true
  ↔ ¬ store_before P i A.
Proof.
  split.
  - intros H (j & ev' & A' & k & Hj & Hev' & Hs & HA' & Hk & <-).
    destruct (store_index_listed _ _ _ _ _ _ _ Hp Hev' Hs HA' Hk)
      as (l & Hl & Hin).
    rewrite Hl in H. destruct l as [|y l]; [by apply elem_of_nil in Hin|].
    apply Nat.eqb_eq in H. by apply (proj1 (bisect_left_0 _ _) H j).
  - intros H. destruct (store_addr_index P !! A) as [[|y l]|] eqn:El;
      [done| |done].
    apply Nat.eqb_eq, bisect_left_0. intros j Hin Hlt. apply H.
    destruct (store_index_listed_inv _ _ _ A j Hp)
      as (ev' & A' & k & H1 & H2 & H3 & H4 & H5).
    { by exists (y :: l). }
    by exists j, ev', A', k.
Qed.

End ConstMemory.

(** X7: The constant-memory test is exact on a parsed trace: a load into
    [reg] at event [i] is taken to read constant memory exactly when its
    address resolved and no earlier store event, with a resolved address,
    covers the first byte of that address. *)
Theorem const_memory_load_exact interval lexed P i reg :
  parse_events interval lexed = Some P →
  _is_load_from_const_memory P i reg = true
  ↔ ∃ ev A, events P !! i = Some ev
      ∧ Py.startswith (Py.lower (asm ev)) "ldr" = true
      ∧ _has_write ev reg = true
      ∧ effaddr ev = Some A
      ∧ ¬ store_before P i A.
Proof.
  intros Hp. unfold _is_load_from_const_memory.
  destruct (events P !! i) as [ev|] eqn:Hi; [|by split; [|intros (? & ? & ? & _)]].
  destruct (Py.startswith (Py.lower (asm ev)) "ldr") eqn:Hs; simpl.
  2: { split; [done|]. intros (? & ? & ? & ? & _). congruence. }
  destruct (_has_write ev reg) eqn:Hw; simpl.
  2: { split; [done|]. intros (? & ? & ? & ? & ? & _). congruence. }
  assert (is_ldr_or_str (Py.lower (asm ev)) = true) as Hls.
  { unfold is_ldr_or_str. rewrite Hs. apply orb_true_r. }
  rewrite (parsed_effaddr_ldr _ _ _ Hp _ _ Hi Hls).
  destruct (effaddr ev) as [A|] eqn:HA.
  2: { split; [done|]. intros (? & ? & ? & ? & ? & ? & _). congruence. }
  rewrite (no_store_before_iff _ _ _ Hp). split.
  - intros H. by exists ev, A.
  - intros (ev' & A' & ? & _ & _ & ? & H). by simplify_eq.
Qed.

Lemma const_memory_load_exact_witness :
  ∃ P, parse_events 2000 S1_trace = Some P
       ∧ _is_load_from_const_memory P 0 "r0" = true.
Proof.
  eexists. split; [vm_compute; reflexivity|].
  eapply (proj2 (const_memory_load_exact 2000 S1_trace _ 0 "r0" _)).
  eexists _, _. split; [vm_compute; reflexivity|].
  split; [vm_compute; reflexivity|]. split; [vm_compute; reflexivity|].
  split; [vm_compute; reflexivity|].
  intros (j & _ & _ & _ & Hj & _). lia.
  Unshelve. vm_compute; reflexivity.
Defined.

(** * Memory taint helpers *)

Section MemoryTaint.
Implicit Types (M : gset Z).

Lemma mark_go_elem (f : Z → Z) M offs x :
  x ∈ foldl (fun m off => m ∪ {[ f off ]}) M offs
  ↔ x ∈ M ∨ ∃ off, off ∈ offs ∧ x = f off.
Proof.
  revert M. induction offs as [|o offs IH]; intros M; simpl.
  { split; [by left|]. intros [?|(off & Hoff & _)]; [done|].
    by apply elem_of_nil in Hoff. }
  rewrite IH, elem_of_union, elem_of_singleton. split.
  - intros [[?| ->]|(off & Hoff & ->)].
    + by left.
    + right. exists o. split; [by left|done].
    + right. exists off. split; [by right|done].
  - intros [?|(off & Hoff & ->)].
    + left. by left.
    + apply elem_of_cons in Hoff as [->|Hoff].
      * left. by right.
      * right. by exists off.
Qed.

Lemma offsets_iff w k : k ∈ offsets w ↔ 0 ≤ k < w.
Proof. split; [apply offsets_elem|apply elem_of_offsets]. Qed.

Lemma mark_memory_elem M a w x :
  x ∈ _mark_memory_tainted M a w
  ↔ x ∈ M ∨ ∃ k, 0 ≤ k < w ∧ x = (a + k) `mod` 2 ^ 32.
Proof.
  unfold _mark_memory_tainted.
  rewrite (mark_go_elem (fun off => Z.land (Z.land a mask32 + off) mask32)).
  split; (intros [?|(k & Hk & ->)]; [by left|right; exists k]).
  - by rewrite <- offsets_iff, land_mask32_add.
  - by rewrite offsets_iff, land_mask32_add.
Qed.

Lemma check_memory_iff M a w :
  _check_memory_tainted M a w = true
  ↔ ∃ k, 0 ≤ k < w ∧ (a + k) `mod` 2 ^ 32 ∈ M.
Proof.
  unfold _check_memory_tainted. rewrite existsb_exists. split.
  - intros (k & Hk & Hin). apply list_elem_of_In, offsets_iff in Hk.
    apply bool_decide_eq_true in Hin.
    exists k. by rewrite <- land_mask32_add.
  - intros (k & Hk & Hin). exists k. split.
    + by apply list_elem_of_In, offsets_iff.
    + apply bool_decide_eq_true. by rewrite land_mask32_add.
Qed.

End MemoryTaint.

(** X8: Marking and checking tainted memory work byte by byte modulo 2^32:
    marking adds exactly the bytes of the range; a check succeeds exactly
    when some byte of its range is in the set; so a check after a mark
    succeeds exactly when it succeeded before or the two ranges share a
    byte, and ranges of width zero or less mark and find nothing. *)
Theorem mark_then_check M a w a' w' x :
  (x ∈ _mark_memory_tainted M a w
   ↔ x ∈ M ∨ ∃ k, 0 ≤ k < w ∧ x = (a + k) `mod` 2 ^ 32)
  ∧ (_check_memory_tainted M a' w' = true
     ↔ ∃ k, 0 ≤ k < w' ∧ (a' + k) `mod` 2 ^ 32 ∈ M)
  ∧ (_check_memory_tainted (_mark_memory_tainted M a w) a' w' = true
     ↔ _check_memory_tainted M a' w' = true
       ∨ ∃ k k', 0 ≤ k < w ∧ 0 ≤ k' < w'
                 ∧ (a + k) `mod` 2 ^ 32 = (a' + k') `mod` 2 ^ 32).
Proof.
  split; [apply mark_memory_elem|]. split; [apply check_memory_iff|].
  rewrite !check_memory_iff. split.
  - intros (k' & Hk' & [Hin|(k & Hk & Heq)]%mark_memory_elem).
    + left. by exists k'.
    + right. by exists k, k'.
  - intros [(k' & Hk' & Hin)|(k & k' & Hk & Hk' & Heq)].
    + exists k'. split; [done|]. apply mark_memory_elem. by left.
    + exists k'. split; [done|]. apply mark_memory_elem. right. by exists k.
Qed.

(** * Further properties of the taint engines *)

Section EngineBounds.
Variable P : TraceParser.

Lemma fwd_loop_hits_inv sco ms bc idxs st h :
  h ∈ hits (fwd_loop P sco ms bc idxs st) →
  h ∈ hits st
  ∨ (h ∈ idxs ∧ ∃ ev, events P !! h = Some ev
                      ∧ (sco = true → call_id ev = bc)).
Proof.
  revert st. induction idxs as [|i idxs IH]; intros st H; simpl in H.
  { by left. }
  destruct (ms <=? steps st); [by left|].
  destruct (events P !! i) as [ev|] eqn:Hi; [|by left].
  destruct (sco && negb (call_id ev =? bc)%nat) eqn:Hc.
  { destruct (IH _ H) as [?|[? ?]]; [by left|]. right. split; [by right|done]. }
  destruct (fwd_event P i ev (tainted_regs st) (tainted_mem st))
    as [[T M] used].
  destruct (IH _ H) as [Hh|[? ?]]; simpl in *.
  - destruct used; [|by left].
    apply elem_of_app in Hh as [?|Hh]; [by left|].
    apply list_elem_of_singleton in Hh as ->.
    right. split; [by left|]. exists ev. split; [done|]. intros ->.
    simpl in Hc. apply negb_false_iff, Nat.eqb_eq in Hc. done.
  - right. split; [by right|done].
Qed.

Lemma fwd_loop_steps sco ms bc idxs st :
  steps st ≤ steps (fwd_loop P sco ms bc idxs st)
  ∧ steps (fwd_loop P sco ms bc idxs st) ≤ Z.max (steps st) ms
  ∧ Z.of_nat (length (hits (fwd_loop P sco ms bc idxs st)))
    - Z.of_nat (length (hits st))
    ≤ steps (fwd_loop P sco ms bc idxs st) - steps st.
Proof.
  revert st. induction idxs as [|i idxs IH]; intros st; simpl.
  { lia. }
  destruct (ms <=? steps st) eqn:Hms; [lia|]. apply Z.leb_gt in Hms.
  destruct (events P !! i) as [ev|]; [|lia].
  destruct (sco && negb (call_id ev =? bc)%nat).
  { apply IH. }
  destruct (fwd_event P i ev (tainted_regs st) (tainted_mem st))
    as [[T M] used].
  match goal with |- context [fwd_loop P sco ms bc idxs ?s] =>
    specialize (IH s); simpl in IH end.
  destruct used; rewrite ?length_app in IH; simpl in IH; lia.
Qed.

Lemma back_loop_hits_inv sco ms emt bc idxs st h :
  h ∈ b_hits (back_loop P sco ms emt bc idxs st) →
  h ∈ b_hits st
  ∨ (h ∈ idxs ∧ ∃ ev, events P !! h = Some ev
                      ∧ (sco = true → call_id ev = bc)).
Proof.
  revert st. induction idxs as [|i idxs IH]; intros st H; simpl in H.
  { by left. }
  destruct (ms <=? b_steps st); [by left|].
  destruct (events P !! i) as [ev|] eqn:Hi; [|by left].
  destruct (sco && negb (call_id ev =? bc)%nat) eqn:Hc.
  { destruct (IH _ H) as [?|[? ?]]; [by left|]. right. split; [by right|done]. }
  destruct (back_event P emt i ev (b_tainted_regs st) (b_tainted_mem st)
              (b_terminated_regs st)) as [[[T M] Term] used].
  destruct (IH _ H) as [Hh|[? ?]]; simpl in *.
  - destruct used; [|by left].
    apply elem_of_app in Hh as [?|Hh]; [by left|].
    apply list_elem_of_singleton in Hh as ->.
    right. split; [by left|]. exists ev. split; [done|]. intros ->.
    simpl in Hc. apply negb_false_iff, Nat.eqb_eq in Hc. done.
  - right. split; [by right|done].
Qed.

Lemma back_loop_steps sco ms emt bc idxs st :
  b_steps st ≤ b_steps (back_loop P sco ms emt bc idxs st)
  ∧ b_steps (back_loop P sco ms emt bc idxs st) ≤ Z.max (b_steps st) ms
  ∧ Z.of_nat (length (b_hits (back_loop P sco ms emt bc idxs st)))
    - Z.of_nat (length (b_hits st))
    ≤ b_steps (back_loop P sco ms emt bc idxs st) - b_steps st.
Proof.
  revert st. induction idxs as [|i idxs IH]; intros st; simpl.
  { lia. }
  destruct (ms <=? b_steps st) eqn:Hms; [lia|]. apply Z.leb_gt in Hms.
  destruct (events P !! i) as [ev|]; [|lia].
  destruct (sco && negb (call_id ev =? bc)%nat).
  { apply IH. }
  destruct (back_event P emt i ev (b_tainted_regs st) (b_tainted_mem st)
              (b_terminated_regs st)) as [[[T M] Term] used].
  match goal with |- context [back_loop P sco ms emt bc idxs ?s] =>
    specialize (IH s); simpl in IH end.
  destruct used; rewrite ?length_app in IH; simpl in IH; lia.
Qed.

Lemma clamp_index_lt start_idx n :
  (0 < n)%nat → (clamp_index start_idx n < n)%nat.
Proof. unfold clamp_index. lia. Qed.

Lemma forward_is_hits start_idx srcs mems sco ms emt eif :
  events P ≠ [] →
  taint_forward P start_idx srcs mems sco ms emt eif
  = hits (fwd_run P start_idx srcs mems sco ms).
Proof.
  intros Hne. unfold taint_forward.
  rewrite bool_decide_eq_false_2 by done. apply dedup_sorted.
  apply fwd_loop_hits_sorted. simpl. apply seq_sorted.
Qed.

End EngineBounds.

(** X9: The forward engine reports only events it may visit: every hit lies
    between the clamped start index and the end of the trace, carries the
    call id of the start event when [same_call_only] is set, and there
    are at most [max_steps] hits (none when [max_steps] is zero or
    negative, none on an empty trace). *)
Theorem taint_forward_hits_bounded P start_idx srcs mems sco ms emt eif :
  let n := length (events P) in
  let i0 := clamp_index start_idx n in
  (∀ h, h ∈ taint_forward P start_idx srcs mems sco ms emt eif →
     (i0 ≤ h < n)%nat
     ∧ (sco = true →
        call_id <$> events P !! h = call_id <$> events P !! i0))
  ∧ Z.of_nat (length (taint_forward P start_idx srcs mems sco ms emt eif))
    ≤ Z.max 0 ms.
Proof.
  intros n i0. destruct (decide (events P = [])) as [He|He].
  { unfold taint_forward. rewrite bool_decide_eq_true_2 by done. simpl.
    split; [|lia]. intros h Hh. by apply elem_of_nil in Hh. }
  rewrite forward_is_hits by done. unfold fwd_run. fold n i0.
  assert (0 < n)%nat as Hn.
  { unfold n. destruct (events P); simpl; [done|lia]. }
  pose proof (clamp_index_lt start_idx n Hn) as Hi0. fold i0 in Hi0.
  destruct (lookup_lt_is_Some_2 (events P) i0 Hi0) as [e0 He0].
  rewrite He0. simpl. split.
  - intros h Hh. apply fwd_loop_hits_inv in Hh as [Hh|[Hh Hev]].
    { by apply elem_of_nil in Hh. }
    apply elem_of_seq in Hh. split; [lia|].
    destruct Hev as (ev & -> & Hc). intros Hs. simpl. f_equal. by apply Hc.
  - match goal with |- context [fwd_loop P sco ms ?bc ?l ?st] =>
      pose proof (fwd_loop_steps P sco ms bc l st) as (H1 & H2 & H3) end.
    simpl in *. lia.
Qed.

(** X10: The backward engine reports only events it may visit: every hit lies
    at or before the clamped start index, carries the call id of the
    start event when [same_call_only] is set, and there are at most
    [max_steps] hits. *)
Theorem taint_backward_hits_bounded P start_idx reg tv sco ms emt :
  let n := length (events P) in
  let s := clamp_index start_idx n in
  (∀ h, h ∈ taint_backward P start_idx reg tv sco ms emt →
     (h ≤ s < n)%nat
     ∧ (sco = true →
        call_id <$> events P !! h = call_id <$> events P !! s))
  ∧ Z.of_nat (length (taint_backward P start_idx reg tv sco ms emt))
    ≤ Z.max 0 ms.
Proof.
  intros n s. unfold taint_backward.
  destruct (decide (events P = [])) as [He|He].
  { rewrite bool_decide_eq_true_2 by done. simpl.
    split; [|lia]. intros h Hh. by apply elem_of_nil in Hh. }
  rewrite bool_decide_eq_false_2 by done. unfold back_run. fold n s.
  assert (0 < n)%nat as Hn.
  { unfold n. destruct (events P); simpl; [done|lia]. }
  pose proof (clamp_index_lt start_idx n Hn) as Hs. fold s in Hs.
  destruct (lookup_lt_is_Some_2 (events P) s Hs) as [e0 He0].
  rewrite He0. simpl. split.
  - intros h Hh. apply list_elem_of_In, in_rev, list_elem_of_In in Hh.
    apply back_loop_hits_inv in Hh as [Hh|[Hh Hev]].
    { by apply elem_of_nil in Hh. }
    unfold down_from in Hh.
    apply list_elem_of_In, in_rev, list_elem_of_In, elem_of_seq in Hh.
    split; [lia|].
    destruct Hev as (ev & -> & Hc). intros Hsc. simpl. f_equal. by apply Hc.
  - rewrite length_rev.
    match goal with |- context [back_loop P sco ms emt ?bc ?l ?st] =>
      pose proof (back_loop_steps P sco ms emt bc l st) as (H1 & H2 & H3) end.
    simpl in *. lia.
Qed.

Section NoSources.
Variable P : TraceParser.

Lemma reg_tainted_empty r : reg_tainted ∅ r = false.
Proof.
  unfold reg_tainted, in_set. rewrite bool_decide_eq_false_2 by set_solver.
  simpl. induction (_alias_names r) as [|a l IH]; [done|]. simpl.
  by rewrite bool_decide_eq_false_2 by set_solver.
Qed.

Lemma existsb_reg_tainted_empty l : existsb (reg_tainted ∅) l = false.
Proof.
  induction l as [|r l IH]; [done|]. simpl. by rewrite reg_tainted_empty.
Qed.

Lemma alias_tainted_empty r : alias_tainted ∅ r = false.
Proof.
  unfold alias_tainted, in_set.
  induction (_alias_names r) as [|a l IH]; [done|]. simpl.
  by rewrite bool_decide_eq_false_2 by set_solver.
Qed.

Lemma discard_aliases_empty rd : discard_aliases ∅ rd = ∅.
Proof.
  apply set_eq. intros x. rewrite discard_aliases_elem. set_solver.
Qed.

Lemma load_hit_empty i a : load_hit P i a ∅ = false.
Proof.
  unfold load_hit. destruct (effective_address_at (events P) i).
  - by rewrite check_memory_tainted_empty, andb_false_r.
  - apply andb_false_r.
Qed.

Lemma startswith_other_head s c1 p c2 q :
  c1 ≠ c2 → Py.startswith s (String c1 p) = true →
  Py.startswith s (String c2 q) = false.
Proof.
  intros Hne. unfold Py.startswith. destruct s as [|c s]; simpl; [done|].
  destruct (ascii_dec c1 c) as [<-|]; [|done]. intros _.
  by destruct (ascii_dec c2 c1) as [->|].
Qed.

Lemma bitfield_clear_not_set ev rd :
  _is_partial_bitfield_clear ev rd = true →
  _is_conditional_set_op (Py.lower (asm ev)) = false
  ∧ _is_adrp_op (Py.lower (asm ev)) = false.
Proof.
  unfold _is_partial_bitfield_clear, _is_conditional_set_op, _is_adrp_op,
    starts_any.
  destruct (negb _); [done|]. rewrite lower_idemp. intros H. simpl.
  rewrite (startswith_other_head _ "b" "fc " "c" "set ") by done.
  rewrite (startswith_other_head _ "b" "fc " "c" "setm ") by done.
  by rewrite (startswith_other_head _ "b" "fc " "a" "drp ") by done.
Qed.

Lemma fwd_write_empty i ev used rd :
  fwd_write P i ev (Py.lower (asm ev)) ∅ (∅, used) rd
  = (∅, used || sanitizing_write P i ev rd).
Proof.
  unfold fwd_write, sanitizing_write.
  rewrite existsb_reg_tainted_empty, load_hit_empty, alias_names_ran,
    discard_aliases_empty, alias_tainted_empty. simpl.
  repeat (case_match; simpl; rewrite ?orb_true_r, ?orb_false_r; try done).
  match goal with H : _is_partial_bitfield_clear _ _ = true |- _ =>
    destruct (bitfield_clear_not_set _ _ H) as [-> ->] end.
  by rewrite orb_false_r.
Qed.

Lemma fwd_writes_empty i ev used l :
  foldl (fwd_write P i ev (Py.lower (asm ev)) ∅) (∅, used) l
  = (∅, used || existsb (sanitizing_write P i ev) l).
Proof.
  revert used. induction l as [|rd l IH]; intros used; cbn [foldl existsb].
  { by rewrite orb_false_r. }
  rewrite fwd_write_empty, IH. by rewrite orb_assoc.
Qed.

Lemma fwd_event_empty i ev :
  fwd_event P i ev ∅ ∅
  = (∅, ∅, existsb (sanitizing_write P i ev) (keys (writes ev))).
Proof.
  unfold fwd_event.
  rewrite existsb_reg_tainted_empty, load_hit_empty, fwd_writes_empty.
  simpl. set (u := existsb _ _).
  assert (fwd_store P i (Py.lower (asm ev)) ∅ ∅ u = (∅, u)) as ->.
  { unfold fwd_store. repeat case_match; try done.
    rewrite reg_tainted_empty, andb_false_r in *. done. }
  assert (fwd_multi P i (Py.lower (asm ev)) ∅ ∅ u = (∅, ∅, u)) as ->.
  { unfold fwd_multi.
    rewrite !existsb_reg_tainted_empty, !orb_false_r.
    rewrite (bool_decide_eq_false_2 (∅ ≠ ∅)) by (intros H; by apply H).
    repeat case_match; try done;
      rewrite ?reg_tainted_empty, ?check_memory_tainted_empty in *;
      done. }
  assert (fwd_arm64 (Py.lower (asm ev)) ∅ u = (∅, u)) as ->; [|done].
  unfold fwd_arm64. repeat case_match; try done;
    rewrite ?reg_tainted_empty in *; done.
Qed.

Lemma fwd_loop_empty sco ms bc idxs st :
  tainted_regs st = ∅ → tainted_mem st = ∅ →
  tainted_regs (fwd_loop P sco ms bc idxs st) = ∅
  ∧ tainted_mem (fwd_loop P sco ms bc idxs st) = ∅
  ∧ ∀ h, h ∈ hits (fwd_loop P sco ms bc idxs st) →
      h ∈ hits st ∨ sanitizing_event P h = true.
Proof.
  revert st. induction idxs as [|i idxs IH]; intros st HT HM; simpl.
  { split_and!; [done|done|]. intros h ?. by left. }
  destruct (ms <=? steps st).
  { split_and!; [done|done|]. intros h ?. by left. }
  destruct (events P !! i) as [ev|] eqn:Hi.
  2: { split_and!; [done|done|]. intros h ?. by left. }
  destruct (sco && negb (call_id ev =? bc)%nat); [by apply IH|].
  rewrite HT, HM, fwd_event_empty.
  match goal with |- context [fwd_loop P sco ms bc idxs ?s] =>
    destruct (IH s eq_refl eq_refl) as (H1 & H2 & H3) end.
  split_and!; [done|done|]. intros h Hh.
  destruct (H3 h Hh) as [Hin|?]; [|by right]. simpl in Hin.
  destruct (existsb _ _) eqn:Es; [|by left].
  apply elem_of_app in Hin as [?|Hin]; [by left|].
  apply list_elem_of_singleton in Hin as ->. right.
  unfold sanitizing_event. by rewrite Hi.
Qed.

Lemma fwd_loop_empty_exact ms bc idxs st :
  tainted_regs st = ∅ → tainted_mem st = ∅ →
  (∀ i, i ∈ idxs → (i < length (events P))%nat) →
  steps st + Z.of_nat (length idxs) ≤ ms →
  hits (fwd_loop P false ms bc idxs st)
  = hits st ++ filter (fun h => sanitizing_event P h = true) idxs.
Proof.
  revert st. induction idxs as [|i idxs IH]; intros st HT HM Hlt Hms; simpl.
  { by rewrite app_nil_r. }
  simpl in Hms. destruct (ms <=? steps st) eqn:E.
  { apply Z.leb_le in E. lia. }
  destruct (lookup_lt_is_Some_2 (events P) i) as [ev Hi].
  { apply Hlt. by left. }
  rewrite Hi. simpl. rewrite HT, HM, fwd_event_empty.
  rewrite IH; simpl; [|done|done| |lia].
  2: { intros j Hj. apply Hlt. by right. }
  assert (sanitizing_event P i
          = existsb (sanitizing_write P i ev) (keys (writes ev))) as Hs.
  { unfold sanitizing_event. by rewrite Hi. }
  rewrite filter_cons, Hs. destruct (existsb _ _).
  - rewrite decide_True by done. by rewrite <- app_assoc.
  - rewrite decide_False by done. done.
Qed.

End NoSources.

(** X11: With no taint source the forward engine never creates taint: its two
    tainted sets are empty after every event, and every hit is an event
    one of whose writes it treats as sanitizing (constant-zero,
    immediate, constant-pool load, [cset]/[csetm], [adrp]); without the
    call filter and with a step budget that covers the trace, the hits
    are exactly those events from the start index on. *)
Theorem taint_forward_without_sources P start_idx sco ms emt eif k :
  let n := length (events P) in
  let i0 := clamp_index start_idx n in
  tainted_regs (fwd_state_after P start_idx [] [] sco ms k) = ∅
  ∧ tainted_mem (fwd_state_after P start_idx [] [] sco ms k) = ∅
  ∧ (∀ h, h ∈ taint_forward P start_idx [] [] sco ms emt eif →
       sanitizing_event P h = true)
  ∧ (sco = false → Z.of_nat n ≤ ms →
     taint_forward P start_idx [] [] sco ms emt eif
     = filter (fun h => sanitizing_event P h = true) (seq i0 (n - i0))).
Proof.
  intros n i0.
  split; [by apply fwd_loop_empty|]. split; [by apply fwd_loop_empty|].
  destruct (decide (events P = [])) as [He|He].
  { unfold taint_forward. rewrite bool_decide_eq_true_2 by done.
    split; [intros h Hh; by apply elem_of_nil in Hh|].
    intros _ _. unfold n. by rewrite He. }
  rewrite forward_is_hits by done. unfold fwd_run. fold n i0. split.
  - intros h Hh. apply fwd_loop_empty in Hh as [Hh|?]; [|done|done|done].
    by apply elem_of_nil in Hh.
  - intros -> Hms. rewrite fwd_loop_empty_exact; [done|done|done| |].
    + intros i Hi%elem_of_seq. fold n. lia.
    + simpl. rewrite length_seq. lia.
Qed.

Lemma taint_forward_without_sources_witness :
  ∃ P, parse_events 2000 S1_trace = Some P
       ∧ taint_forward P 0 [] [] false 120000 true false
         = filter (fun h => sanitizing_event P h = true)
                  (seq (clamp_index 0 (length (events P)))
                       (length (events P)
                        - clamp_index 0 (length (events P)))).
Proof.
  eexists. split; [vm_compute; reflexivity|].
  match goal with |- taint_forward ?P _ _ _ _ _ _ _ = _ =>
    destruct (taint_forward_without_sources P 0 false 120000 true false 0)
      as (_ & _ & _ & H) end.
  apply H; [reflexivity|vm_compute; discriminate].
Defined.

(** * Further properties of the call annotator *)

Section CallStack.

Lemma coherent_insert_fresh F n x s :
  F !! n = None → coherent F s → coherent (<[n := x]> F) s.
Proof.
  intros Hn. induction s as [|c s IH]; simpl; [done|].
  intros [Hc Hs]. split; [|by apply IH].
  rewrite lookup_insert_ne; [done|]. intros ->. congruence.
Qed.

Lemma coherent_tl F s : coherent F s → coherent F (tl s).
Proof. destruct s; simpl; [done|]. by intros [_ ?]. Qed.

(** Every stack the annotator goes through agrees with one record of
    pushes: an id is pushed once, on top of a stack that does not
    change while the id is on it. *)
Lemma call_stacks_coherent evs cs :
  call_state_after call_init evs = Some cs →
  ∃ F, (∀ c, is_Some (F !! c) → (c < _next_call_id cs)%nat)
       ∧ ∀ k cs_k, call_state_after call_init (take k evs) = Some cs_k →
           coherent F (_call_stack cs_k).
Proof.
  revert cs. induction evs as [|e evs IH] using rev_ind; intros cs H.
  { exists ∅. split.
    - intros c [x Hx]. by rewrite lookup_empty in Hx.
    - intros k cs_k Hk. rewrite take_nil in Hk. simpl in Hk.
      by simplify_eq. }
  rewrite call_state_after_snoc in H.
  destruct (call_state_after call_init evs) as [cs0|] eqn:E0; [|done].
  destruct (_annotate_call cs0 e) as [[e' cs1]|] eqn:E; [|done].
  simpl in H. simplify_eq.
  destruct (IH cs0 eq_refl) as (F & Hdom & Hcoh).
  pose proof (Hcoh (length evs) cs0) as Hcoh0.
  rewrite take_ge in Hcoh0 by lia. specialize (Hcoh0 E0).
  assert (Hlast : call_state_after call_init (evs ++ [e]) = Some cs).
  { by rewrite call_state_after_snoc, E0, E. }
  assert (Hprefix : ∀ k cs_k,
    call_state_after call_init (take k (evs ++ [e])) = Some cs_k →
    (k ≤ length evs)%nat ∧ call_state_after call_init (take k evs)
                             = Some cs_k
    ∨ cs_k = cs).
  { intros k cs_k Hk. destruct (decide (k ≤ length evs)%nat) as [Hle|Hgt].
    - left. split; [done|]. by rewrite take_app_le in Hk.
    - right. rewrite take_ge in Hk by (rewrite length_app; simpl; lia).
      congruence. }
  apply annotate_call_state in E.
  destruct (is_call e) eqn:Hc; [|destruct (is_return e) eqn:Hr]; subst cs.
  - assert (F !! _next_call_id cs0 = None) as Hfresh.
    { destruct (F !! _next_call_id cs0) eqn:Ef; [|done].
      specialize (Hdom (_next_call_id cs0) ltac:(by eexists)). lia. }
    exists (<[_next_call_id cs0 := _call_stack cs0]> F). split.
    + simpl. intros c [x Hx].
      destruct (decide (c = _next_call_id cs0)) as [->|Hne]; [lia|].
      rewrite lookup_insert_ne in Hx by done.
      specialize (Hdom c ltac:(by eexists)). lia.
    + intros k cs_k Hk. destruct (Hprefix k cs_k Hk) as [[_ Hk']| ->].
      * apply coherent_insert_fresh; [done|]. by apply (Hcoh k).
      * simpl. rewrite lookup_insert_eq. split; [done|].
        by apply coherent_insert_fresh.
  - exists F. split; [done|].
    intros k cs_k Hk. destruct (Hprefix k cs_k Hk) as [[_ Hk']| ->].
    + by apply (Hcoh k).
    + simpl. by apply coherent_tl.
  - exists F. split; [done|].
    intros k cs_k Hk. destruct (Hprefix k cs_k Hk) as [[_ Hk']| ->].
    + by apply (Hcoh k).
    + done.
Qed.

Lemma coherent_same_top F s s' :
  coherent F s → coherent F s' →
  Forall (fun id => (1 ≤ id)%nat) s → Forall (fun id => (1 ≤ id)%nat) s' →
  hd 0%nat s = hd 0%nat s' → s = s'.
Proof.
  destruct s as [|c r], s' as [|c' r']; simpl; try done.
  - intros _ _ _ [H _]%Forall_cons <-. lia.
  - intros _ _ [H _]%Forall_cons _ ->. lia.
  - intros [H1 _] [H2 _] _ _ <-. congruence.
Qed.

Lemma stack_ids_positive evs cs :
  call_state_after call_init evs = Some cs →
  Forall (fun id => (1 ≤ id)%nat) (_call_stack cs).
Proof.
  intros (_ & _ & H)%call_state_after_init.
  eapply Forall_impl; [exact H|]. simpl. lia.
Qed.

Lemma unmatched_le_calls d evs :
  (unmatched_from d evs ≤ d + calls_in evs)%nat.
Proof.
  revert d. induction evs as [|ev evs IH]; intros d; simpl; [lia|].
  unfold calls_in in *. rewrite filter_cons.
  destruct (is_call ev) eqn:Hc.
  - rewrite decide_True by done. simpl. specialize (IH (S d)). lia.
  - rewrite decide_False by done.
    destruct (is_return ev); [specialize (IH (pred d))|specialize (IH d)];
      lia.
Qed.

End CallStack.

(** X12: The call fields of a parsed trace hang together: an event is at
    depth 0 exactly when its call id is 0; two events with the same call
    id are at the same depth; and neither the id nor the depth of an
    event exceeds the number of call instructions before it. *)
Theorem call_id_determines_depth interval lexed P :
  parse_events interval lexed = Some P →
  ∀ i ev, events P !! i = Some ev →
    (call_depth ev = 0%nat ↔ call_id ev = 0%nat)
    ∧ (call_id ev ≤ calls_in (take i lexed))%nat
    ∧ (call_depth ev ≤ calls_in (take i lexed))%nat
    ∧ ∀ j ev', events P !! j = Some ev' →
        call_id ev = call_id ev' → call_depth ev = call_depth ev'.
Proof.
  intros Hp i ev Hi.
  destruct (parse_events_call _ _ _ _ _ Hp Hi)
    as (e0 & cs & He0 & _ & Hcs & Hid & Hd).
  pose proof (stack_ids_positive _ _ Hcs) as Hpos.
  destruct (call_state_after_init _ _ Hcs) as (Hlen & _ & Hall).
  split_and!.
  - rewrite Hid, Hd. destruct (_call_stack cs) as [|c r]; simpl; [done|].
    apply Forall_cons in Hpos as [? _]. split; [done|lia].
  - rewrite Hid. by apply call_state_after_top.
  - rewrite Hd, Hlen. apply (unmatched_le_calls 0).
  - intros j ev' Hj Heq.
    destruct (parse_events_call _ _ _ _ _ Hp Hj)
      as (e1 & cs' & He1 & _ & Hcs' & Hid' & Hd').
    set (m := Nat.max i j).
    destruct (lookup_lt_is_Some_2 (events P) m) as [evm Hm].
    { unfold m. apply lookup_lt_Some in Hi, Hj. lia. }
    destruct (parse_events_call _ _ _ _ _ Hp Hm)
      as (_ & csm & _ & _ & Hcsm & _).
    destruct (call_stacks_coherent _ _ Hcsm) as (F & _ & Hcoh).
    pose proof (Hcoh i cs) as H1. pose proof (Hcoh j cs') as H2.
    rewrite take_take in H1, H2.
    replace (Nat.min i m) with i in H1 by (unfold m; lia).
    replace (Nat.min j m) with j in H2 by (unfold m; lia).
    rewrite Hd, Hd'. f_equal.
    apply (coherent_same_top F); [by apply H1|by apply H2|done| |congruence].
    by eapply stack_ids_positive.
Qed.

Lemma call_id_determines_depth_witness :
  ∃ P, parse_events 2000 call_trace = Some P
       ∧ ∀ i ev, events P !! i = Some ev →
           (call_depth ev = 0%nat ↔ call_id ev = 0%nat).
Proof.
  eexists. split; [vm_compute; reflexivity|].
  intros i ev Hi.
  refine (proj1 (call_id_determines_depth 2000 call_trace _ _ i ev Hi)).
  vm_compute; reflexivity.
Defined.

(** * When the parse is aborted *)

Section ParseAbort.

Lemma prefix_cons_ne c w d s :
  c ≠ d → String.prefix (String c w) (String d s) = false.
Proof.
  intros Hne. destruct (String.prefix _ _) eqn:E; [|done].
  by apply prefix_cons in E as [? _].
Qed.

Lemma contains_cons c r sub :
  Py.contains (String c r) sub
  = String.prefix sub (String c r) || Py.contains r sub.
Proof. done. Qed.

Lemma blank_contains_not rest :
  Py.is_empty (Py.lstrip rest) = true → Py.contains rest "bx lr" = false.
Proof.
  induction rest as [|c r IH]; [done|].
  unfold Py.lstrip. cbn [Py.drop_while].
  destruct (Py.is_space c) eqn:Hc; [|done].
  intros H. rewrite contains_cons, (IH H), orb_false_r.
  apply prefix_cons_ne. intros <-. done.
Qed.

Lemma starts_ldr a :
  Py.startswith a "ldr " = true →
  ∃ rest, a = String "l" (String "d" (String "r" (String " " rest))).
Proof.
  unfold Py.startswith. intros H.
  destruct a as [|c1 a]; [done|]. apply prefix_cons in H as [<- H].
  destruct a as [|c2 a]; [done|]. apply prefix_cons in H as [<- H].
  destruct a as [|c3 a]; [done|]. apply prefix_cons in H as [<- H].
  destruct a as [|c4 a]; [done|]. apply prefix_cons in H as [<- H].
  by exists a.
Qed.

Lemma words_ldr rest :
  Py.words (String "l" (String "d" (String "r" (String " " rest))))
  = "ldr" :: (if Py.is_empty (Py.lstrip rest) then []
              else Py.take_while (fun c => negb (Py.is_space c))
                     (Py.lstrip rest)
                   :: Py.words_go (S (S (S (String.length rest))))
                        (Py.drop_while (fun c => negb (Py.is_space c))
                           (Py.lstrip rest))).
Proof. reflexivity. Qed.

Lemma is_return_insn_None a :
  _is_return_insn a = None ↔ bare_ldr a = true.
Proof.
  unfold bare_ldr. split.
  - unfold _is_return_insn. intros H.
    destruct (Py.contains a "bx lr"); [done|].
    destruct (_ && _ && _); [done|]. destruct (_ && _); [done|].
    destruct (Py.startswith a "ldr ") eqn:Hs; [|done].
    destruct (starts_ldr a Hs) as [rest ->].
    rewrite words_ldr in H. cbn [Py.drop].
    destruct (Py.is_empty (Py.lstrip rest)) eqn:He; [done|].
    by case_match.
  - intros [Hs He]%andb_true_iff.
    destruct (starts_ldr a Hs) as [rest ->]. cbn [Py.drop] in He.
    unfold _is_return_insn. rewrite words_ldr, He.
    rewrite !contains_cons, (blank_contains_not _ He).
    rewrite !prefix_cons_ne by done. simpl.
    by destruct rest.
Qed.

Lemma bare_ldr_not_call a : bare_ldr a = true → _is_call_insn a = false.
Proof.
  unfold bare_ldr. intros [Hs _]%andb_true_iff.
  by destruct (starts_ldr a Hs) as [rest ->].
Qed.

Lemma annotate_call_None cs ev :
  _annotate_call cs ev = None ↔ bare_ldr (Py.lower (asm ev)) = true.
Proof.
  unfold _annotate_call, _is_call_event, _is_return_event. split.
  - destruct (_is_call_insn _); [done|].
    destruct (_is_return_insn _) as [[]|] eqn:E; [done|done|].
    intros _. by apply is_return_insn_None.
  - intros H. rewrite (bare_ldr_not_call _ H).
    by rewrite (proj2 (is_return_insn_None _) H).
Qed.

Lemma parse_loop_None interval ps lexed :
  parse_loop interval ps lexed = None
  ↔ (interval = 0%nat ∧ lexed ≠ [])
    ∨ Exists (fun ev => bare_ldr (Py.lower (asm ev)) = true) lexed.
Proof.
  revert ps. induction lexed as [|e lexed IH]; intros ps; simpl.
  { split; [done|]. intros [[_ ?]|H%Exists_nil]; done. }
  unfold parse_step.
  destruct (_annotate_call (ps_call ps) e) as [[e' cs']|] eqn:E.
  - assert (bare_ldr (Py.lower (asm e)) ≠ true) as Hne.
    { intros H%(annotate_call_None (ps_call ps)). congruence. }
    destruct (interval =? 0)%nat eqn:Ei.
    + apply Nat.eqb_eq in Ei. split; [|done]. intros _. by left.
    + apply Nat.eqb_neq in Ei. rewrite IH, Exists_cons. split.
      * intros [[? _]|?]; [done|]. right. by right.
      * intros [[? _]|[?|?]]; [done|done|by right].
  - split; [|done]. intros _. right. apply Exists_cons_hd.
    by apply (annotate_call_None (ps_call ps)).
Qed.

End ParseAbort.

(** X13: The parse of a list of lexed events is aborted in two cases only: a
    checkpoint interval of zero on a trace that is not empty (the
    remainder by zero), and an event whose instruction text is [ldr]
    followed by blanks only (the return test indexes past the end of its
    word list); in every other case it yields a parser. *)
Theorem parse_events_aborts interval lexed :
  parse_events interval lexed = None
  ↔ (interval = 0%nat ∧ lexed ≠ [])
    ∨ Exists (fun ev => bare_ldr (Py.lower (asm ev)) = true) lexed.
Proof.
  rewrite <- (parse_loop_None interval parse_init). unfold parse_events.
  destruct (parse_loop interval parse_init lexed); [|done].
  by destruct (_precompute_memory_effects _).
Qed.

(** * The inverted indexes and the navigation queries *)

Section SortedLists.
Implicit Types (l : list nat).

Lemma sorted_le_lookup l i k a b :
  StronglySorted le l → (i ≤ k)%nat →
  l !! i = Some a → l !! k = Some b → (a ≤ b)%nat.
Proof.
  intros Hs. revert i k. induction Hs as [|x l Hs IH Hx]; intros i k Hik Hi Hk.
  { by rewrite lookup_nil in Hi. }
  destruct i as [|i], k as [|k]; simpl in *; simplify_eq; try lia.
  - rewrite Forall_forall in Hx. apply Hx. by eapply list_elem_of_lookup_2.
  - apply (IH i k); [lia|done|done].
Qed.

Lemma sorted_filter_split (Q : nat → Prop) `{!∀ y, Decision (Q y)} l :
  StronglySorted le l →
  (∀ y y', (y ≤ y')%nat → Q y' → Q y) →
  l = filter Q l ++ filter (fun y => ¬ Q y) l.
Proof.
  intros Hs Hd. induction Hs as [|a l Hs IH Ha]; [done|].
  rewrite !filter_cons. destruct (decide (Q a)) as [Hq|Hq].
  - rewrite decide_False by tauto. simpl. by f_equal.
  - rewrite decide_True by done.
    assert (filter Q l = []) as Hnil.
    { apply elem_of_nil_inv. intros y [Hy Hin]%list_elem_of_filter.
      rewrite Forall_forall in Ha. apply Hq, (Hd a y); [|done].
      by apply Ha. }
    rewrite Hnil in IH |- *. simpl in *. by f_equal.
Qed.

Lemma below_split l (x : Z) :
  StronglySorted le l →
  take (bisect_left_z l x) l = filter (fun y => Z.of_nat y < x) l
  ∧ drop (bisect_left_z l x) l = filter (fun y => ¬ Z.of_nat y < x) l.
Proof.
  intros Hs. unfold bisect_left_z.
  pose proof (sorted_filter_split (fun y => Z.of_nat y < x) l Hs
                ltac:(cbv beta; intros; lia)) as H.
  split.
  - transitivity (take (length (filter (fun y => Z.of_nat y < x) l))
                    (filter (fun y => Z.of_nat y < x) l
                     ++ filter (fun y => ¬ Z.of_nat y < x) l));
      [by rewrite <- H|apply take_app_length].
  - transitivity (drop (length (filter (fun y => Z.of_nat y < x) l))
                    (filter (fun y => Z.of_nat y < x) l
                     ++ filter (fun y => ¬ Z.of_nat y < x) l));
      [by rewrite <- H|apply drop_app_length].
Qed.

Lemma upto_split l (x : Z) :
  StronglySorted le l →
  take (bisect_right_z l x) l = filter (fun y => Z.of_nat y ≤ x) l
  ∧ drop (bisect_right_z l x) l = filter (fun y => ¬ Z.of_nat y ≤ x) l.
Proof.
  intros Hs. unfold bisect_right_z.
  pose proof (sorted_filter_split (fun y => Z.of_nat y ≤ x) l Hs
                ltac:(cbv beta; intros; lia)) as H.
  split.
  - transitivity (take (length (filter (fun y => Z.of_nat y ≤ x) l))
                    (filter (fun y => Z.of_nat y ≤ x) l
                     ++ filter (fun y => ¬ Z.of_nat y ≤ x) l));
      [by rewrite <- H|apply take_app_length].
  - transitivity (drop (length (filter (fun y => Z.of_nat y ≤ x) l))
                    (filter (fun y => Z.of_nat y ≤ x) l
                     ++ filter (fun y => ¬ Z.of_nat y ≤ x) l));
      [by rewrite <- H|apply drop_app_length].
Qed.

(** The entry at [bisect_left] is the least one not below [x]. *)
Lemma lookup_bisect_left l x j :
  StronglySorted le l →
  l !! bisect_left_z l x = Some j
  ↔ j ∈ l ∧ x ≤ Z.of_nat j
    ∧ ∀ j', j' ∈ l → x ≤ Z.of_nat j' → (j ≤ j')%nat.
Proof.
  intros Hs. destruct (below_split l x Hs) as [Ht Hd].
  set (n := bisect_left_z l x) in *.
  assert (Hin : ∀ y, y ∈ l → x ≤ Z.of_nat y →
            ∃ m, l !! (n + m)%nat = Some y).
  { intros y Hy Hx.
    assert (y ∈ drop n l) as Hyd.
    { rewrite Hd. apply list_elem_of_filter. split; [lia|done]. }
    apply list_elem_of_lookup in Hyd as [m Hm].
    exists m. by rewrite lookup_drop in Hm. }
  split.
  - intros Hj. assert (j ∈ drop n l) as Hjd.
    { apply list_elem_of_lookup. exists 0%nat.
      by rewrite lookup_drop, Nat.add_0_r. }
    rewrite Hd in Hjd. apply list_elem_of_filter in Hjd as [Hx Hjl].
    split; [done|]. split; [lia|].
    intros j' Hj' Hx'. destruct (Hin j' Hj' Hx') as [m Hm].
    apply (sorted_le_lookup l n (n + m)); [done|lia|done|done].
  - intros (Hjl & Hx & Hmin). destruct (Hin j Hjl Hx) as [m Hm].
    destruct (lookup_lt_is_Some_2 l n) as [j0 Hj0].
    { apply lookup_lt_Some in Hm. lia. }
    rewrite Hj0. f_equal.
    assert (j0 ∈ drop n l) as Hjd.
    { apply list_elem_of_lookup. exists 0%nat.
      by rewrite lookup_drop, Nat.add_0_r. }
    rewrite Hd in Hjd. apply list_elem_of_filter in Hjd as [Hx0 Hj0l].
    pose proof (sorted_le_lookup l n (n + m) j0 j Hs ltac:(lia) Hj0 Hm).
    specialize (Hmin j0 Hj0l ltac:(lia)). lia.
Qed.

(** The entry before [bisect_left] is the greatest one below [x]. *)
Lemma lookup_before_bisect_left l x j :
  StronglySorted le l →
  (if 0 <=? Z.of_nat (bisect_left_z l x) - 1
   then l !! Z.to_nat (Z.of_nat (bisect_left_z l x) - 1) else None) = Some j
  ↔ j ∈ l ∧ Z.of_nat j < x
    ∧ ∀ j', j' ∈ l → Z.of_nat j' < x → (j' ≤ j)%nat.
Proof.
  intros Hs. destruct (below_split l x Hs) as [Ht Hd].
  set (n := bisect_left_z l x) in *.
  assert (Hn : (n ≤ length l)%nat).
  { unfold n, bisect_left_z. apply length_filter. }
  assert (Hin : ∀ y, y ∈ l → Z.of_nat y < x →
            ∃ m, (m < n)%nat ∧ l !! m = Some y).
  { intros y Hy Hx.
    assert (y ∈ take n l) as Hyt.
    { rewrite Ht. by apply list_elem_of_filter. }
    apply list_elem_of_lookup in Hyt as [m Hm].
    pose proof (lookup_lt_Some _ _ _ Hm) as Hlt.
    rewrite length_take in Hlt.
    exists m. split; [lia|]. by rewrite lookup_take_lt in Hm by lia. }
  assert (Hlast : ∀ j0, (0 < n)%nat → l !! (n - 1)%nat = Some j0 →
            j0 ∈ l ∧ Z.of_nat j0 < x).
  { intros j0 Hpos Hj0. assert (j0 ∈ take n l) as Hjt.
    { apply list_elem_of_lookup. exists (n - 1)%nat.
      by rewrite lookup_take_lt by lia. }
    rewrite Ht in Hjt. by apply list_elem_of_filter in Hjt as [? ?]. }
  split.
  - destruct (0 <=? Z.of_nat n - 1) eqn:E; [|done]. apply Z.leb_le in E.
    replace (Z.to_nat (Z.of_nat n - 1)) with (n - 1)%nat by lia.
    intros Hj. destruct (Hlast j ltac:(lia) Hj) as [Hjl Hx].
    split; [done|]. split; [done|].
    intros j' Hj' Hx'. destruct (Hin j' Hj' Hx') as (m & Hm & Hlm).
    apply (sorted_le_lookup l m (n - 1)); [done|lia|done|done].
  - intros (Hjl & Hx & Hmax). destruct (Hin j Hjl Hx) as (m & Hm & Hlm).
    rewrite (proj2 (Z.leb_le _ _)) by lia.
    replace (Z.to_nat (Z.of_nat n - 1)) with (n - 1)%nat by lia.
    destruct (lookup_lt_is_Some_2 l (n - 1)) as [j0 Hj0]; [lia|].
    rewrite Hj0. f_equal.
    destruct (Hlast j0 ltac:(lia) Hj0) as [Hj0l Hx0].
    pose proof (sorted_le_lookup l m (n - 1) j j0 Hs ltac:(lia) Hlm Hj0).
    specialize (Hmax j0 Hj0l Hx0). lia.
Qed.

Lemma filter_filter_and (Q R : nat → Prop)
  `{!∀ y, Decision (Q y)} `{!∀ y, Decision (R y)} l :
  filter Q (filter R l) = filter (fun y => Q y ∧ R y) l.
Proof.
  induction l as [|a l IH]; [done|]. rewrite !filter_cons.
  destruct (decide (R a)), (decide (Q a)); rewrite ?filter_cons;
    repeat case_decide; try tauto; by rewrite IH.
Qed.

Lemma sorted_filter (Q : nat → Prop) `{!∀ y, Decision (Q y)} l :
  StronglySorted le l → StronglySorted le (filter Q l).
Proof.
  induction 1 as [|a l Hs IH Ha]; [constructor|]. rewrite filter_cons.
  destruct (decide (Q a)); [|done]. constructor; [done|].
  rewrite Forall_forall in Ha |- *.
  intros y [_ Hy]%list_elem_of_filter. by apply Ha.
Qed.

(** The slice between [bisect_right lo] and [bisect_left hi] holds the
    entries strictly between the two bounds. *)
Lemma slice_between l lo hi :
  StronglySorted le l →
  take (bisect_left_z l hi - bisect_right_z l lo)
       (drop (bisect_right_z l lo) l)
  = filter (fun y => lo < Z.of_nat y < hi) l.
Proof.
  intros Hs. destruct (upto_split l lo Hs) as [_ Hd]. rewrite Hd.
  set (l' := filter (fun y => ¬ Z.of_nat y ≤ lo) l).
  assert (StronglySorted le l') as Hs' by (by apply sorted_filter).
  destruct (below_split l' hi Hs') as [Ht' _].
  assert (bisect_left_z l hi - bisect_right_z l lo
          = bisect_left_z l' hi)%nat as ->.
  { unfold bisect_left_z, bisect_right_z, l'.
    rewrite filter_filter_and.
    pose proof (sorted_filter_split (fun y => Z.of_nat y ≤ lo)
                  (filter (fun y => Z.of_nat y < hi) l)
                  (sorted_filter _ l Hs) ltac:(cbv beta; intros; lia)) as Hsp.
    rewrite !filter_filter_and in Hsp.
    apply (f_equal length) in Hsp. rewrite length_app in Hsp.
    destruct (decide (lo < hi)) as [Hlt|Hge].
    - assert (filter (fun y => Z.of_nat y ≤ lo ∧ Z.of_nat y < hi) l
              = filter (fun y => Z.of_nat y ≤ lo) l) as Heq.
      { apply list_filter_iff. intros y. lia. }
      rewrite Heq in Hsp.
      assert (filter (fun y => ¬ Z.of_nat y ≤ lo ∧ Z.of_nat y < hi) l
              = filter (fun y => Z.of_nat y < hi ∧ ¬ Z.of_nat y ≤ lo) l)
        as Heq2.
      { apply list_filter_iff. intros y. lia. }
      rewrite Heq2 in Hsp. lia.
    - assert (filter (fun y => Z.of_nat y < hi ∧ ¬ Z.of_nat y ≤ lo) l = [])
        as ->.
      { apply elem_of_nil_inv. intros y [Hy _]%list_elem_of_filter. lia. }
      simpl.
      pose (A := filter (fun y => Z.of_nat y < hi) l).
      pose (B := filter (fun y => Z.of_nat y ≤ lo) l).
      assert (length A ≤ length B)%nat.
      { unfold A, B. rewrite (sorted_filter_split (fun y => Z.of_nat y < hi)
                   (filter (fun y => Z.of_nat y ≤ lo) l)
                   (sorted_filter _ l Hs) ltac:(cbv beta; intros; lia)).
        rewrite length_app, filter_filter_and.
        assert (filter (fun y => Z.of_nat y < hi ∧ Z.of_nat y ≤ lo) l
                = filter (fun y => Z.of_nat y < hi) l) as ->.
        { apply list_filter_iff. intros y. lia. }
        lia. }
      unfold A, B in *. lia. }
  rewrite Ht'. unfold l'. rewrite filter_filter_and.
  apply list_filter_iff. intros y. lia.
Qed.

End SortedLists.

Section IndexBuild.
Context `{Countable K}.
Implicit Types (ix : gmap K (list nat)).

Lemma entries_empty (k : K) : entries (∅ : gmap K (list nat)) k = [].
Proof. unfold entries. by rewrite lookup_empty. Qed.

Lemma entries_index_append ix k idx k' :
  entries (index_append ix k idx) k'
  = if decide (k = k') then entries ix k' ++ [idx] else entries ix k'.
Proof.
  unfold entries, index_append. case_decide as E.
  - subst. by rewrite lookup_insert_eq.
  - by rewrite lookup_insert_ne.
Qed.

Lemma entries_index_keys ks ix idx k :
  ∃ m, entries (foldl (fun ix a => index_append ix a idx) ix ks) k
       = entries ix k ++ replicate m idx
       ∧ ((0 < m)%nat ↔ k ∈ ks).
Proof.
  revert ix. induction ks as [|a ks IH]; intros ix; simpl.
  - exists 0%nat. rewrite app_nil_r. split; [done|].
    split; [lia|]. intros Hk. by apply elem_of_nil in Hk.
  - destruct (IH (index_append ix a idx)) as (m & Hm & Hiff).
    rewrite Hm, entries_index_append. case_decide as E.
    + subst. exists (S m). rewrite <- app_assoc. simpl.
      split; [done|]. split; [intros _; by left|lia].
    + exists m. split; [done|]. rewrite Hiff.
      split; [by right|]. intros [?|?]%elem_of_cons; [by subst|done].
Qed.

Variable step : gmap K (list nat) → nat → TraceEvent → gmap K (list nat).
Variable Q : TraceEvent → K → Prop.
Hypothesis Hstep : ∀ ix idx ev k,
  ∃ m, entries (step ix idx ev) k = entries ix k ++ replicate m idx
       ∧ ((0 < m)%nat ↔ Q ev k).

Lemma index_run_elem ix idx evs k j :
  j ∈ entries (index_run step ix idx evs) k
  ↔ j ∈ entries ix k
    ∨ ∃ n ev, evs !! n = Some ev ∧ j = (idx + n)%nat ∧ Q ev k.
Proof.
  revert ix idx. induction evs as [|e evs IH]; intros ix idx; simpl.
  { split; [by left|]. intros [?|(n & ev & Hn & _)]; [done|].
    by rewrite lookup_nil in Hn. }
  rewrite IH. destruct (Hstep ix idx e k) as (m & -> & Hm).
  rewrite elem_of_app, elem_of_replicate. split.
  - intros [[?|[-> Hne]]|(n & ev & Hn & -> & Hq)].
    + by left.
    + right. exists 0%nat, e. rewrite Nat.add_0_r.
      split_and!; [done|done|]. apply Hm. lia.
    + right. exists (S n), ev. split_and!; [done|lia|done].
  - intros [?|(n & ev & Hn & -> & Hq)].
    + left. by left.
    + destruct n as [|n]; simpl in Hn.
      * simplify_eq. left. right. rewrite Nat.add_0_r. split; [done|].
        apply Hm in Hq. lia.
      * right. exists n, ev. split_and!; [done|lia|done].
Qed.

Lemma replicate_sorted m (idx : nat) : StronglySorted le (replicate m idx).
Proof.
  induction m as [|m IH]; simpl; constructor; [done|].
  apply Forall_forall. intros y [-> _]%elem_of_replicate. done.
Qed.

Lemma index_run_sorted ix idx evs k :
  StronglySorted le (entries ix k) →
  Forall (fun y => (y < idx)%nat) (entries ix k) →
  StronglySorted le (entries (index_run step ix idx evs) k).
Proof.
  revert ix idx. induction evs as [|e evs IH]; intros ix idx Hs Hb; simpl.
  { done. }
  destruct (Hstep ix idx e k) as (m & Heq & _). apply IH; rewrite Heq.
  - apply StronglySorted_app. split_and!; [|done|apply replicate_sorted].
    intros x y Hx [-> _]%elem_of_replicate.
    rewrite Forall_forall in Hb. specialize (Hb x Hx). lia.
  - apply Forall_app. split.
    + eapply Forall_impl; [exact Hb|]. simpl. lia.
    + apply Forall_forall. intros y [-> _]%elem_of_replicate. lia.
Qed.

End IndexBuild.

Section TraceIndexes.

Lemma index_regs_step ix d idx k :
  ∃ m, entries (index_regs ix d idx) k = entries ix k ++ replicate m idx
       ∧ ((0 < m)%nat ↔ ∃ r, r ∈ keys d ∧ k ∈ _alias_names r).
Proof.
  unfold index_regs. revert ix.
  induction (keys d) as [|r rs IH]; intros ix; simpl.
  - exists 0%nat. rewrite app_nil_r. split; [done|].
    split; [lia|]. intros (r & Hr & _). by apply elem_of_nil in Hr.
  - destruct (IH (foldl (fun ix a => index_append ix a idx) ix
                        (_alias_names r))) as (m2 & Hm2 & Hiff2).
    destruct (entries_index_keys (_alias_names r) ix idx k)
      as (m1 & Hm1 & Hiff1).
    exists (m1 + m2)%nat. rewrite Hm2, Hm1, <- app_assoc, replicate_add.
    split; [done|]. split.
    + intros Hpos. destruct (decide (0 < m1)%nat) as [H1|H1].
      * exists r. split; [by left|by apply Hiff1].
      * destruct (proj1 Hiff2 ltac:(lia)) as (r' & Hr' & Hk).
        exists r'. split; [by right|done].
    + intros (r' & [->|Hr']%elem_of_cons & Hk).
      * apply Hiff1 in Hk. lia.
      * assert (0 < m2)%nat by (apply Hiff2; by exists r'). lia.
Qed.

Lemma index_addr_step (ix : gmap Z (list nat)) idx ev k :
  ∃ m, entries (index_append ix (pc ev) idx) k
       = entries ix k ++ replicate m idx
       ∧ ((0 < m)%nat ↔ pc ev = k).
Proof.
  rewrite entries_index_append. case_decide.
  - exists 1%nat. split; [done|]. split; [done|lia].
  - exists 0%nat. rewrite app_nil_r. split; [done|]. split; [lia|done].
Qed.

Lemma index_events_fields ixs idx evs :
  addr_index (index_events ixs idx evs)
  = index_run (fun ix idx ev => index_append ix (pc ev) idx)
              (addr_index ixs) idx evs
  ∧ reg_read_index (index_events ixs idx evs)
    = index_run (fun ix idx ev => index_regs ix (reads ev) idx)
                (reg_read_index ixs) idx evs
  ∧ reg_write_index (index_events ixs idx evs)
    = index_run (fun ix idx ev => index_regs ix (writes ev) idx)
                (reg_write_index ixs) idx evs.
Proof.
  revert ixs idx. induction evs as [|e evs IH]; intros ixs idx; simpl.
  { done. }
  apply (IH (_index_event ixs idx e) (S idx)).
Qed.

Variable evs : list TraceEvent.

Lemma write_entries_spec reg :
  (∀ j, j ∈ entries (reg_write_index (build_indexes evs)) reg
        ↔ writes_alias evs reg j)
  ∧ StronglySorted le (entries (reg_write_index (build_indexes evs)) reg).
Proof.
  unfold build_indexes.
  destruct (index_events_fields indexes_init 0 evs) as (_ & _ & ->).
  simpl. split.
  - intros j.
    rewrite (index_run_elem _ (fun ev k => ∃ r, r ∈ keys (writes ev)
                                            ∧ k ∈ _alias_names r))
      by (intros; apply index_regs_step).
    rewrite entries_empty. unfold writes_alias. split.
    + intros [Hj|(n & ev & Hn & -> & r & Hr & Hk)].
      { by apply elem_of_nil in Hj. }
      by exists ev, r.
    + intros (ev & r & Hj & Hr & Hk). right. exists j, ev.
      split_and!; [done|done|]. by exists r.
  - apply (index_run_sorted _ (fun ev k => ∃ r, r ∈ keys (writes ev)
                                            ∧ k ∈ _alias_names r)).
    + intros; apply index_regs_step.
    + rewrite entries_empty. constructor.
    + rewrite entries_empty. constructor.
Qed.

Lemma read_entries_spec reg :
  (∀ j, j ∈ entries (reg_read_index (build_indexes evs)) reg
        ↔ reads_alias evs reg j)
  ∧ StronglySorted le (entries (reg_read_index (build_indexes evs)) reg).
Proof.
  unfold build_indexes.
  destruct (index_events_fields indexes_init 0 evs) as (_ & -> & _).
  simpl. split.
  - intros j.
    rewrite (index_run_elem _ (fun ev k => ∃ r, r ∈ keys (reads ev)
                                            ∧ k ∈ _alias_names r))
      by (intros; apply index_regs_step).
    rewrite entries_empty. unfold reads_alias. split.
    + intros [Hj|(n & ev & Hn & -> & r & Hr & Hk)].
      { by apply elem_of_nil in Hj. }
      by exists ev, r.
    + intros (ev & r & Hj & Hr & Hk). right. exists j, ev.
      split_and!; [done|done|]. by exists r.
  - apply (index_run_sorted _ (fun ev k => ∃ r, r ∈ keys (reads ev)
                                            ∧ k ∈ _alias_names r)).
    + intros; apply index_regs_step.
    + rewrite entries_empty. constructor.
    + rewrite entries_empty. constructor.
Qed.

Lemma addr_entries_spec p :
  (∀ j, j ∈ entries (addr_index (build_indexes evs)) p
        ↔ ∃ ev, evs !! j = Some ev ∧ pc ev = p)
  ∧ StronglySorted le (entries (addr_index (build_indexes evs)) p).
Proof.
  unfold build_indexes.
  destruct (index_events_fields indexes_init 0 evs) as (-> & _ & _).
  simpl. split.
  - intros j.
    rewrite (index_run_elem _ (fun ev k => pc ev = k))
      by (intros; apply index_addr_step).
    rewrite entries_empty. split.
    + intros [Hj|(n & ev & Hn & -> & Hq)].
      { by apply elem_of_nil in Hj. }
      by exists ev.
    + intros (ev & Hj & Hq). right. by exists j, ev.
  - apply (index_run_sorted _ (fun ev k => pc ev = k)).
    + intros; apply index_addr_step.
    + rewrite entries_empty. constructor.
    + rewrite entries_empty. constructor.
Qed.

End TraceIndexes.

(** X14: [find_prev_write] returns the last event before the given index that
    writes the register or its alias, and [None] when there is none (in
    particular for a bound of zero or less, or a name under which nothing
    is indexed). *)
Theorem find_prev_write_spec evs reg from j :
  find_prev_write (build_indexes evs) reg from = Some j
  ↔ writes_alias evs reg j ∧ Z.of_nat j < from
    ∧ ∀ j', writes_alias evs reg j' → Z.of_nat j' < from → (j' ≤ j)%nat.
Proof.
  destruct (write_entries_spec evs reg) as [Hin Hs].
  assert (find_prev_write (build_indexes evs) reg from
          = let lst := entries (reg_write_index (build_indexes evs)) reg in
            if 0 <=? Z.of_nat (bisect_left_z lst from) - 1
            then lst !! Z.to_nat (Z.of_nat (bisect_left_z lst from) - 1)
            else None) as ->.
  { unfold find_prev_write, entries.
    by destruct (reg_write_index (build_indexes evs) !! reg) as [[|y l]|]. }
  simpl. rewrite lookup_before_bisect_left by done.
  rewrite Hin. by setoid_rewrite Hin.
Qed.

(** X15: [find_next_write] returns the first event at or after the given index
    that writes the register or its alias, and [None] when there is
    none. *)
Theorem find_next_write_spec evs reg from j :
  find_next_write (build_indexes evs) reg from = Some j
  ↔ writes_alias evs reg j ∧ from ≤ Z.of_nat j
    ∧ ∀ j', writes_alias evs reg j' → from ≤ Z.of_nat j' → (j ≤ j')%nat.
Proof.
  destruct (write_entries_spec evs reg) as [Hin Hs].
  assert (find_next_write (build_indexes evs) reg from
          = let lst := entries (reg_write_index (build_indexes evs)) reg in
            lst !! bisect_left_z lst from) as ->.
  { unfold find_next_write, entries.
    by destruct (reg_write_index (build_indexes evs) !! reg) as [[|y l]|]. }
  simpl. rewrite lookup_bisect_left by done.
  rewrite Hin. by setoid_rewrite Hin.
Qed.

(** X16: [read_indices_in_range] returns, in ascending order, the events
    strictly between the two bounds that read the register or its alias,
    and nothing else. *)
Theorem read_indices_in_range_spec evs reg lo hi :
  (∀ j, j ∈ read_indices_in_range (build_indexes evs) reg lo hi
        ↔ reads_alias evs reg j ∧ lo < Z.of_nat j < hi)
  ∧ StronglySorted le (read_indices_in_range (build_indexes evs) reg lo hi).
Proof.
  destruct (read_entries_spec evs reg) as [Hin Hs].
  unfold read_indices_in_range.
  change (default [] (reg_read_index (build_indexes evs) !! reg))
    with (entries (reg_read_index (build_indexes evs)) reg).
  cbv zeta. rewrite slice_between by done. split.
  - intros j. rewrite list_elem_of_filter, Hin. tauto.
  - by apply sorted_filter.
Qed.

(** X17: [find_first_event_by_pc] returns the first event at the given
    address, and [None] when no event has it. *)
Theorem find_first_event_by_pc_spec evs p j :
  find_first_event_by_pc (build_indexes evs) p = Some j
  ↔ (∃ ev, evs !! j = Some ev ∧ pc ev = p)
    ∧ ∀ j' ev', evs !! j' = Some ev' → pc ev' = p → (j ≤ j')%nat.
Proof.
  destruct (addr_entries_spec evs p) as [Hin Hs].
  assert (find_first_event_by_pc (build_indexes evs) p
          = let lst := entries (addr_index (build_indexes evs)) p in
            lst !! bisect_left_z lst 0) as ->.
  { unfold find_first_event_by_pc, entries.
    destruct (addr_index (build_indexes evs) !! p) as [[|y l]|]; try done.
    cbv zeta. unfold bisect_left_z.
    assert (filter (fun y0 => Z.of_nat y0 < 0) (default [] (Some (y :: l)))
            = []) as ->; [|done].
    apply elem_of_nil_inv. intros x [Hx _]%list_elem_of_filter. lia. }
  simpl. rewrite lookup_bisect_left by done. rewrite Hin. split.
  - intros (He & _ & Hmin). split; [done|].
    intros j' ev' Hj' Hp. apply Hmin; [|lia]. apply Hin. by exists ev'.
  - intros (He & Hmin). split; [done|]. split; [lia|].
    intros j' (ev' & Hj' & Hp)%Hin _. by apply (Hmin j' ev').
Qed.

(** * The start event of a backward run *)

Section BackwardStart.
Variable P : TraceParser.

Lemma back_write_used_mono emt i ev a T M Term rd :
  (back_write P emt i ev a (T, M, Term, true) rd).2 = true.
Proof. unfold back_write. by repeat case_match. Qed.

Lemma back_writes_used_mono emt i ev a l T M Term :
  (foldl (back_write P emt i ev a) (T, M, Term, true) l).2 = true.
Proof.
  revert T M Term. induction l as [|rd l IH]; intros T M Term; [done|].
  cbn [foldl].
  pose proof (back_write_used_mono emt i ev a T M Term rd) as H.
  destruct (back_write P emt i ev a (T, M, Term, true) rd)
    as [[[T1 M1] Term1] u1].
  simpl in H. subst u1. apply IH.
Qed.

Lemma back_writes_used emt i ev a l T M Term :
  existsb (live_alias T Term) l = true →
  (foldl (back_write P emt i ev a) (T, M, Term, false) l).2 = true.
Proof.
  induction l as [|rd l IH]; [done|]. cbn [foldl existsb].
  destruct (live_alias T Term rd) eqn:Hl.
  - intros _.
    assert ((back_write P emt i ev a (T, M, Term, false) rd).2 = true) as H.
    { unfold back_write. rewrite Hl. by repeat case_match. }
    destruct (back_write P emt i ev a (T, M, Term, false) rd)
      as [[[T1 M1] Term1] u1].
    simpl in H. subst u1. apply back_writes_used_mono.
  - rewrite orb_false_l. intros H.
    assert (back_write P emt i ev a (T, M, Term, false) rd
            = (T, M, Term, false)) as ->.
    { unfold back_write. by rewrite Hl. }
    by apply IH.
Qed.

(** From the initial state, an event is a hit exactly when it writes
    or reads the target or an alias of it. *)
Lemma back_event_start reg emt i ev :
  (back_event P emt i ev (back_target reg) ∅ ∅).2
  = existsb (names_target reg) (keys (writes ev))
    || existsb (names_target reg) (keys (reads ev)).
Proof.
  destruct (existsb (names_target reg) (keys (writes ev))) eqn:Hw.
  - unfold back_event.
    pose proof (back_writes_used emt i ev (Py.lower (asm ev))
                  (keys (writes ev)) (back_target reg) ∅ ∅ Hw) as H.
    destruct (foldl _ _ _) as [[[T1 M1] Term1] u1]. simpl in H. subst u1.
    simpl. repeat case_match; done.
  - rewrite (back_event_untouched P reg emt i ev Hw). done.
Qed.

Lemma back_loop_hits_prefix sco ms emt bc idxs st :
  ∃ l, b_hits (back_loop P sco ms emt bc idxs st) = b_hits st ++ l
       ∧ ∀ h, h ∈ l → h ∈ idxs.
Proof.
  revert st. induction idxs as [|i idxs IH]; intros st; simpl.
  { exists []. by rewrite app_nil_r. }
  assert (Hstop : ∃ l, b_hits st = b_hits st ++ l
                       ∧ ∀ h, h ∈ l → h ∈ i :: idxs).
  { exists []. rewrite app_nil_r. split; [done|].
    intros h Hh. by apply elem_of_nil in Hh. }
  destruct (ms <=? b_steps st); [done|].
  destruct (events P !! i) as [ev|]; [|done].
  destruct (sco && negb (call_id ev =? bc)%nat).
  { destruct (IH st) as (l & Hl & Hin). exists l. split; [done|].
    intros h Hh. right. by apply Hin. }
  destruct (back_event P emt i ev (b_tainted_regs st) (b_tainted_mem st)
              (b_terminated_regs st)) as [[[T M] Term] used].
  match goal with |- context [back_loop P sco ms emt bc idxs ?s] =>
    destruct (IH s) as (l & Hl & Hin) end.
  simpl in Hl. destruct used.
  - exists (i :: l). rewrite Hl, <- app_assoc. split; [done|].
    intros h [->|Hh]%elem_of_cons; [by left|]. right. by apply Hin.
  - exists l. split; [done|]. intros h Hh. right. by apply Hin.
Qed.

End BackwardStart.

(** X18: With a positive step budget on a trace that is not empty, the
    backward engine reports its start event exactly when that event
    reads or writes the target register or its alias, and then the start
    event is the last entry of the list. *)
Theorem backward_reports_start_event P start_idx reg tv sco ms emt :
  events P ≠ [] → 0 < ms →
  let s := clamp_index start_idx (length (events P)) in
  (s ∈ taint_backward P start_idx reg tv sco ms emt
   ↔ event_reads_target P reg s = true ∨ event_writes_target P reg s = true)
  ∧ (s ∈ taint_backward P start_idx reg tv sco ms emt →
     last (taint_backward P start_idx reg tv sco ms emt) = Some s).
Proof.
  intros Hne Hms s. unfold taint_backward.
  rewrite bool_decide_eq_false_2 by done. unfold back_run. fold s.
  assert (s < length (events P))%nat as Hs.
  { apply clamp_index_lt. destruct (events P); simpl; [done|lia]. }
  destruct (lookup_lt_is_Some_2 (events P) s Hs) as [ev Hev].
  rewrite Hev. cbn [from_option].
  unfold down_from. rewrite seq_S, rev_app_distr.
  change (0 + s)%nat with s. cbn [rev app back_loop].
  change (b_steps (back_init reg)) with 0.
  rewrite (proj2 (Z.leb_gt _ _)) by lia. rewrite Hev.
  rewrite Nat.eqb_refl, andb_false_r.
  change (b_tainted_regs (back_init reg)) with (back_target reg).
  change (b_tainted_mem (back_init reg)) with (∅ : gset Z).
  change (b_terminated_regs (back_init reg)) with (∅ : gset string).
  pose proof (back_event_start P reg emt s ev) as Hused.
  destruct (back_event P emt s ev (back_target reg) ∅ ∅)
    as [[[T M] Term] used].
  simpl in Hused.
  assert (used = true ↔ event_reads_target P reg s = true
                        ∨ event_writes_target P reg s = true) as Hiff.
  { unfold event_reads_target, event_writes_target. rewrite Hev, Hused.
    rewrite orb_true_iff. tauto. }
  match goal with |- context [back_loop P sco ms emt ?bc ?idxs ?st] =>
    destruct (back_loop_hits_prefix P sco ms emt bc idxs st)
      as (l & Hl & Hin) end.
  rewrite Hl. cbn [b_hits back_init].
  assert (s ∉ l) as Hnot.
  { intros Hsl. apply Hin, list_elem_of_In, in_rev, list_elem_of_In in Hsl.
    apply elem_of_seq in Hsl. lia. }
  destruct used.
  - cbn [app rev].
    split.
    + split; [intros _; by apply Hiff|].
      intros _. apply list_elem_of_In, in_or_app. right. by left.
    + intros _. by rewrite last_snoc.
  - cbn [app]. split.
    + split.
      * intros Hin'. apply list_elem_of_In, in_rev, list_elem_of_In in Hin'.
        done.
      * intros H%Hiff. done.
    + intros Hin'. apply list_elem_of_In, in_rev, list_elem_of_In in Hin'.
      done.
Qed.

Lemma backward_reports_start_event_witness :
  ∃ P, parse_events 2000 param_trace = Some P
       ∧ last (taint_backward P 3 "r0" None false 100000 true) = Some 3%nat.
Proof.
  eexists. split; [vm_compute; reflexivity|].
  match goal with |- last (taint_backward ?P _ _ _ _ _ _) = _ =>
    destruct (backward_reports_start_event P 3 "r0" None false 100000 true)
      as [H1 H2] end.
  - vm_compute; discriminate.
  - lia.
  - apply H2, H1. left. vm_compute; reflexivity.
Defined.

(** * Looking up the previous store to an address *)

Section ScanIndex.
Variable P : TraceParser.

Lemma scan_index_spec scid (l : list nat) :
  StronglySorted le l →
  (∀ j, j ∈ l → (j < length (events P))%nat) →
  ∃ r, scan_index (events P) scid (rev l) = Some r
       ∧ ∀ j, r = Some j
              ↔ j ∈ l ∧ in_call P scid j
                ∧ ∀ j', j' ∈ l → in_call P scid j' → (j' ≤ j)%nat.
Proof.
  induction l as [|x l IH] using rev_ind; intros Hs Hlt.
  { exists None. split; [done|]. intros j. split; [done|].
    intros (Hj & _). by apply elem_of_nil in Hj. }
  apply StronglySorted_app in Hs as (Hcross & Hs & _).
  rewrite rev_app_distr. cbn [rev app scan_index].
  assert (Hmax : ∀ j', j' ∈ l ++ [x] → (j' ≤ x)%nat).
  { intros j' [Hj'|Hj']%elem_of_app.
    - apply Hcross; [done|]. by apply list_elem_of_singleton.
    - apply list_elem_of_singleton in Hj' as ->. done. }
  assert (Hx : x ∈ l ++ [x]).
  { apply elem_of_app. right. by apply list_elem_of_singleton. }
  destruct scid as [cid|].
  2: { exists (Some x). split; [done|]. intros j. split.
       - intros ?; simplify_eq. split_and!; [done|done|].
         intros j' Hj' _. by apply Hmax.
       - intros (Hj & _ & Hm). f_equal.
         specialize (Hm x Hx I). specialize (Hmax j Hj). lia. }
  destruct (lookup_lt_is_Some_2 (events P) x) as [ev Hev].
  { by apply Hlt. }
  rewrite Hev. destruct (call_id ev =? cid)%nat eqn:Hc.
  - apply Nat.eqb_eq in Hc. exists (Some x). split; [done|].
    intros j. split.
    + intros ?; simplify_eq. split_and!; [done|by exists ev|].
      intros j' Hj' _. by apply Hmax.
    + intros (Hj & _ & Hm). f_equal.
      specialize (Hm x Hx ltac:(by exists ev)). specialize (Hmax j Hj). lia.
  - apply Nat.eqb_neq in Hc.
    destruct (IH Hs) as (r & Hr & Hiff).
    { intros j Hj. apply Hlt, elem_of_app. by left. }
    exists r. split; [done|]. intros j. rewrite Hiff. split.
    + intros (Hj & Hin & Hm). split_and!; [apply elem_of_app; by left|done|].
      intros j' [Hj'|Hj']%elem_of_app Hin'; [by apply Hm|].
      apply list_elem_of_singleton in Hj' as ->.
      destruct Hin' as (ev' & Hev' & Hc'). congruence.
    + intros (Hj & Hin & Hm). apply elem_of_app in Hj as [Hj|Hj].
      * split_and!; [done|done|]. intros j' Hj' Hin'.
        apply Hm; [|done]. apply elem_of_app. by left.
      * apply list_elem_of_singleton in Hj as ->.
        destruct Hin as (ev' & Hev' & Hc'). congruence.
Qed.

End ScanIndex.

Section PrevStore.
Variables (interval : nat) (lexed : list TraceEvent) (P : TraceParser).
Hypothesis Hp : parse_events interval lexed = Some P.
Hypothesis Hl : lines_increasing lexed.

Lemma store_covers_listed j addr :
  listed (store_addr_index P) addr j ↔ store_covers P j addr.
Proof.
  split.
  - intros H. by apply (store_index_listed_inv interval lexed).
  - intros (ev & A & k & Hev & Hs & HA & Hk & ->).
    by apply (store_index_listed interval lexed P j ev A k).
Qed.

Lemma store_index_sorted addr lst :
  store_addr_index P !! addr = Some lst → StronglySorted le lst.
Proof.
  destruct (parse_events_spec _ _ _ Hp) as (evs' & _ & _ & Hix & _).
  intros Hlst. rewrite Hix, lookup_fmap in Hlst.
  destruct (_ !! addr) as [l0|]; simplify_eq/=.
  apply StronglySorted_merge_sort; apply _.
Qed.

Lemma parsed_store_base j ev a :
  events P !! j = Some ev →
  Py.startswith (Py.lower (asm ev)) "str" = true →
  effaddr ev = Some a → store_covers P j a.
Proof.
  intros Hev Hs Ha. exists ev, a, 0.
  assert (is_ldr_or_str (Py.lower (asm ev)) = true) as Hls.
  { unfold is_ldr_or_str. by rewrite Hs. }
  split_and!; [done|done|done|done| |].
  - destruct (parse_events_spec _ _ _ Hp) as (evs' & _ & Hevs & _).
    rewrite Hevs in Hev. apply imap_lookup_Some in Hev as (e & He & ->).
    destruct (same_insn_precomputed evs' j e) as [Hasm _].
    rewrite <- Hasm in Hls. unfold precomputed. rewrite Hls. simpl.
    pose proof (precompute_width_values e) as Hw.
    repeat (apply elem_of_cons in Hw as [->|Hw]); [done..|].
    by apply elem_of_nil in Hw.
  - pose proof (parsed_effaddr_ldr _ _ _ Hp _ _ Hev Hls) as He.
    rewrite Ha in He. apply effective_address_at_range in He as [Hr _].
    rewrite Z.add_0_r, Z.mod_small; [done|lia].
Qed.

Lemma scan_back_none addr ms scid js steps c :
  (∀ j, ¬ store_covers P j addr) →
  (∀ j, j ∈ js → (j < length (events P))%nat) →
  reachable P c →
  ∃ c', scan_back P addr ms scid js steps c = Some (None, c')
        ∧ reachable P c'.
Proof.
  intros Hno. revert steps c.
  induction js as [|j js IH]; intros steps c Hlt Hr; simpl.
  { by exists c. }
  destruct (ms <=? steps); [by exists c|].
  destruct (lookup_lt_is_Some_2 (events P) j) as [ev Hev].
  { apply Hlt. by left. }
  assert (Hlt' : ∀ j', j' ∈ js → (j' < length (events P))%nat).
  { intros j' Hj'. apply Hlt. by right. }
  rewrite Hev. destruct (Py.startswith (Py.lower (asm ev)) "str") eqn:Hs;
    simpl; [|by apply IH].
  destruct (match scid with
            | Some cid => negb (call_id ev =? cid)%nat
            | None => false
            end); [by apply IH|].
  assert (is_ldr_or_str (Py.lower (asm ev)) = true) as Hls.
  { unfold is_ldr_or_str. by rewrite Hs. }
  destruct (effaddr ev) as [a|] eqn:Ha.
  - rewrite bool_decide_eq_false_2; [by apply IH|].
    intros ?; simplify_eq. apply (Hno j).
    by apply (parsed_store_base j ev).
  - pose proof (effective_address_replay _ _ _ Hp Hl c (Z.of_nat j) Hr)
      as Hea.
    rewrite (proj2 (orb_false_iff _ _)) in Hea.
    2: { apply lookup_lt_Some in Hev.
         split; [apply Z.ltb_ge|apply Z.leb_gt]; lia. }
    rewrite Nat2Z.id, (parsed_effaddr_ldr _ _ _ Hp _ _ Hev Hls), Ha in Hea.
    pose proof (reach_effaddr P c (Z.of_nat j) Hr) as Hr'.
    destruct (effective_address P c (Z.of_nat j)) as [a c'].
    simpl in Hea, Hr'. subst a.
    rewrite bool_decide_eq_false_2 by done. by apply IH.
Qed.

End PrevStore.

(** X19: On a parsed trace, for a bound within the trace,
    [_find_prev_store_to_address] raises nothing and returns the last
    store event before the bound that covers the byte at the address
    (its address resolved, the byte within [mem_width] of it modulo
    2^32) and passes the call filter; [None] when there is none. *)
Theorem find_prev_store_exact interval lexed P c addr from ms scid :
  parse_events interval lexed = Some P → lines_increasing lexed →
  reachable P c → from ≤ Z.of_nat (length (events P)) →
  ∃ r c', _find_prev_store_to_address P c addr from ms scid = Some (r, c')
    ∧ reachable P c'
    ∧ ∀ j, r = Some j
           ↔ store_covers P j addr ∧ Z.of_nat j < from ∧ in_call P scid j
             ∧ ∀ j', store_covers P j' addr → Z.of_nat j' < from →
                     in_call P scid j' → (j' ≤ j)%nat.
Proof.
  intros Hp Hl Hr Hfrom. unfold _find_prev_store_to_address.
  destruct (store_addr_index P !! addr) as [lst|] eqn:Hix.
  2: { assert (Hno : ∀ j, ¬ store_covers P j addr).
       { intros j (l & Hl' & _)%(store_covers_listed interval lexed P Hp).
         congruence. }
       destruct (scan_back_none interval lexed P Hp Hl addr ms scid
                   (rev (seq 0 (Z.to_nat from))) 0 c Hno) as (c' & -> & Hr');
         [|done|].
       { intros j Hj%list_elem_of_In%in_rev%list_elem_of_In%elem_of_seq.
         lia. }
       exists None, c'. split_and!; [done|done|]. intros j. split; [done|].
       intros (Hc & _). by apply Hno in Hc. }
  destruct lst as [|y l].
  { assert (Hno : ∀ j, ¬ store_covers P j addr).
    { intros j (l & Hl' & Hj)%(store_covers_listed interval lexed P Hp).
      simplify_eq. by apply elem_of_nil in Hj. }
    destruct (scan_back_none interval lexed P Hp Hl addr ms scid
                (rev (seq 0 (Z.to_nat from))) 0 c Hno) as (c' & -> & Hr');
      [|done|].
    { intros j Hj%list_elem_of_In%in_rev%list_elem_of_In%elem_of_seq. lia. }
    exists None, c'. split_and!; [done|done|]. intros j. split; [done|].
    intros (Hc & _). by apply Hno in Hc. }
  pose proof (store_index_sorted interval lexed P Hp addr _ Hix) as Hs.
  assert (Hmem : ∀ j, j ∈ y :: l ↔ store_covers P j addr).
  { intros j. rewrite <- (store_covers_listed interval lexed P Hp).
    unfold listed. rewrite Hix. split; [by eexists|].
    intros (l' & ? & ?). by simplify_eq. }
  destruct (below_split (y :: l) from Hs) as [Ht _].
  cbv zeta. rewrite Ht.
  destruct (scan_index_spec P scid
              (filter (fun y0 => Z.of_nat y0 < from) (y :: l)))
    as (r & Hscan & Hiff).
  { by apply sorted_filter. }
  { intros j [_ Hj]%list_elem_of_filter. apply Hmem in Hj.
    destruct Hj as (ev & _ & _ & Hev & _). by apply lookup_lt_Some in Hev. }
  rewrite Hscan. exists r, c. split_and!; [done|done|].
  intros j. rewrite Hiff, list_elem_of_filter, Hmem. split.
  - intros ((Hlt & Hc) & Hin & Hm). split_and!; [done|done|done|].
    intros j' Hc' Hlt' Hin'. apply Hm; [|done].
    apply list_elem_of_filter. split; [done|]. by apply Hmem.
  - intros (Hc & Hlt & Hin & Hm). split_and!; [done|done|done|].
    intros j' [Hlt' Hj']%list_elem_of_filter Hin'.
    apply Hm; [by apply Hmem|done|done].
Qed.

Lemma find_prev_store_exact_witness :
  ∃ P, parse_events 2000 S1_trace = Some P
       ∧ ∃ r c', _find_prev_store_to_address P caches_init 0x9002 4 1500 None
                 = Some (r, c')
           ∧ reachable P c'.
Proof.
  eexists. split; [vm_compute; reflexivity|].
  match goal with |- context [_find_prev_store_to_address ?P] =>
    destruct (find_prev_store_exact 2000 S1_trace P caches_init 0x9002 4
                1500 None) as (r & c' & H1 & H2 & _) end.
  - vm_compute; reflexivity.
  - exact S1_lines.
  - apply reach_init.
  - vm_compute; discriminate.
  - by exists r, c'.
Defined.

(** * The window of events around an index *)

(** X20: For a window of zero or more, [find_events_near] returns the offset
    of the first event of the window and the events from there up to,
    but not including, [window] past the clamped index: entry [k] of the
    list is event [start + k] of the trace, there are at most twice
    [window] entries, and for a positive window on a trace that is not
    empty the clamped event itself is entry [ei - start]. *)
Theorem find_events_near_window P event_index window :
  0 ≤ window →
  let n := Z.of_nat (length (events P)) in
  let ei := Z.max 0 (Z.min event_index (n - 1)) in
  let start := (find_events_near P event_index window).1 in
  let evs := (find_events_near P event_index window).2 in
  start = Z.max 0 (ei - window)
  ∧ (∀ k ev, evs !! k = Some ev
             ↔ events P !! (Z.to_nat start + k)%nat = Some ev
               ∧ start + Z.of_nat k < ei + window)
  ∧ Z.of_nat (length evs) ≤ 2 * window
  ∧ (0 < window → events P ≠ [] →
     evs !! Z.to_nat (ei - start) = events P !! Z.to_nat ei).
Proof.
  intros Hw n ei start evs.
  assert (Hstart : start = Z.max 0 (ei - window)) by done.
  assert (Hevs : evs = take (Z.to_nat (Z.min n (ei + window) - start))
                            (drop (Z.to_nat start) (events P))).
  { unfold evs, find_events_near, py_slice. cbn [snd]. fold n ei.
    rewrite <- Hstart.
    rewrite (proj2 (Z.ltb_ge _ _)) by lia.
    rewrite (proj2 (Z.ltb_ge _ _)) by lia.
    f_equal; [|f_equal]; lia. }
  split; [done|]. split; [|split].
  - intros k ev. rewrite Hevs.
    destruct (decide (k < Z.to_nat (Z.min n (ei + window) - start))%nat)
      as [Hk|Hk].
    + rewrite lookup_take_lt by done. rewrite lookup_drop.
      split; [|by intros [? _]]. intros Hev. split; [done|].
      apply lookup_lt_Some in Hev. lia.
    + rewrite lookup_take_ge by lia. split; [done|].
      intros [Hev Hlt]. apply lookup_lt_Some in Hev. fold n in Hev. lia.
  - rewrite Hevs, length_take, length_drop. fold n. lia.
  - intros Hpos Hne.
    assert (0 < n) as Hn.
    { unfold n. destruct (events P); simpl; [done|lia]. }
    rewrite Hevs, lookup_take_lt by lia. rewrite lookup_drop.
    f_equal. lia.
Qed.

Lemma find_events_near_window_witness :
  ∃ P, parse_events 2000 S1_trace = Some P
       ∧ (find_events_near P 3 1).1 = 2.
Proof.
  eexists. split; [vm_compute; reflexivity|].
  match goal with |- (find_events_near ?P _ _).1 = _ =>
    destruct (find_events_near_window P 3 1) as [H _] end.
  - lia.
  - rewrite H. vm_compute; reflexivity.
Defined.

(** * The propagation rules of the forward engine *)

Section ForwardRules.
Variable P : TraceParser.

Lemma reg_tainted_mono T T' r :
  T ⊆ T' → reg_tainted T r = true → reg_tainted T' r = true.
Proof.
  intros Hsub. unfold reg_tainted. rewrite !orb_true_iff, !existsb_exists.
  setoid_rewrite in_set_true. intros [?|(a & ? & ?)]; [left|right].
  - by apply Hsub.
  - exists a. split; [done|]. by apply Hsub.
Qed.

Lemma existsb_reg_tainted_mono T T' l :
  T ⊆ T' → existsb (reg_tainted T) l = true →
  existsb (reg_tainted T') l = true.
Proof.
  intros Hsub. rewrite !existsb_exists. intros (r & Hr & Ht).
  exists r. split; [done|]. by eapply reg_tainted_mono.
Qed.

Lemma add_aliases_sub T r : T ⊆ add_aliases T r.
Proof. intros x Hx. apply add_aliases_elem. by left. Qed.

Lemma add_aliases_list_sub T l : T ⊆ foldl add_aliases T l.
Proof. intros x Hx. apply add_aliases_list_elem. by left. Qed.

Lemma mark_memory_sub M a w : M ⊆ _mark_memory_tainted M a w.
Proof. intros x Hx. apply mark_memory_elem. by left. Qed.

Lemma fwd_store_regs_mem i a T M used :
  M ⊆ (fwd_store P i a T M used).1
  ∧ (used = true → (fwd_store P i a T M used).2 = true).
Proof.
  unfold fwd_store. repeat case_match; simpl;
    (split; [done || apply mark_memory_sub|done]).
Qed.

Lemma fwd_multi_grows i a T M used :
  T ⊆ (fwd_multi P i a T M used).1.1
  ∧ M ⊆ (fwd_multi P i a T M used).1.2
  ∧ (used = true → (fwd_multi P i a T M used).2 = true).
Proof.
  unfold fwd_multi. repeat case_match; simpl; split_and!;
    try done; try (intros ->; done);
    try apply add_aliases_list_sub; try apply mark_memory_sub.
  etransitivity; apply add_aliases_sub.
Qed.

Lemma fwd_arm64_grows a T used :
  T ⊆ (fwd_arm64 a T used).1
  ∧ (used = true → (fwd_arm64 a T used).2 = true).
Proof.
  unfold fwd_arm64. repeat case_match; simpl; split;
    try done; apply add_aliases_sub.
Qed.

Lemma fwd_write_propagates i ev a M T used rd :
  existsb (reg_tainted T) (keys (reads ev)) || load_hit P i a M = true →
  _is_constant_zero_write ev rd = false →
  fwd_write P i ev a M (T, used) rd = (add_aliases T rd, true).
Proof. intros Hp Hz. unfold fwd_write. by rewrite Hz, Hp. Qed.

Lemma fwd_writes_propagate i ev a M l T used :
  existsb (reg_tainted T) (keys (reads ev)) || load_hit P i a M = true →
  (∀ rd, rd ∈ l → _is_constant_zero_write ev rd = false) →
  foldl (fwd_write P i ev a M) (T, used) l
  = (foldl add_aliases T l, used || ran l).
Proof.
  revert T used. induction l as [|rd l IH]; intros T used Hp Hz.
  { simpl. by rewrite orb_false_r. }
  cbn [foldl]. rewrite fwd_write_propagates; [|done|apply Hz; by left].
  rewrite IH.
  - simpl. by rewrite orb_true_r.
  - apply orb_true_iff in Hp as [Hp|Hp]; apply orb_true_iff; [left|by right].
    eapply existsb_reg_tainted_mono; [apply add_aliases_sub|done].
  - intros rd' Hrd'. apply Hz. by right.
Qed.

(** Tainted memory never shrinks, and a hit is never taken back. *)
Lemma fwd_event_mem_grows i ev T M :
  M ⊆ (fwd_event P i ev T M).1.2.
Proof.
  unfold fwd_event. destruct (foldl _ _ _) as [T1 u2].
  pose proof (fwd_store_regs_mem i (Py.lower (asm ev)) T1 M u2) as [H1 _].
  destruct (fwd_store _ _ _ _ _ _) as [M1 u3]. simpl in H1.
  pose proof (fwd_multi_grows i (Py.lower (asm ev)) T1 M1 u3) as (_ & H2 & _).
  destruct (fwd_multi _ _ _ _ _ _) as [[T2 M2] u4]. simpl in H2.
  destruct (fwd_arm64 _ _ _) as [T3 u5]. simpl. set_solver.
Qed.

Lemma fwd_loop_mem_grows sco ms bc idxs st :
  tainted_mem st ⊆ tainted_mem (fwd_loop P sco ms bc idxs st).
Proof.
  revert st. induction idxs as [|i idxs IH]; intros st; simpl; [done|].
  destruct (ms <=? steps st); [done|].
  destruct (events P !! i) as [ev|]; [|done].
  destruct (sco && negb (call_id ev =? bc)%nat); [apply IH|].
  pose proof (fwd_event_mem_grows i ev (tainted_regs st) (tainted_mem st))
    as Hg.
  destruct (fwd_event P i ev (tainted_regs st) (tainted_mem st))
    as [[T M] used].
  simpl in Hg. etransitivity; [exact Hg|]. apply (IH (mkTaintState _ _ _ _)).
Qed.

End ForwardRules.

(** X21: The propagation rule of the forward engine: when an event reads a
    tainted register, or is a load from an address with a tainted byte,
    and none of its writes is recognised as a constant-zero write, the
    event is a hit, every register it writes is tainted afterwards
    together with its aliases, and nothing that was tainted before is
    lost. *)
Theorem forward_propagation P i ev T M :
  existsb (reg_tainted T) (keys (reads ev))
  || load_hit P i (Py.lower (asm ev)) M = true →
  (∀ rd, rd ∈ keys (writes ev) → _is_constant_zero_write ev rd = false) →
  (fwd_event P i ev T M).2 = true
  ∧ T ⊆ (fwd_event P i ev T M).1.1
  ∧ M ⊆ (fwd_event P i ev T M).1.2
  ∧ ∀ rd a, rd ∈ keys (writes ev) → a ∈ _alias_names rd →
            a ∈ (fwd_event P i ev T M).1.1.
Proof.
  intros Hp Hz.
  pose proof (fwd_event_mem_grows P i ev T M) as HM.
  unfold fwd_event in *.
  rewrite (fwd_writes_propagate P i ev (Py.lower (asm ev)) M
             (keys (writes ev)) T _ Hp Hz) in *.
  rewrite Hp in *. cbn [orb] in *.
  set (T1 := foldl add_aliases T (keys (writes ev))) in *.
  pose proof (fwd_store_regs_mem P i (Py.lower (asm ev)) T1 M true)
    as [_ Hu3].
  destruct (fwd_store _ _ _ _ _ _) as [M1 u3]. simpl in Hu3.
  rewrite Hu3 in * by done.
  pose proof (fwd_multi_grows P i (Py.lower (asm ev)) T1 M1 true)
    as (HT2 & _ & Hu4).
  destruct (fwd_multi _ _ _ _ _ _) as [[T2 M2] u4]. simpl in HT2, Hu4.
  rewrite Hu4 in * by done.
  pose proof (fwd_arm64_grows (Py.lower (asm ev)) T2 true) as (HT3 & Hu5).
  destruct (fwd_arm64 _ _ _) as [T3 u5]. simpl in *.
  assert (T1 ⊆ T3) as H13 by set_solver.
  split_and!; [by apply Hu5| |done|].
  - etransitivity; [apply add_aliases_list_sub|exact H13].
  - intros rd a Hrd Ha. apply H13. unfold T1.
    apply add_aliases_list_elem. right. by exists rd.
Qed.

Lemma forward_propagation_witness :
  ∃ P, parse_events 2000 S1_trace = Some P
       ∧ ∃ ev, events P !! 0%nat = Some ev
           ∧ "r0" ∈ (fwd_event P 0 ev ∅ {[ 0x8000 ]}).1.1.
Proof.
  eexists. split; [vm_compute; reflexivity|].
  eexists. split; [vm_compute; reflexivity|].
  match goal with |- _ ∈ (fwd_event ?P _ ?ev _ _).1.1 =>
    destruct (forward_propagation P 0 ev ∅ {[ 0x8000 ]}) as (_ & _ & _ & H) end.
  - vm_compute; reflexivity.
  - intros rd Hrd. apply list_elem_of_singleton in Hrd as ->.
    vm_compute; reflexivity.
  - apply (H "r0"); [by left|by left].
Defined.

(** X22: Along a run of the forward engine tainted memory only grows: a byte
    tainted after [k] events, the source bytes among them, is still
    tainted after any larger number of events; no store clears it. *)
Theorem forward_memory_only_grows P start_idx srcs mems sco ms k k' :
  (k ≤ k')%nat →
  list_to_set ((fun a => Z.land a mask32) <$> mems)
  ⊆ tainted_mem (fwd_state_after P start_idx srcs mems sco ms k)
  ∧ tainted_mem (fwd_state_after P start_idx srcs mems sco ms k)
    ⊆ tainted_mem (fwd_state_after P start_idx srcs mems sco ms k').
Proof.
  intros Hk. unfold fwd_state_after. split.
  - apply (fwd_loop_mem_grows P sco ms _ _ (fwd_init srcs mems)).
  - set (l := seq _ _).
    assert (take k' l = take k l ++ drop k (take k' l)) as ->.
    { rewrite <- (take_drop k (take k' l)) at 1. f_equal.
      rewrite take_take. f_equal. lia. }
    assert (Happ : ∀ l1 l2 st bc,
      fwd_loop P sco ms bc (l1 ++ l2) st
      = fwd_loop P sco ms bc l2 (fwd_loop P sco ms bc l1 st)
      ∨ tainted_mem (fwd_loop P sco ms bc (l1 ++ l2) st)
        = tainted_mem (fwd_loop P sco ms bc l1 st)).
    { induction l1 as [|i l1 IH]; intros l2 st bc; simpl; [by left|].
      destruct (ms <=? steps st); [by right|].
      destruct (events P !! i) as [ev|]; [|by right].
      destruct (sco && negb (call_id ev =? bc)%nat); [apply IH|].
      destruct (fwd_event P i ev (tainted_regs st) (tainted_mem st))
        as [[T M] used]. apply IH. }
    match goal with |- context [fwd_loop P sco ms ?bc (?l1 ++ ?l2) ?st] =>
      destruct (Happ l1 l2 st bc) as [->| ->] end; [|done].
    apply fwd_loop_mem_grows.
Qed.

Lemma forward_memory_only_grows_witness :
  ∃ P, parse_events 2000 S1_trace = Some P
       ∧ tainted_mem (fwd_state_after P 0 [] [0x8000] false 120000 1)
         ⊆ tainted_mem (fwd_state_after P 0 [] [0x8000] false 120000 5).
Proof.
  eexists. split; [vm_compute; reflexivity|].
  match goal with |- context [fwd_state_after ?P] =>
    apply (forward_memory_only_grows P 0 [] [0x8000] false 120000 1 5) end.
  lia.
Defined.

Lemma parse_store_value_reg_nonempty a src :
  _parse_store_value_reg a = Some src → Py.is_empty src = false.
Proof.
  unfold _parse_store_value_reg, Rx.reg12. intros H.
  repeat (case_match; try done); by simplify_eq.
Qed.

(** X23: The store rule of the forward engine: a [str] event without register
    writes whose address resolved and whose stored register is tainted is
    a hit, and every byte of the access, as wide as the mnemonic says,
    is tainted afterwards. *)
Theorem forward_store_rule P i ev T M A src :
  writes ev = [] →
  Py.startswith (Py.lower (asm ev)) "str" = true →
  effective_address_at (events P) i = Some A →
  _parse_store_value_reg (Py.lower (asm ev)) = Some src →
  reg_tainted T src = true →
  (fwd_event P i ev T M).2 = true
  ∧ ∀ k, 0 ≤ k < _get_mem_access_width (Py.lower (asm ev)) →
         (A + k) `mod` 2 ^ 32 ∈ (fwd_event P i ev T M).1.2.
Proof.
  intros Hw Hs HA Hsrc Ht. unfold fwd_event. rewrite Hw. cbn [keys fmap
    list_fmap foldl].
  assert (fwd_store P i (Py.lower (asm ev)) T M
            (existsb (reg_tainted T) (keys (reads ev))
             || load_hit P i (Py.lower (asm ev)) M)
          = (_mark_memory_tainted M A
               (_get_mem_access_width (Py.lower (asm ev))), true)) as ->.
  { unfold fwd_store.
    by rewrite Hs, HA, Hsrc, (parse_store_value_reg_nonempty _ _ Hsrc), Ht. }
  set (M1 := _mark_memory_tainted _ _ _).
  pose proof (fwd_multi_grows P i (Py.lower (asm ev)) T M1 true)
    as (_ & HM2 & Hu4).
  destruct (fwd_multi _ _ _ _ _ _) as [[T2 M2] u4]. simpl in HM2, Hu4.
  rewrite Hu4 by done.
  pose proof (fwd_arm64_grows (Py.lower (asm ev)) T2 true) as (_ & Hu5).
  destruct (fwd_arm64 _ _ _) as [T3 u5]. simpl in *.
  split; [by apply Hu5|]. intros k Hk. apply HM2. unfold M1.
  apply mark_memory_elem. right. by exists k.
Qed.

Lemma forward_store_rule_witness :
  ∃ P, parse_events 2000 S1_trace = Some P
       ∧ ∃ ev, events P !! 2%nat = Some ev
           ∧ (0x9000 + 3) `mod` 2 ^ 32 ∈ (fwd_event P 2 ev {[ "r0" ]} ∅).1.2.
Proof.
  eexists. split; [vm_compute; reflexivity|].
  eexists. split; [vm_compute; reflexivity|].
  match goal with |- _ ∈ (fwd_event ?P _ ?ev _ _).1.2 =>
    destruct (forward_store_rule P 2 ev {[ "r0" ]} ∅ 0x9000 "r0")
      as (_ & H) end.
  - vm_compute; reflexivity.
  - vm_compute; reflexivity.
  - vm_compute; reflexivity.
  - vm_compute; reflexivity.
  - vm_compute; reflexivity.
  - apply H. vm_compute. split; [discriminate|reflexivity].
Defined.

(** * Register checkpoints *)

Section Checkpoints.

Lemma annotate_call_line cs e e' cs' :
  _annotate_call cs e = Some (e', cs') → line_no e' = line_no e.
Proof. intros ->%annotate_call_event. done. Qed.

(** What the main loop leaves in [_reg_checkpoints]. *)
Lemma parse_loop_checkpoints interval ps lexed ps' evs' :
  parse_loop interval ps lexed = Some ps' →
  annotate_all (ps_call ps) lexed = Some evs' →
  (∀ ln, (∀ ev, ev ∈ evs' → line_no ev ≠ ln) →
     ps_checkpoints ps' !! ln = ps_checkpoints ps !! ln)
  ∧ (∀ k ev, evs' !! k = Some ev →
       (line_no ev mod interval = 0)%nat →
       (∀ k' ev', (k < k')%nat → evs' !! k' = Some ev' →
                  line_no ev' ≠ line_no ev) →
       ps_checkpoints ps' !! line_no ev
       = Some (foldl _apply_writes (ps_current_regs ps) (take (S k) evs')))
  ∧ (∀ ln m, ps_checkpoints ps' !! ln = Some m →
       ps_checkpoints ps !! ln = Some m ∨ (ln mod interval = 0)%nat).
Proof.
  revert ps ps' evs'.
  induction lexed as [|e lexed IH]; intros ps ps' evs' H Han; simpl in *.
  { simplify_eq. split_and!; [done| |by left].
    intros k ev Hk. by rewrite lookup_nil in Hk. }
  unfold parse_step in H.
  destruct (_annotate_call (ps_call ps) e) as [[e' cs']|] eqn:E; [|done].
  destruct (interval =? 0)%nat; [done|].
  destruct (annotate_all cs' lexed) as [r|] eqn:Er; [|done].
  simpl in Han. simplify_eq.
  destruct (IH _ _ r H Er) as (Ha & Hb & Hc). simpl in *.
  set (cur := _apply_writes (ps_current_regs ps) e') in *.
  split_and!.
  - intros ln Hln. rewrite Ha.
    + destruct (line_no e' mod interval =? 0)%nat; [|done].
      rewrite lookup_insert_ne; [done|]. apply Hln. by left.
    + intros ev Hev. apply Hln. by right.
  - intros k ev Hk Hmod Hlater. destruct k as [|k]; simpl in Hk.
    + simplify_eq. rewrite Ha.
      * rewrite (proj2 (Nat.eqb_eq _ _) Hmod). by rewrite lookup_insert_eq.
      * intros ev' Hev'. apply list_elem_of_lookup in Hev' as [k' Hk'].
        apply (Hlater (S k')); [lia|done].
    + rewrite (Hb k ev Hk Hmod); [done|].
      intros k' ev' Hlt Hk'. apply (Hlater (S k')); [lia|done].
  - intros ln m Hm. destruct (Hc ln m Hm) as [Hold|?]; [|by right].
    destruct (line_no e' mod interval =? 0)%nat eqn:Em; [|by left].
    destruct (decide (line_no e' = ln)) as [<-|Hne].
    + right. by apply Nat.eqb_eq.
    + rewrite lookup_insert_ne in Hold by done. by left.
Qed.

End Checkpoints.

(** X24: The checkpoints of a parsed trace whose line numbers increase: there
    is one for each event whose line number is a multiple of the
    interval, and no other; it is filed under that line number and holds
    the register file as it is after the event. *)
Theorem checkpoints_exact interval lexed P :
  parse_events interval lexed = Some P → lines_increasing lexed →
  (∀ i ev, events P !! i = Some ev → (line_no ev mod interval = 0)%nat →
     _reg_checkpoints P !! line_no ev = Some (regs_after (events P) i))
  ∧ (∀ ln m, _reg_checkpoints P !! ln = Some m →
       (ln mod interval = 0)%nat
       ∧ ∃ i ev, events P !! i = Some ev ∧ line_no ev = ln
                 ∧ m = regs_after (events P) i).
Proof.
  intros Hp Hl.
  pose proof (parse_events_same _ _ _ Hp) as Hsame.
  pose proof (lines_increasing_same _ _ Hsame Hl) as HlP.
  destruct (parse_events_spec _ _ _ Hp) as (evs' & Han & Hev & _ & Hck).
  assert (Hs' : Forall2 same_insn evs' (events P)).
  { rewrite Hev. apply imap_Forall2. intros. apply same_insn_precomputed. }
  unfold parse_events in Hp.
  destruct (parse_loop interval parse_init lexed) as [ps|] eqn:E; [|done].
  destruct (parse_loop_checkpoints _ _ _ _ _ E Han) as (_ & Hb & Hc).
  assert (_reg_checkpoints P = ps_checkpoints ps) as HPck.
  { destruct (_precompute_memory_effects (ps_events ps)).
    by simplify_eq. }
  rewrite HPck in *. split.
  - intros i ev Hi Hmod.
    destruct (Forall2_lookup_r _ _ _ _ _ Hs' Hi) as (e' & He' & Hse).
    destruct Hse as (_ & _ & _ & Hln). rewrite <- Hln in *.
    rewrite (Hb i e' He' Hmod).
    + f_equal. unfold regs_after. simpl.
      by apply foldl_apply_same, Forall2_take.
    + intros k' ev' Hlt Hk' Heq.
      destruct (Forall2_lookup_l _ _ _ _ _ Hs' Hk')
        as (x' & Hx' & (_ & _ & _ & Hln')).
      pose proof (sorted_lookup_lt _ _ i k' _ _ HlP Hi Hx' Hlt) as Hcmp.
      simpl in Hcmp. lia.
  - intros ln m Hm. split; [|by apply Hck].
    destruct (Hc ln m Hm) as [Hold|?]; [|done].
    simpl in Hold. by rewrite lookup_empty in Hold.
Qed.

Lemma checkpoints_exact_witness :
  ∃ P, parse_events 2 S1_trace = Some P
       ∧ ∃ ev, events P !! 3%nat = Some ev
           ∧ _reg_checkpoints P !! line_no ev
             = Some (regs_after (events P) 3).
Proof.
  eexists. split; [vm_compute; reflexivity|].
  eexists. split; [vm_compute; reflexivity|].
  match goal with |- _reg_checkpoints ?P !! _ = _ =>
    destruct (checkpoints_exact 2 S1_trace P) as [H _] end.
  - vm_compute; reflexivity.
  - exact S1_lines.
  - apply H; vm_compute; reflexivity.
Defined.

(** * Register aliases form classes *)

Section AliasClasses.

Lemma is_space_lower_char c : Py.is_space (Py.lower_char c) = Py.is_space c.
Proof. by destruct c as [[] [] [] [] [] [] [] []]. Qed.

Lemma lstrip_lower s : Py.lstrip (Py.lower s) = Py.lower (Py.lstrip s).
Proof.
  unfold Py.lstrip. induction s as [|c s IH]; simpl; [done|].
  rewrite is_space_lower_char. by destruct (Py.is_space c).
Qed.

Lemma rstrip_lower s : Py.rstrip (Py.lower s) = Py.lower (Py.rstrip s).
Proof.
  unfold Py.rstrip. induction s as [|c s IH]; simpl; [done|].
  rewrite IH, is_space_lower_char.
  destruct (Py.drop_trailing Py.is_space s); simpl; [|done].
  by destruct (Py.is_space c).
Qed.

Lemma strip_lower s : Py.strip (Py.lower s) = Py.lower (Py.strip s).
Proof. unfold Py.strip. by rewrite lstrip_lower, rstrip_lower. Qed.

Lemma rstrip_idemp s : Py.rstrip (Py.rstrip s) = Py.rstrip s.
Proof.
  unfold Py.rstrip. induction s as [|c s IH]; simpl; [done|].
  destruct (Py.drop_trailing Py.is_space s) as [|d r] eqn:E.
  - destruct (Py.is_space c) eqn:Hc; simpl; [done|]. by rewrite Hc.
  - simpl in IH |- *. by rewrite IH.
Qed.

Lemma lstrip_clean s : left_clean (Py.lstrip s).
Proof.
  unfold Py.lstrip. induction s as [|c s IH]; simpl; [done|].
  by destruct (Py.is_space c) eqn:E.
Qed.

Lemma clean_lstrip s : left_clean s → Py.lstrip s = s.
Proof. destruct s as [|c s]; simpl; [done|]. unfold Py.lstrip. simpl.
       by intros ->. Qed.

Lemma rstrip_clean s : left_clean s → left_clean (Py.rstrip s).
Proof.
  unfold Py.rstrip. destruct s as [|c s]; simpl; [done|]. intros Hc.
  destruct (Py.drop_trailing Py.is_space s); simpl; [|done].
  by rewrite Hc.
Qed.

Lemma strip_idemp s : Py.strip (Py.strip s) = Py.strip s.
Proof.
  unfold Py.strip.
  rewrite (clean_lstrip (Py.rstrip (Py.lstrip s)))
    by apply rstrip_clean, lstrip_clean.
  apply rstrip_idemp.
Qed.

Lemma norm_idemp s :
  Py.lower (Py.strip (Py.lower (Py.strip s))) = Py.lower (Py.strip s).
Proof. by rewrite strip_lower, lower_idemp, strip_idemp. Qed.

Lemma norm_cons c rest :
  Py.is_space c = false →
  Py.lower (Py.strip (String c rest))
  = String (Py.lower_char c) (Py.lower (Py.rstrip rest)).
Proof.
  intros Hc. unfold Py.strip, Py.lstrip, Py.rstrip. simpl. rewrite Hc.
  simpl. destruct (Py.drop_trailing Py.is_space rest); simpl; [|done].
  by rewrite Hc.
Qed.

Lemma norm_swap_head c c' rest :
  Py.is_space c = false → Py.is_space c' = false →
  Py.lower_char c' = c' →
  Py.lower (Py.strip (String c rest)) = String c rest →
  Py.lower (Py.strip (String c' rest)) = String c' rest.
Proof.
  intros Hc Hc' Hl. rewrite !norm_cons by done.
  intros H. injection H as _ ->. by rewrite Hl.
Qed.

Lemma alias_names_normal a b :
  b ∈ _alias_names a → Py.lower (Py.strip b) = b.
Proof.
  unfold _alias_names.
  pose proof (norm_idemp a) as Hn.
  destruct (Py.lower (Py.strip a)) as [|c rest] eqn:E.
  { intros ->%list_elem_of_singleton. done. }
  destruct (Ascii.eqb c "x" && Py.isdigit rest) eqn:Ex.
  { apply andb_true_iff in Ex as [->%Ascii.eqb_eq _].
    intros [->|Hb]%elem_of_cons; [done|].
    apply list_elem_of_singleton in Hb as ->.
    by apply (norm_swap_head "x"). }
  destruct (Ascii.eqb c "w" && Py.isdigit rest) eqn:Ew.
  { apply andb_true_iff in Ew as [->%Ascii.eqb_eq _].
    intros [->|Hb]%elem_of_cons; [done|].
    apply list_elem_of_singleton in Hb as ->.
    by apply (norm_swap_head "w"). }
  intros ->%list_elem_of_singleton. done.
Qed.

Lemma alias_names_same a b :
  b ∈ _alias_names a → ∀ x, x ∈ _alias_names b ↔ x ∈ _alias_names a.
Proof.
  intros Hb. pose proof (alias_names_normal a b Hb) as Hnb.
  revert Hb. unfold _alias_names. rewrite Hnb.
  destruct (Py.lower (Py.strip a)) as [|c rest] eqn:E.
  { intros ->%list_elem_of_singleton. done. }
  destruct (Ascii.eqb c "x" && Py.isdigit rest) eqn:Ex.
  { apply andb_true_iff in Ex as [->%Ascii.eqb_eq Hd].
    intros [->|Hb]%elem_of_cons.
    - simpl. by rewrite Hd.
    - apply list_elem_of_singleton in Hb as ->. simpl. rewrite Hd.
      intros x. rewrite !elem_of_cons, !elem_of_nil. tauto. }
  destruct (Ascii.eqb c "w" && Py.isdigit rest) eqn:Ew.
  { apply andb_true_iff in Ew as [->%Ascii.eqb_eq Hd].
    intros [->|Hb]%elem_of_cons.
    - simpl. by rewrite Hd.
    - apply list_elem_of_singleton in Hb as ->. simpl. rewrite Hd.
      intros x. rewrite !elem_of_cons, !elem_of_nil. tauto. }
  intros ->%list_elem_of_singleton. by rewrite Ex, Ew.
Qed.

Lemma alias_names_self n : Py.lower (Py.strip n) ∈ _alias_names n.
Proof. unfold _alias_names. repeat case_match; by left. Qed.

End AliasClasses.

(** X25: The alias lists of [_alias_names] are classes: a name's own
    normal form (stripped, lower case) heads its list; the list has one
    or two entries, each already in normal form; and every entry of the
    list has the same entries in its own list, so that being an alias is
    symmetric and transitive. *)
Theorem alias_names_classes a b :
  b ∈ _alias_names a →
  hd "" (_alias_names a) = Py.lower (Py.strip a)
  ∧ (1 ≤ length (_alias_names a) ≤ 2)%nat
  ∧ Py.lower (Py.strip b) = b
  ∧ b ∈ _alias_names b
  ∧ ∀ x, x ∈ _alias_names b ↔ x ∈ _alias_names a.
Proof.
  intros Hb. pose proof (alias_names_normal a b Hb) as Hnb.
  split; [unfold _alias_names; by repeat case_match|]. split.
  { unfold _alias_names. repeat case_match; simpl; lia. }
  split; [done|]. split.
  - rewrite <- Hnb at 1. apply alias_names_self.
  - by apply alias_names_same.
Qed.

Lemma alias_names_classes_witness :
  "w5" ∈ _alias_names " X5 "
  ∧ ("x5" ∈ _alias_names "w5" ↔ "x5" ∈ _alias_names " X5 ").
Proof.
  assert ("w5" ∈ _alias_names " X5 ") as H.
  { vm_compute. right. by left. }
  split; [exact H|].
  exact (proj2 (proj2 (proj2 (proj2
           (alias_names_classes " X5 " "w5" H)))) "x5").
Defined.

(** * Where a backward run stops *)

Section BackwardStop.
Variable P : TraceParser.
Variable reg : string.

Lemma back_target_elem x :
  x ∈ back_target reg ↔ x ∈ _alias_names (Py.lower reg).
Proof.
  unfold back_target, back_init. simpl. rewrite union_list_elem.
  set_solver.
Qed.

Lemma names_target_iff r :
  names_target reg r = true
  ↔ ∃ a, a ∈ _alias_names r ∧ a ∈ back_target reg.
Proof.
  unfold names_target, live_alias. rewrite existsb_exists. split.
  - intros (a & Ha%list_elem_of_In & [Hin _]%andb_true_iff).
    exists a. split; [done|]. by apply in_set_true.
  - intros (a & Ha & Hin). exists a. split; [by apply list_elem_of_In|].
    apply andb_true_iff. split; [by apply in_set_true|].
    unfold in_set. by rewrite bool_decide_eq_false_2 by set_solver.
Qed.

Lemma names_target_class rd x :
  names_target reg rd = true →
  x ∈ _alias_names rd ↔ x ∈ back_target reg.
Proof.
  intros (a & Ha & Hin)%names_target_iff. apply back_target_elem in Hin.
  rewrite back_target_elem.
  rewrite <- (alias_names_same rd a Ha x).
  by rewrite (alias_names_same (Py.lower reg) a Hin x).
Qed.

Lemma live_alias_dead T Term r : T ⊆ Term → live_alias T Term r = false.
Proof.
  intros Hsub. unfold live_alias.
  induction (_alias_names r) as [|a l IH]; [done|]. simpl.
  rewrite IH, orb_false_r. unfold in_set.
  destruct (decide (a ∈ T)) as [Hin|Hin].
  - rewrite (bool_decide_eq_true_2 (a ∈ Term)) by (by apply Hsub).
    apply andb_false_r.
  - by rewrite (bool_decide_eq_false_2 (a ∈ T)).
Qed.

Lemma existsb_live_dead T Term l :
  T ⊆ Term → existsb (live_alias T Term) l = false.
Proof.
  intros Hsub. induction l as [|r l IH]; [done|]. simpl.
  by rewrite IH, live_alias_dead.
Qed.

(** Once every tainted register is terminated and no memory is
    tainted, events leave the engine alone and are no hits. *)
Lemma back_event_dead emt i ev T Term :
  T ⊆ Term → back_event P emt i ev T ∅ Term = (T, ∅, Term, false).
Proof.
  intros Hsub. unfold back_event.
  rewrite back_writes_untouched by (by apply existsb_live_dead).
  rewrite existsb_live_dead by done. simpl.
  destruct (emt && Py.startswith (Py.lower (asm ev)) "str"); [|done].
  destruct (effective_address_at (events P) i); [|done].
  by rewrite check_memory_tainted_empty.
Qed.

Lemma back_loop_dead sco ms emt bc idxs st :
  b_tainted_regs st ⊆ b_terminated_regs st → b_tainted_mem st = ∅ →
  b_hits (back_loop P sco ms emt bc idxs st) = b_hits st.
Proof.
  revert st. induction idxs as [|i idxs IH]; intros st Hsub HM; simpl.
  { done. }
  destruct (ms <=? b_steps st); [done|].
  destruct (events P !! i) as [ev|]; [|done].
  destruct (sco && negb (call_id ev =? bc)%nat); [by apply IH|].
  rewrite HM, back_event_dead by done. by rewrite IH.
Qed.

(** The write loop of an event that writes the target, when each such
    write is classified as a source: the target's class is terminated
    and the event is a hit. *)
Lemma back_writes_terminate emt i ev a l used :
  (∀ rd, rd ∈ l → names_target reg rd = true →
         is_Some (_check_backward_termination P i rd)) →
  existsb (names_target reg) l = true →
  ∃ Term', foldl (back_write P emt i ev a) (back_target reg, ∅, ∅, used) l
           = (back_target reg, ∅, Term', true)
           ∧ back_target reg ⊆ Term'.
Proof.
  revert used. induction l as [|rd l IH]; intros used Hterm Hex; [done|].
  cbn [foldl existsb] in *.
  destruct (names_target reg rd) eqn:Hrd.
  - destruct (Hterm rd ltac:(by left) Hrd) as [tag Htag].
    assert (back_write P emt i ev a (back_target reg, ∅, ∅, used) rd
            = (back_target reg, ∅,
               foldl (fun X a => X ∪ {[a]}) ∅ (_alias_names rd), true))
      as ->.
    { unfold back_write.
      change (live_alias (back_target reg) ∅ rd) with (names_target reg rd).
      by rewrite Hrd, Htag. }
    assert (back_target reg
            ⊆ foldl (fun X a => X ∪ {[a]}) ∅ (_alias_names rd)) as Hsub.
    { intros x Hx. apply union_list_elem. right.
      by apply (names_target_class rd x Hrd). }
    eexists. split; [|exact Hsub].
    apply back_writes_untouched. by apply existsb_live_dead.
  - assert (back_write P emt i ev a (back_target reg, ∅, ∅, used) rd
            = (back_target reg, ∅, ∅, used)) as ->.
    { unfold back_write.
      change (live_alias (back_target reg) ∅ rd) with (names_target reg rd).
      by rewrite Hrd. }
    apply IH; [|done]. intros rd' Hrd'. apply Hterm. by right.
Qed.

Lemma back_event_terminates emt i ev :
  (∀ rd, rd ∈ keys (writes ev) → names_target reg rd = true →
         is_Some (_check_backward_termination P i rd)) →
  existsb (names_target reg) (keys (writes ev)) = true →
  ∃ Term', back_event P emt i ev (back_target reg) ∅ ∅
           = (back_target reg, ∅, Term', true)
           ∧ back_target reg ⊆ Term'.
Proof.
  intros Hterm Hex. unfold back_event.
  destruct (back_writes_terminate emt i ev (Py.lower (asm ev))
              (keys (writes ev)) false Hterm Hex) as (Term' & -> & Hsub).
  exists Term'. split; [|done]. simpl.
  destruct (emt && Py.startswith (Py.lower (asm ev)) "str"); [|done].
  destruct (effective_address_at (events P) i); [|done].
  by rewrite check_memory_tainted_empty.
Qed.

(** The state after a stretch of events none of which writes the
    target. *)
Lemma back_loop_untouched_state ms emt bc idxs st :
  b_tainted_regs st = back_target reg → b_tainted_mem st = ∅ →
  b_terminated_regs st = ∅ →
  (∀ j, j ∈ idxs → (j < length (events P))%nat
                   ∧ event_writes_target P reg j = false) →
  b_steps st + Z.of_nat (length idxs) ≤ ms →
  back_loop P false ms emt bc idxs st
  = {| b_tainted_regs := back_target reg; b_tainted_mem := ∅;
       b_terminated_regs := ∅;
       b_hits := b_hits st
                 ++ filter (fun j => event_reads_target P reg j = true) idxs;
       b_steps := b_steps st + Z.of_nat (length idxs) |}.
Proof.
  revert st. induction idxs as [|j idxs IH]; intros st HT HM HTerm Hidx Hms.
  { simpl. rewrite app_nil_r, Z.add_0_r. destruct st; simpl in *.
    by subst. }
  simpl in Hms |- *. rewrite (proj2 (Z.leb_gt _ _)) by lia.
  destruct (Hidx j ltac:(by left)) as [Hj Hw].
  destruct (lookup_lt_is_Some_2 _ _ Hj) as [ev Hev]. rewrite Hev. simpl.
  unfold event_writes_target in Hw. rewrite Hev in Hw.
  rewrite HT, HM, HTerm, (back_event_untouched P reg emt j ev Hw).
  rewrite IH; simpl; [|done|done|done| |lia].
  - assert (event_reads_target P reg j
            = existsb (names_target reg) (keys (reads ev))) as Hr.
    { unfold event_reads_target. by rewrite Hev. }
    rewrite filter_cons, Hr. f_equal; [|lia].
    destruct (existsb (names_target reg) (keys (reads ev)));
      case_decide; try done.
    by rewrite <- app_assoc.
  - intros j' Hj'. apply Hidx. by right.
Qed.

Lemma back_loop_app ms emt bc l1 l2 st :
  b_steps st + Z.of_nat (length l1) ≤ ms →
  (∀ j, j ∈ l1 → (j < length (events P))%nat) →
  back_loop P false ms emt bc (l1 ++ l2) st
  = back_loop P false ms emt bc l2 (back_loop P false ms emt bc l1 st).
Proof.
  revert st. induction l1 as [|j l1 IH]; intros st Hms Hlt; [done|].
  simpl in Hms |- *. rewrite (proj2 (Z.leb_gt _ _)) by lia.
  destruct (lookup_lt_is_Some_2 (events P) j) as [ev Hev].
  { apply Hlt. by left. }
  rewrite Hev. simpl.
  destruct (back_event P emt j ev (b_tainted_regs st) (b_tainted_mem st)
              (b_terminated_regs st)) as [[[T M] Term] used].
  apply IH; simpl; [lia|]. intros j' Hj'. apply Hlt. by right.
Qed.

End BackwardStop.

(** X26: A backward run stops at the source: without the call
    filter and with a step budget that covers the walk, when the last
    event at or before the start that writes the target register (or its
    alias) is classified as a termination point for each such write, the
    hits are that event followed by the later events, up to the start,
    that read the target; nothing before the source is reported. *)
Theorem backward_stops_at_source P s i reg tv ms emt :
  (i ≤ s < length (events P))%nat → Z.of_nat s < ms →
  (∀ j, (i < j ≤ s)%nat → event_writes_target P reg j = false) →
  event_writes_target P reg i = true →
  (∀ ev rd, events P !! i = Some ev → rd ∈ keys (writes ev) →
            names_target reg rd = true →
            is_Some (_check_backward_termination P i rd)) →
  taint_backward P (Z.of_nat s) reg tv false ms emt
  = i :: filter (fun j => event_reads_target P reg j = true)
                (seq (S i) (s - i)).
Proof.
  intros [His Hs] Hms Hnow Hwi Hterm. unfold taint_backward.
  rewrite bool_decide_eq_false_2
    by (intros E; rewrite E in Hs; simpl in Hs; lia).
  unfold back_run. rewrite clamp_index_in_range by done.
  destruct (lookup_lt_is_Some_2 (events P) i ltac:(lia)) as [ev Hev].
  set (bc := from_option call_id 0%nat (events P !! s)).
  assert (down_from s
          = rev (seq (S i) (s - i)) ++ [i] ++ rev (seq 0 i)) as ->.
  { unfold down_from.
    replace (S s) with (i + (1 + (s - i)))%nat by lia.
    rewrite seq_app, rev_app_distr. simpl. by rewrite <- app_assoc. }
  rewrite back_loop_app.
  2: { simpl. rewrite length_rev, length_seq. lia. }
  2: { intros j Hj%list_elem_of_In%in_rev%list_elem_of_In%elem_of_seq. lia. }
  rewrite (back_loop_untouched_state P reg ms emt bc
             (rev (seq (S i) (s - i)))); try done.
  2: { intros j Hj%list_elem_of_In%in_rev%list_elem_of_In%elem_of_seq.
       split; [lia|]. apply Hnow. lia. }
  2: { simpl. rewrite length_rev, length_seq. lia. }
  cbn [app back_loop b_steps b_tainted_regs b_tainted_mem b_terminated_regs
       b_hits back_init].
  rewrite length_rev, length_seq.
  rewrite (proj2 (Z.leb_gt _ _)) by lia. rewrite Hev. cbn [andb].
  unfold event_writes_target in Hwi. rewrite Hev in Hwi.
  destruct (back_event_terminates P reg emt i ev
              (fun rd => Hterm ev rd Hev) Hwi)
    as (Term' & -> & Hsub).
  rewrite back_loop_dead by done. cbn [b_hits app].
  rewrite rev_app_distr. cbn [rev app]. f_equal. apply rev_filter_rev.
Qed.

Lemma backward_stops_at_source_witness :
  ∃ P, parse_events 2000 S1_trace = Some P
       ∧ taint_backward P 4 "r1" None false 100000 true
         = 1%nat :: filter (fun j => event_reads_target P "r1" j = true)
                           (seq 2 3).
Proof.
  eexists. split; [vm_compute; reflexivity|].
  match goal with |- taint_backward ?P _ _ _ _ _ _ = _ =>
    apply (backward_stops_at_source P 4 1 "r1" None 100000 true) end.
  - vm_compute. lia.
  - lia.
  - intros j Hj. destruct j as [|[|[|[|[|j]]]]]; try lia;
      vm_compute; reflexivity.
  - vm_compute; reflexivity.
  - intros ev rd Hev Hrd _. vm_compute in Hev. simplify_eq.
    vm_compute in Hrd. apply list_elem_of_singleton in Hrd as ->.
    vm_compute. by eexists.
Defined.
